(** * The saltpack prototype codec ([format.py]): encode / decode

    A shallow embedding of [format.py].  Python values are an inductive type
    [obj]; exceptions are a [result]; the two [io.BytesIO] buffers, the
    operating system's entropy and the record of calls into the cryptographic
    library are threaded through a state-and-error monad [M].

    The external collaborators of the module (PyNaCl, [hmac], [umsgpack],
    [os.urandom], [base64], [json]) are variables of the section [Codec],
    together with the laws the proofs rely on.  The module [Model] gives one
    concrete instance of all of them, so that every law is known to be
    satisfiable and every theorem can be run on it.

    What the embedding leaves out:
    - the text that [print] sends to standard output; of [json_repr] only
      whether it raises is kept, since that can end [decode];
    - values that [umsgpack] can produce but this program never builds
      (booleans, floats, extension types), and the size limits of the
      serialization format;
    - the arguments on which the C bindings refuse to work (keys and nonces
      of the wrong length): [crypto_box] and [crypto_secretbox] are total,
      and the two openers fail only by [CryptoError];
    - timing: [compare_digest] is the comparison of two byte strings;
    - the interpreter's recursion limit: on values nested some hundreds of
      levels deep [umsgpack] and [json_repr] raise [RecursionError], and here
      they do not; the statements about reading and printing objects of any
      shape ask for a nesting of at most 100 ([msgpack_obj]);
    - what [json.dumps] itself refuses, which with [sort_keys] is a
      dictionary whose keys are of kinds that cannot be compared (text and
      integers): [json_dumps] is total, and [text_keys] names objects on
      which the real one is;
    - the place where an argument that is not a byte string is refused: the
      C bindings raise their [TypeError] once called, [as_bytes] raises it
      before the call is recorded;
    - the calls of [crypto_scalarmult_base], which are not recorded. *)

From Stdlib Require Import String Ascii.
From Stdlib Require Import Strings.Byte.
From Stdlib Require Import List NArith ZArith Lia Bool.
Import ListNotations.

Local Open Scope nat_scope.

(** ** Byte strings *)

Definition bytes := list byte.

Fixpoint bytes_eqb (a b : bytes) : bool :=
  match a, b with
  | [], [] => true
  | x :: a', y :: b' => Byte.eqb x y && bytes_eqb a' b'
  | _, _ => false
  end.

(** [b[lo:hi]] for [0 <= lo <= hi]. *)
Definition slice (b : bytes) (lo hi : nat) : bytes := firstn (hi - lo) (skipn lo b).

(** Every Python [bytes] object is shorter than [sys.maxsize]. *)
Definition PY_SSIZE_T_MAX : N := 2 ^ 63 - 1.

Definition valid_bytes (b : bytes) : Prop := (N.of_nat (length b) <= PY_SSIZE_T_MAX)%N.

(** ** Python values

    The values that [umsgpack] produces and consumes in this program: [None],
    integers, text, byte strings, sequences and dictionaries.  A dictionary
    is the list of its items in insertion order. *)

#[local] Unset Elimination Schemes.
Inductive obj : Type :=
| ONone
| OInt (z : Z)
| OStr (s : string)
| OBytes (b : bytes)
| OList (l : list obj)
| ODict (d : list (obj * obj)).
#[local] Set Elimination Schemes.

Definition dict := list (obj * obj).

Fixpoint obj_eqb (a b : obj) {struct a} : bool :=
  match a, b with
  | ONone, ONone => true
  | OInt x, OInt y => Z.eqb x y
  | OStr x, OStr y => String.eqb x y
  | OBytes x, OBytes y => bytes_eqb x y
  | OList x, OList y =>
      (fix go (x y : list obj) {struct x} : bool :=
         match x, y with
         | [], [] => true
         | a' :: x', b' :: y' => obj_eqb a' b' && go x' y'
         | _, _ => false
         end) x y
  | ODict x, ODict y =>
      (fix go (x y : dict) {struct x} : bool :=
         match x, y with
         | [], [] => true
         | (k1, v1) :: x', (k2, v2) :: y' =>
             obj_eqb k1 k2 && obj_eqb v1 v2 && go x' y'
         | _, _ => false
         end) x y
  | _, _ => false
  end.

(** ** Exceptions *)

Inductive exn : Type :=
| KeyError (key : obj)
| TypeError
| IndexError
| AttributeError
| OverflowError
| RuntimeError (msg : string)
| CryptoError
| UnpackException
| FuelExhausted.
(* [FuelExhausted] is no Python exception: it is what a loop of the model
   answers when its bound on the number of turns is used up.  The bounds are
   shown to be enough ([chunks_with_empty_total], [decode_fuel_enough]). *)

Inductive result (A : Type) : Type :=
| Ok (a : A)
| Raise (e : exn).

Arguments Ok {A} a.
Arguments Raise {A} e.

Definition rbind {A B : Type} (r : result A) (k : A -> result B) : result B :=
  match r with
  | Ok a => k a
  | Raise e => Raise e
  end.

Declare Scope result_scope.
Delimit Scope result_scope with result.
Notation "x <~ c ;; k" := (rbind c (fun x => k))
  (at level 100, c at next level, right associativity) : result_scope.

(** ** Dictionaries and subscripts *)

Fixpoint dict_lookup (d : dict) (k : obj) : option obj :=
  match d with
  | [] => None
  | (k', v) :: d' => if obj_eqb k' k then Some v else dict_lookup d' k
  end.

(** [d[k] = v]: an existing key keeps its place, a new one goes last. *)
Fixpoint dict_set (d : dict) (k v : obj) : dict :=
  match d with
  | [] => [(k, v)]
  | (k', v') :: d' =>
      if obj_eqb k' k then (k', v) :: d' else (k', v') :: dict_set d' k v
  end.

Definition hashable (o : obj) : bool :=
  match o with
  | OList _ | ODict _ => false
  | _ => true
  end.

(** [l[i]] on a sequence, with Python's negative indices. *)
Definition seq_index {A : Type} (l : list A) (i : Z) : result A :=
  let n := Z.of_nat (length l) in
  let j := if (i <? 0)%Z then (i + n)%Z else i in
  if ((0 <=? j) && (j <? n))%Z then
    match nth_error l (Z.to_nat j) with
    | Some x => Ok x
    | None => Raise IndexError
    end
  else Raise IndexError.

Definition string_of_ascii (c : ascii) : string := String c EmptyString.

(** [o[k]] *)
Definition getitem (o k : obj) : result obj :=
  match o with
  | ODict d =>
      if hashable k then
        match dict_lookup d k with
        | Some v => Ok v
        | None => Raise (KeyError k)
        end
      else Raise TypeError
  | OList l =>
      match k with
      | OInt i => seq_index l i
      | _ => Raise TypeError
      end
  | OBytes b =>
      match k with
      | OInt i => rbind (seq_index b i) (fun x => Ok (OInt (Z.of_N (Byte.to_N x))))
      | _ => Raise TypeError
      end
  | OStr s =>
      match k with
      | OInt i =>
          rbind (seq_index (list_ascii_of_string s) i)
                (fun c => Ok (OStr (string_of_ascii c)))
      | _ => Raise TypeError
      end
  | ONone | OInt _ => Raise TypeError
  end.

(** [o.get(k)] *)
Definition get_method (o k : obj) : result obj :=
  match o with
  | ODict d =>
      if hashable k then
        match dict_lookup d k with
        | Some v => Ok v
        | None => Ok ONone
        end
      else Raise TypeError
  | _ => Raise AttributeError
  end.

(** Arguments that the C bindings and [hmac] take must be byte strings. *)
Definition as_bytes (o : obj) : result bytes :=
  match o with
  | OBytes b => Ok b
  | _ => Raise TypeError
  end.

(** ** [int.to_bytes(length, byteorder='big')] *)

Definition byte_of_N (n : N) : byte :=
  match Byte.of_N n with
  | Some b => b
  | None => x00
  end.

Fixpoint to_bytes_le (len : nat) (n : N) : bytes :=
  match len with
  | O => []
  | S l => byte_of_N (n mod 256) :: to_bytes_le l (n / 256)
  end.

Definition to_bytes (n : N) (len : nat) : result bytes :=
  if (n <? 256 ^ N.of_nat len)%N then Ok (rev (to_bytes_le len n))
  else Raise OverflowError.

(** [int.from_bytes(b, byteorder='big')], to say what [to_bytes] encodes. *)
Definition from_bytes (b : bytes) : N :=
  fold_left (fun acc x => (acc * 256 + Byte.to_N x)%N) b 0%N.

(** ** [chunks_with_empty] *)

Definition chunk_size : nat := 100.

(** The [while] loop, bounded by [fuel] iterations. *)
Fixpoint chunks_loop (fuel : nat) (message : bytes) (chunk_start : nat)
    (chunks : list bytes) : option (list bytes) :=
  if chunk_start <? length message then
    match fuel with
    | O => None
    | S fuel' =>
        chunks_loop fuel' message (chunk_start + chunk_size)
          (chunks ++ [slice message chunk_start (chunk_start + chunk_size)])
    end
  else Some chunks.

Definition chunks_with_empty (message : bytes) : option (list bytes) :=
  match chunks_loop (length message) message 0 [] with
  | Some chunks => Some (chunks ++ [[]])
  | None => None
  end.

(** ** Objects that [umsgpack] round-trips

    Dictionary keys are hashable and pairwise different, at every depth. *)

Fixpoint unique_keys (ks : list obj) : bool :=
  match ks with
  | [] => true
  | k :: ks' => negb (existsb (obj_eqb k) ks') && unique_keys ks'
  end.

Fixpoint wf_obj (o : obj) : bool :=
  match o with
  | OList l => forallb wf_obj l
  | ODict d =>
      unique_keys (map fst d)
      && forallb (fun kv => hashable (fst kv) && wf_obj (fst kv) && wf_obj (snd kv)) d
  | _ => true
  end.

Definition is_bytes (o : obj) : bool :=
  match o with
  | OBytes _ => true
  | _ => false
  end.

(** ** Calls into the operating system and the cryptographic library

    Every call of [os.urandom] and of a sealing or opening primitive is
    recorded, in the order the program makes them, with its arguments. *)

Inductive call : Type :=
| Urandom (n : nat) (out : bytes)
| Box (message nonce sk pk : bytes)
| BoxOpen (ciphertext nonce sk pk : bytes)
| Secretbox (message nonce key : bytes)
| SecretboxOpen (ciphertext nonce key : bytes).

Definition is_secretbox_open (c : call) : bool :=
  match c with
  | SecretboxOpen _ _ _ => true
  | _ => false
  end.

Definition is_box (c : call) : bool :=
  match c with
  | Box _ _ _ _ => true
  | _ => false
  end.

Definition is_secretbox (c : call) : bool :=
  match c with
  | Secretbox _ _ _ => true
  | _ => false
  end.

(** The outputs of the [os.urandom(n)] calls of a record. *)
Fixpoint urandom_outputs (n : nat) (cs : list call) : list bytes :=
  match cs with
  | [] => []
  | Urandom m out :: cs' =>
      if Nat.eqb m n then out :: urandom_outputs n cs' else urandom_outputs n cs'
  | _ :: cs' => urandom_outputs n cs'
  end.

(** ** A model of the collaborators

    One concrete choice of every function the section [Codec] takes as a
    variable.  It is not PyNaCl or MessagePack: it is a small thing that
    obeys the laws the proofs use (sealed text opens under the matching keys
    and nonce, digests have 64 bytes, written objects read back), so that the
    laws are satisfiable together and the theorems can be run.  Nothing in
    it is secret: a sealed text carries its keys. *)

Module Model.

Definition Rng : Type := nat.

(** The [n] bytes drawn at state [g] all have the value [g mod 256]. *)
Definition urandom (g : Rng) (n : nat) : bytes * Rng :=
  (repeat (byte_of_N (N.of_nat g mod 256)) n, S g).

Definition crypto_scalarmult_base (sk : bytes) : bytes := rev sk.

Fixpoint starts_with (key c : bytes) : bool :=
  match key, c with
  | [], _ => true
  | x :: key', y :: c' => Byte.eqb x y && starts_with key' c'
  | _ :: _, [] => false
  end.

Definition seal (key message : bytes) : bytes := key ++ message.

Definition unseal (key c : bytes) : option bytes :=
  if starts_with key c then Some (skipn (length key) c) else None.

Definition crypto_box (message nonce sk pk : bytes) : bytes :=
  seal (sk ++ rev pk ++ nonce) message.

Definition crypto_box_open (c nonce sk pk : bytes) : option bytes :=
  unseal (rev pk ++ sk ++ nonce) c.

Definition crypto_secretbox (message nonce key : bytes) : bytes :=
  seal (key ++ nonce) message.

Definition crypto_secretbox_open (c nonce key : bytes) : option bytes :=
  unseal (key ++ nonce) c.

Definition hmac_sha512 (key data : bytes) : bytes :=
  firstn 64 (key ++ data ++ repeat x00 64).

Definition b64encode (b : bytes) : string := string_of_list_byte b.

Definition json_dumps (o : obj) : string := EmptyString.

(** A self-delimiting serialisation: a tag byte, then a count in unary
    (that many [x01], then [x00]), then the content. *)

Definition write_nat (n : nat) : bytes := repeat x01 n ++ [x00].

Fixpoint read_nat (s : bytes) : option (nat * bytes) :=
  match s with
  | [] => None
  | b :: r =>
      if Byte.eqb b x00 then Some (0, r)
      else if Byte.eqb b x01 then
        match read_nat r with
        | Some (n, r') => Some (S n, r')
        | None => None
        end
      else None
  end.

Fixpoint packb (o : obj) : bytes :=
  match o with
  | ONone => [x00]
  | OInt z => x01 :: (if (z <? 0)%Z then x01 else x00) :: write_nat (Z.abs_nat z)
  | OStr t => x02 :: write_nat (length (list_byte_of_string t)) ++ list_byte_of_string t
  | OBytes b => x03 :: write_nat (length b) ++ b
  | OList l => x04 :: write_nat (length l) ++ flat_map packb l
  | ODict d =>
      x05 :: write_nat (length d) ++ flat_map (fun kv => packb (fst kv) ++ packb (snd kv)) d
  end.

Fixpoint read_items (u : bytes -> option (obj * bytes)) (n : nat) (s : bytes)
    : option (list obj * bytes) :=
  match n with
  | O => Some ([], s)
  | S n' =>
      match u s with
      | Some (x, r) =>
          match read_items u n' r with
          | Some (xs, r') => Some (x :: xs, r')
          | None => None
          end
      | None => None
      end
  end.

Fixpoint read_pairs (u : bytes -> option (obj * bytes)) (n : nat) (s : bytes)
    : option (dict * bytes) :=
  match n with
  | O => Some ([], s)
  | S n' =>
      match u s with
      | Some (k, r) =>
          match u r with
          | Some (v, r') =>
              match read_pairs u n' r' with
              | Some (kvs, r'') => Some ((k, v) :: kvs, r'')
              | None => None
              end
          | None => None
          end
      | None => None
      end
  end.

Fixpoint unpack_fuel (fuel : nat) (s : bytes) : option (obj * bytes) :=
  match fuel with
  | O => None
  | S fuel' =>
      match s with
      | [] => None
      | tag :: r =>
          if Byte.eqb tag x00 then Some (ONone, r)
          else if Byte.eqb tag x01 then
            match r with
            | [] => None
            | sign :: r1 =>
                match read_nat r1 with
                | Some (n, r2) =>
                    if Byte.eqb sign x00 then Some (OInt (Z.of_nat n), r2)
                    else if Byte.eqb sign x01 then Some (OInt (- Z.of_nat n), r2)
                    else None
                | None => None
                end
            end
          else if Byte.eqb tag x02 then
            match read_nat r with
            | Some (n, r1) =>
                if n <=? length r1
                then Some (OStr (string_of_list_byte (firstn n r1)), skipn n r1)
                else None
            | None => None
            end
          else if Byte.eqb tag x03 then
            match read_nat r with
            | Some (n, r1) =>
                if n <=? length r1 then Some (OBytes (firstn n r1), skipn n r1) else None
            | None => None
            end
          else if Byte.eqb tag x04 then
            match read_nat r with
            | Some (n, r1) =>
                match read_items (unpack_fuel fuel') n r1 with
                | Some (xs, r2) => Some (OList xs, r2)
                | None => None
                end
            | None => None
            end
          else if Byte.eqb tag x05 then
            match read_nat r with
            | Some (n, r1) =>
                match read_pairs (unpack_fuel fuel') n r1 with
                | Some (kvs, r2) => Some (ODict kvs, r2)
                | None => None
                end
            | None => None
            end
          else None
      end
  end.

Definition unpack (s : bytes) : option (obj * bytes) := unpack_fuel (S (length s)) s.

End Model.

(** ** The keys and the message hard-coded in [format.py] *)

Module Hardcoded.

Definition jack_private : bytes := repeat xaa 32.

Definition max_private : bytes := repeat xbb 32.

Definition chris_private : bytes := repeat xcc 32.

(** [b'The Magic Words are Squeamish Ossifrage'], the message of [main] *)
Definition message : bytes := list_byte_of_string "The Magic Words are Squeamish Ossifrage".

End Hardcoded.

Section Codec.

(** *** External collaborators *)

Variable Rng : Type.
Variable urandom : Rng -> nat -> bytes * Rng.

Variable crypto_scalarmult_base : bytes -> bytes.
Variable crypto_box : bytes -> bytes -> bytes -> bytes -> bytes.
Variable crypto_box_open : bytes -> bytes -> bytes -> bytes -> option bytes.
Variable crypto_secretbox : bytes -> bytes -> bytes -> bytes.
Variable crypto_secretbox_open : bytes -> bytes -> bytes -> option bytes.
Variable hmac_sha512 : bytes -> bytes -> bytes.

Variable packb : obj -> bytes.
Variable unpack : bytes -> option (obj * bytes).

Variable b64encode : bytes -> string.
Variable json_dumps : obj -> string.

(** *** The world a call runs in *)

Record world : Type := mkWorld {
  entropy : Rng;          (* what [os.urandom] will answer next *)
  stream : bytes;         (* [stream = io.BytesIO(input)]: the bytes not read yet *)
  output : bytes;         (* [output = io.BytesIO()]: the bytes written so far *)
  calls : list call       (* the calls made so far, oldest first *)
}.

Definition M (A : Type) : Type := world -> result A * world.

Definition ret {A : Type} (a : A) : M A := fun w => (Ok a, w).

Definition raise {A : Type} (e : exn) : M A := fun w => (Raise e, w).

Definition bind {A B : Type} (c : M A) (k : A -> M B) : M B :=
  fun w =>
    match c w with
    | (Ok a, w') => k a w'
    | (Raise e, w') => (Raise e, w')
    end.

Definition lift {A : Type} (r : result A) : M A := fun w => (r, w).

Notation "x <- c ;; k" := (bind c (fun x => k))
  (at level 100, c at next level, right associativity).
Notation "c ;;; k" := (bind c (fun _ => k))
  (at level 100, right associativity).

Definition record (c : call) (w : world) : world :=
  mkWorld (entropy w) (stream w) (output w) (calls w ++ [c]).

Definition os_urandom (n : nat) : M bytes :=
  fun w =>
    let (r, g) := urandom (entropy w) n in
    (Ok r, mkWorld g (stream w) (output w) (calls w ++ [Urandom n r])).

Definition nacl_crypto_box (message nonce sk pk : bytes) : M bytes :=
  fun w => (Ok (crypto_box message nonce sk pk), record (Box message nonce sk pk) w).

Definition nacl_crypto_box_open (ciphertext nonce sk pk : bytes) : M bytes :=
  fun w =>
    (match crypto_box_open ciphertext nonce sk pk with
     | Some m => Ok m
     | None => Raise CryptoError
     end, record (BoxOpen ciphertext nonce sk pk) w).

Definition nacl_crypto_secretbox (message nonce key : bytes) : M bytes :=
  fun w => (Ok (crypto_secretbox message nonce key), record (Secretbox message nonce key) w).

Definition nacl_crypto_secretbox_open (ciphertext nonce key : bytes) : M bytes :=
  fun w =>
    (match crypto_secretbox_open ciphertext nonce key with
     | Some m => Ok m
     | None => Raise CryptoError
     end, record (SecretboxOpen ciphertext nonce key) w).

(** [io.BytesIO]: [stream = io.BytesIO(input)], [umsgpack.unpack(stream)],
    [output = io.BytesIO()], [output.write(b)], [output.getvalue()]. *)

Definition stream_open (input : bytes) : M unit :=
  fun w => (Ok tt, mkWorld (entropy w) input (output w) (calls w)).

Definition stream_unpack : M obj :=
  fun w =>
    match unpack (stream w) with
    | Some (o, rest) => (Ok o, mkWorld (entropy w) rest (output w) (calls w))
    | None => (Raise UnpackException, w)
    end.

Definition output_open : M unit :=
  fun w => (Ok tt, mkWorld (entropy w) (stream w) [] (calls w)).

Definition output_write (b : bytes) : M unit :=
  fun w => (Ok tt, mkWorld (entropy w) (stream w) (output w ++ b) (calls w)).

Definition output_getvalue : M bytes := fun w => (Ok (output w), w).

(** [umsgpack.unpackb(b)] *)
Definition unpackb (b : bytes) : result obj :=
  match unpack b with
  | Some (o, _) => Ok o
  | None => Raise UnpackException
  end.

(** *** Utility functions *)

Definition random_key : M bytes := os_urandom 32.

Definition random_nonce : M bytes := os_urandom 24.

Definition write_framed_msgpack (o : obj) : M unit :=
  let msgpack_bytes := packb o in
  let frame := packb (OInt (Z.of_nat (length msgpack_bytes))) in
  output_write frame ;;;
  output_write msgpack_bytes.

(** The dictionary comprehension of [_recurse_repr] raises [TypeError]
    when the image of a key is a list, which is not hashable. *)
Fixpoint recurse_repr (o : obj) : result obj :=
  match o with
  | OList l =>
      rbind
        ((fix items (l : list obj) : result (list obj) :=
            match l with
            | [] => Ok []
            | x :: l' =>
                rbind (recurse_repr x) (fun x' =>
                rbind (items l') (fun r => Ok (x' :: r)))
            end) l)
        (fun l' => Ok (OList l'))
  | ODict d =>
      rbind
        ((fix items (d : dict) (acc : dict) : result dict :=
            match d with
            | [] => Ok acc
            | (key, val) :: d' =>
                rbind (recurse_repr key) (fun key' =>
                rbind (recurse_repr val) (fun val' =>
                if hashable key' then items d' (dict_set acc key' val')
                else Raise TypeError))
            end) d [])
        (fun d' => Ok (ODict d'))
  | OBytes b => Ok (OStr (b64encode b))
  | _ => Ok o
  end.

Definition json_repr (o : obj) : result string :=
  rbind (recurse_repr o) (fun r => Ok (json_dumps r)).

(** What [print] writes is not part of the model; whether building the
    text raises is. *)
Definition read_framed_msgpack : M obj :=
  length <- stream_unpack ;;
  o <- stream_unpack ;;
  _ <- lift (json_repr o) ;;
  ret o.

(** *** HMAC objects: [hmac.new], [update], [digest] *)

Record hmac_obj : Type := mkHmac { hmac_key : bytes; hmac_msg : bytes }.

Definition hmac_new (key : bytes) : hmac_obj := mkHmac key [].

Definition hmac_update (h : hmac_obj) (data : bytes) : hmac_obj :=
  mkHmac (hmac_key h) (hmac_msg h ++ data).

Definition hmac_digest (h : hmac_obj) : bytes := hmac_sha512 (hmac_key h) (hmac_msg h).

(** [hmac.compare_digest(a, b)] with [b] a byte string *)
Definition compare_digest (a : obj) (b : bytes) : result bool :=
  rbind (as_bytes a) (fun a' => Ok (bytes_eqb a' b)).

(** *** [encode] *)

Definition per_recipient_map (need_macs : bool) (session_key : bytes)
    (groupnum : nat) (mac_key : bytes) : dict :=
  let m := [(OStr "session_key", OBytes session_key)] in
  if need_macs then
    dict_set (dict_set m (OStr "mac_group") (OInt (Z.of_nat groupnum)))
             (OStr "mac_key") (OBytes mac_key)
  else m.

(** [for recipient in group: ...] *)
Fixpoint encode_recipients (sender_private : bytes) (need_macs : bool)
    (session_key : bytes) (groupnum : nat) (mac_key : bytes)
    (group : list bytes) (recipients_map : dict) : M dict :=
  match group with
  | [] => ret recipients_map
  | recipient :: group' =>
      let per_recipient_msgpack :=
        packb (ODict (per_recipient_map need_macs session_key groupnum mac_key)) in
      nonce <- random_nonce ;;
      boxed_bytes <- nacl_crypto_box per_recipient_msgpack nonce sender_private recipient ;;
      encode_recipients sender_private need_macs session_key groupnum mac_key group'
        (dict_set recipients_map (OBytes recipient) (OBytes (nonce ++ boxed_bytes)))
  end.

(** [for groupnum, group in enumerate(recipient_groups): ...].  When
    [need_macs] is false Python leaves [mac_key] unbound and never reads
    it; the model carries the empty byte string there. *)
Fixpoint encode_groups (sender_private : bytes) (need_macs : bool)
    (session_key : bytes) (groupnum : nat) (recipient_groups : list (list bytes))
    (mac_keys : list bytes) (recipients_map : dict) : M (list bytes * dict) :=
  match recipient_groups with
  | [] => ret (mac_keys, recipients_map)
  | group :: groups' =>
      km <- (if need_macs
             then (mac_key <- random_key ;; ret (mac_key, mac_keys ++ [mac_key]))
             else ret ([], mac_keys)) ;;
      recipients_map' <- encode_recipients sender_private need_macs session_key
                           groupnum (fst km) group recipients_map ;;
      encode_groups sender_private need_macs session_key (groupnum + 1) groups'
        (snd km) recipients_map'
  end.

(** [hmac.new(mac_key, digestmod='sha512')], two [update]s, [digest()[:32]] *)
Definition chunk_mac (mac_key nonce boxed_chunk : bytes) : bytes :=
  let hmac_obj := hmac_new mac_key in
  let hmac_obj := hmac_update hmac_obj nonce in
  let hmac_obj := hmac_update hmac_obj boxed_chunk in
  firstn 32 (hmac_digest hmac_obj).

Definition chunk_map (need_macs : bool) (mac_keys : list bytes)
    (nonce boxed_chunk : bytes) : dict :=
  let m := [(OStr "chunk", OBytes boxed_chunk)] in
  if need_macs then
    dict_set m (OStr "macs")
      (OList (map (fun mac_key => OBytes (chunk_mac mac_key nonce boxed_chunk)) mac_keys))
  else m.

(** [for chunknum, chunk in enumerate(chunks_with_empty(message)): ...] *)
Fixpoint encode_chunks (need_macs : bool) (mac_keys : list bytes)
    (session_key : bytes) (chunknum : N) (chunks : list bytes) : M unit :=
  match chunks with
  | [] => ret tt
  | chunk :: chunks' =>
      nonce <- lift (to_bytes chunknum 24) ;;
      boxed_chunk <- nacl_crypto_secretbox chunk nonce session_key ;;
      write_framed_msgpack (ODict (chunk_map need_macs mac_keys nonce boxed_chunk)) ;;;
      encode_chunks need_macs mac_keys session_key (chunknum + 1) chunks'
  end.

Definition header_map (sender_public : bytes) (recipients_map : dict) : dict :=
  [(OStr "version", OInt 1);
   (OStr "sender", OBytes sender_public);
   (OStr "recipients", ODict recipients_map)].

Definition encode (sender_private : bytes) (recipient_groups : list (list bytes))
    (message : bytes) : M bytes :=
  output_open ;;;
  let sender_public := crypto_scalarmult_base sender_private in
  session_key <- random_key ;;
  let need_macs := 1 <? length recipient_groups in
  km <- encode_groups sender_private need_macs session_key 0 recipient_groups [] [] ;;
  write_framed_msgpack (ODict (header_map sender_public (snd km))) ;;;
  chunks <- lift (match chunks_with_empty message with
                  | Some chunks => Ok chunks
                  | None => Raise FuelExhausted
                  end) ;;
  encode_chunks need_macs (fst km) session_key 0 chunks ;;;
  output_getvalue.

(** *** [decode] *)

(** [if mac_key is not None: ...], the check of one chunk's tag *)
Definition check_mac (mac_key mac_group : obj) (nonce : bytes)
    (chunk_map boxed_chunk : obj) : result unit :=
  match mac_key with
  | ONone => Ok tt
  | _ =>
      rbind (getitem chunk_map (OStr "macs")) (fun macs =>
      rbind (getitem macs mac_group) (fun their_mac =>
      rbind (as_bytes mac_key) (fun key =>
      rbind (as_bytes boxed_chunk) (fun boxed =>
      rbind (compare_digest their_mac (chunk_mac key nonce boxed)) (fun same =>
      if same then Ok tt else Raise (RuntimeError "MAC mismatch!"))))))
  end.

(** [while True: ...], bounded by [fuel] iterations *)
Fixpoint decode_loop (fuel : nat) (session_key mac_key mac_group : obj)
    (chunknum : N) : M unit :=
  match fuel with
  | O => raise FuelExhausted
  | S fuel' =>
      nonce <- lift (to_bytes chunknum 24) ;;
      chunk_map <- read_framed_msgpack ;;
      boxed_chunk <- lift (getitem chunk_map (OStr "chunk")) ;;
      lift (check_mac mac_key mac_group nonce chunk_map boxed_chunk) ;;;
      ciphertext <- lift (as_bytes boxed_chunk) ;;
      key <- lift (as_bytes session_key) ;;
      chunk <- nacl_crypto_secretbox_open ciphertext nonce key ;;
      if bytes_eqb chunk [] then ret tt
      else
        output_write chunk ;;;
        decode_loop fuel' session_key mac_key mac_group (chunknum + 1)
  end.

(** The lines of [decode] before the loop: the header frame and this
    recipient's keys. *)
Definition decode_header (recipient_private : bytes) : M (obj * obj * obj) :=
  header_map <- read_framed_msgpack ;;
  sender_public <- lift (getitem header_map (OStr "sender")) ;;
  let recipient_public := crypto_scalarmult_base recipient_private in
  recipients <- lift (getitem header_map (OStr "recipients")) ;;
  boxed_key_map <- lift (getitem recipients (OBytes recipient_public)) ;;
  boxed <- lift (as_bytes boxed_key_map) ;;
  sender <- lift (as_bytes sender_public) ;;
  key_map_msgpack <- nacl_crypto_box_open (skipn 24 boxed) (firstn 24 boxed)
                       recipient_private sender ;;
  key_map <- lift (unpackb key_map_msgpack) ;;
  _ <- lift (json_repr key_map) ;;
  session_key <- lift (getitem key_map (OStr "session_key")) ;;
  mac_key <- lift (get_method key_map (OStr "mac_key")) ;;
  mac_group <- lift (get_method key_map (OStr "mac_group")) ;;
  ret (session_key, mac_key, mac_group).

Definition decode (input recipient_private : bytes) : M bytes :=
  stream_open input ;;;
  keys <- decode_header recipient_private ;;
  output_open ;;;
  decode_loop (S (length input)) (fst (fst keys)) (snd (fst keys)) (snd keys) 0 ;;;
  output_getvalue.

(** A call starts with empty buffers and an empty record. *)
Definition run {A : Type} (c : M A) (g : Rng) : result A * world :=
  c (mkWorld g [] [] []).

(** *** What [encode] writes, as functions of the keys drawn *)

(** The bytes [write_framed_msgpack] appends for one object. *)
Definition frame (o : obj) : bytes :=
  packb (OInt (Z.of_nat (length (packb o)))) ++ packb o.

(** The same with any serialised value in the place of the length. *)
Definition frame_with (prefix o : obj) : bytes := packb prefix ++ packb o.

(** The nonce of chunk [i]: [i.to_bytes(24, byteorder='big')] when it fits. *)
Definition chunk_nonce (i : N) : bytes := rev (to_bytes_le 24 i).

Fixpoint chunk_frames (need_macs : bool) (mac_keys : list bytes)
    (session_key : bytes) (chunknum : N) (chunks : list bytes) : bytes :=
  match chunks with
  | [] => []
  | chunk :: chunks' =>
      frame (ODict (chunk_map need_macs mac_keys (chunk_nonce chunknum)
                      (crypto_secretbox chunk (chunk_nonce chunknum) session_key)))
      ++ chunk_frames need_macs mac_keys session_key (chunknum + 1) chunks'
  end.

(** The [crypto_secretbox] calls [encode] makes for the chunks. *)
Fixpoint chunk_calls (session_key : bytes) (chunknum : N) (chunks : list bytes)
    : list call :=
  match chunks with
  | [] => []
  | chunk :: chunks' =>
      Secretbox chunk (chunk_nonce chunknum) session_key
      :: chunk_calls session_key (chunknum + 1) chunks'
  end.

(** Chunk numbers that fit the 24 bytes of a nonce. *)
Definition nonce_bound : N := 256 ^ 24.

(** The recipients of the groups, each with the number of its group, in the
    order [encode] visits them. *)
Fixpoint flat_recipients (groupnum : nat) (recipient_groups : list (list bytes))
    : list (nat * bytes) :=
  match recipient_groups with
  | [] => []
  | group :: groups' =>
      map (fun r => (groupnum, r)) group ++ flat_recipients (groupnum + 1) groups'
  end.

(** The sealed payload of a recipient of group [groupnum]. *)
Definition payload (need_macs : bool) (session_key : bytes) (groupnum : nat)
    (mac_key : bytes) : bytes :=
  packb (ODict (per_recipient_map need_macs session_key groupnum mac_key)).

(** [recipients_map[r]] is a 24-byte nonce followed by [message] sealed to [r]
    under that nonce. *)
Definition sealed_to (recipients_map : dict) (sender_private r message : bytes) : Prop :=
  exists nonce,
    length nonce = 24
    /\ dict_lookup recipients_map (OBytes r)
       = Some (OBytes (nonce ++ crypto_box message nonce sender_private r)).

Definition bytes_dict (d : dict) : Prop :=
  Forall (fun kv => is_bytes (fst kv) = true /\ is_bytes (snd kv) = true) d.

(** The two loops inside [recurse_repr], on their own. *)
Fixpoint repr_list (l : list obj) : result (list obj) :=
  match l with
  | [] => Ok []
  | x :: l' =>
      rbind (recurse_repr x) (fun x' =>
      rbind (repr_list l') (fun r => Ok (x' :: r)))
  end.

Fixpoint repr_items (d : dict) (acc : dict) : result dict :=
  match d with
  | [] => Ok acc
  | (key, val) :: d' =>
      rbind (recurse_repr key) (fun key' =>
      rbind (recurse_repr val) (fun val' =>
      if hashable key' then repr_items d' (dict_set acc key' val')
      else Raise TypeError))
  end.

(** The object can be dumped: [json_repr] does not raise. *)
Definition json_ok (o : obj) : Prop := exists text, json_repr o = Ok text.

(** The keys a recipient may hold after opening its payload, against the
    keys [encode] drew. *)
Definition keys_of_group (need_macs : bool) (mac_keys : list bytes)
    (mac_key mac_group : obj) : Prop :=
  if need_macs then
    exists (g : nat) (mk : bytes),
      mac_key = OBytes mk /\ mac_group = OInt (Z.of_nat g)
      /\ nth_error mac_keys g = Some mk
  else mac_key = ONone.

(** The chunk dictionaries [encode] frames, in order. *)
Fixpoint chunk_objs (need_macs : bool) (mac_keys : list bytes)
    (session_key : bytes) (chunknum : N) (chunks : list bytes) : list obj :=
  match chunks with
  | [] => []
  | chunk :: chunks' =>
      ODict (chunk_map need_macs mac_keys (chunk_nonce chunknum)
               (crypto_secretbox chunk (chunk_nonce chunknum) session_key))
      :: chunk_objs need_macs mac_keys session_key (chunknum + 1) chunks'
  end.

(** The messages of the [crypto_secretbox] calls of a record, and the nonces
    of its [crypto_secretbox] and [crypto_secretbox_open] calls. *)
Fixpoint secretbox_messages (cs : list call) : list bytes :=
  match cs with
  | [] => []
  | Secretbox message _ _ :: cs' => message :: secretbox_messages cs'
  | _ :: cs' => secretbox_messages cs'
  end.

Fixpoint secretbox_nonces (cs : list call) : list bytes :=
  match cs with
  | [] => []
  | Secretbox _ nonce _ :: cs' => nonce :: secretbox_nonces cs'
  | _ :: cs' => secretbox_nonces cs'
  end.

Fixpoint secretbox_open_nonces (cs : list call) : list bytes :=
  match cs with
  | [] => []
  | SecretboxOpen _ nonce _ :: cs' => nonce :: secretbox_open_nonces cs'
  | _ :: cs' => secretbox_open_nonces cs'
  end.

(** The nonces of chunks [chunknum], [chunknum + 1], ... ([n] of them). *)
Fixpoint nonces_from (chunknum : N) (n : nat) : list bytes :=
  match n with
  | O => []
  | S n' => chunk_nonce chunknum :: nonces_from (chunknum + 1) n'
  end.

(** One turn of the loop of [decode], between reading the frame and calling
    [crypto_secretbox_open]: the ciphertext and the key that will be passed,
    or the exception raised before the call. *)
Definition open_chunk (session_key mac_key mac_group : obj) (nonce : bytes)
    (chunk_map : obj) : result (bytes * bytes) :=
  rbind (getitem chunk_map (OStr "chunk")) (fun boxed_chunk =>
  rbind (check_mac mac_key mac_group nonce chunk_map boxed_chunk) (fun _ =>
  rbind (as_bytes boxed_chunk) (fun ciphertext =>
  rbind (as_bytes session_key) (fun key => Ok (ciphertext, key))))).

(** The same world with another input stream. *)
Definition with_stream (w : world) (s : bytes) : world :=
  mkWorld (entropy w) s (output w) (calls w).

(** Two streams that are the same sequence of frames up to the values in the
    place of the frame lengths and up to [Q] on the framed objects, followed
    by the same bytes. *)
Inductive stream_rel (Q : obj -> obj -> Prop) : bytes -> bytes -> Prop :=
| stream_rel_rest (rest : bytes) : stream_rel Q rest rest
| stream_rel_frame (p1 p2 o1 o2 : obj) (s1 s2 : bytes) :
    wf_obj p1 = true -> wf_obj p2 = true -> wf_obj o1 = true -> wf_obj o2 = true ->
    Q o1 o2 -> stream_rel Q s1 s2 ->
    stream_rel Q (frame_with p1 o1 ++ s1) (frame_with p2 o2 ++ s2).

Definition world_rel (Q : obj -> obj -> Prop) (w1 w2 : world) : Prop :=
  entropy w1 = entropy w2 /\ output w1 = output w2 /\ calls w1 = calls w2
  /\ stream_rel Q (stream w1) (stream w2).

(** [decode_header] after its frame is read. *)
Definition decode_header_rest (recipient_private : bytes) (header_map : obj)
    : M (obj * obj * obj) :=
  sender_public <- lift (getitem header_map (OStr "sender")) ;;
  let recipient_public := crypto_scalarmult_base recipient_private in
  recipients <- lift (getitem header_map (OStr "recipients")) ;;
  boxed_key_map <- lift (getitem recipients (OBytes recipient_public)) ;;
  boxed <- lift (as_bytes boxed_key_map) ;;
  sender <- lift (as_bytes sender_public) ;;
  key_map_msgpack <- nacl_crypto_box_open (skipn 24 boxed) (firstn 24 boxed)
                       recipient_private sender ;;
  key_map <- lift (unpackb key_map_msgpack) ;;
  _ <- lift (json_repr key_map) ;;
  session_key <- lift (getitem key_map (OStr "session_key")) ;;
  mac_key <- lift (get_method key_map (OStr "mac_key")) ;;
  mac_group <- lift (get_method key_map (OStr "mac_group")) ;;
  ret (session_key, mac_key, mac_group).

(** A computation that neither reads nor replaces the input stream. *)
Definition oblivious {A : Type} (c : M A) : Prop :=
  forall w s, c (with_stream w s) = (fst (c w), with_stream (snd (c w)) s).

(** Dumping the two objects raises for both or for neither, and the same
    exception. *)
Definition same_dump (o1 o2 : obj) : Prop :=
  rbind (json_repr o1) (fun _ => Ok tt) = rbind (json_repr o2) (fun _ => Ok tt).

(** What [decode] reads of a header object, and of a chunk object when the
    recipient's MAC key is [mac_key]. *)
Definition header_compat (o1 o2 : obj) : Prop :=
  same_dump o1 o2
  /\ getitem o1 (OStr "sender") = getitem o2 (OStr "sender")
  /\ getitem o1 (OStr "recipients") = getitem o2 (OStr "recipients").

Definition chunk_compat (mac_key : obj) (o1 o2 : obj) : Prop :=
  same_dump o1 o2
  /\ forall session_key mac_group nonce,
       open_chunk session_key mac_key mac_group nonce o1
       = open_chunk session_key mac_key mac_group nonce o2.

(** A dictionary without its [macs] entry. *)
Definition without_macs (d : dict) : dict :=
  filter (fun kv => negb (obj_eqb (fst kv) (OStr "macs"))) d.

(** A sequence of tags: a list of byte strings. *)
Definition tags_value (o : obj) : Prop := exists tags : list bytes, o = OList (map OBytes tags).

(** Two chunk dictionaries that are the same but for their [macs]: either
    may have none, and those they have are sequences of tags. *)
Definition macs_edit (o1 o2 : obj) : Prop :=
  exists d1 d2,
    o1 = ODict d1 /\ o2 = ODict d2
    /\ without_macs d1 = without_macs d2
    /\ (forall v, In (OStr "macs", v) d1 -> tags_value v)
    /\ (forall v, In (OStr "macs", v) d2 -> tags_value v).

(** The frames of a list of objects, each behind its own prefix. *)
Fixpoint framed (fs : list (obj * obj)) : bytes :=
  match fs with
  | [] => []
  | (prefix, o) :: fs' => frame_with prefix o ++ framed fs'
  end.

(** The dictionary entry can be dumped. *)
Definition entry_ok (kv : obj * obj) : Prop :=
  exists k' v',
    recurse_repr (fst kv) = Ok k' /\ recurse_repr (snd kv) = Ok v' /\ hashable k' = true.

(** What the [crypto_secretbox_open] calls of a record answered: the
    plaintext, or nothing where the call raised. *)
Fixpoint secretbox_open_results (cs : list call) : list (option bytes) :=
  match cs with
  | [] => []
  | SecretboxOpen ciphertext nonce key :: cs' =>
      crypto_secretbox_open ciphertext nonce key :: secretbox_open_results cs'
  | _ :: cs' => secretbox_open_results cs'
  end.

(** No byte string is left in the object, at any depth. *)
Fixpoint no_bytes (o : obj) : bool :=
  match o with
  | OBytes _ => false
  | OList l => forallb no_bytes l
  | ODict d => forallb (fun kv => no_bytes (fst kv) && no_bytes (snd kv)) d
  | _ => true
  end.

(** No dictionary in the object, at any depth below lists and dictionary
    values, has a list or a dictionary for a key. *)
Fixpoint keys_hashable (o : obj) : bool :=
  match o with
  | OList l => forallb keys_hashable l
  | ODict d => forallb (fun kv => hashable (fst kv) && keys_hashable (snd kv)) d
  | _ => true
  end.

(** A dictionary without its [version] entry. *)
Definition without_version (d : dict) : dict :=
  filter (fun kv => negb (obj_eqb (fst kv) (OStr "version"))) d.

(** Two dictionaries that are the same but for [version]: either may have
    none, and the ones they have are integers. *)
Definition version_edit (o1 o2 : obj) : Prop :=
  exists d1 d2,
    o1 = ODict d1 /\ o2 = ODict d2
    /\ without_version d1 = without_version d2
    /\ (forall v, In (OStr "version", v) d1 -> exists z, v = OInt z)
    /\ (forall v, In (OStr "version", v) d2 -> exists z, v = OInt z).

(** What the loop of [decode] reads of a chunk object when the recipient's
    MAC key and group are [mac_key] and [mac_group]. *)
Definition chunk_compat_at (mac_key mac_group : obj) (o1 o2 : obj) : Prop :=
  same_dump o1 o2
  /\ forall session_key nonce,
       open_chunk session_key mac_key mac_group nonce o1
       = open_chunk session_key mac_key mac_group nonce o2.

(** Two chunk dictionaries, each with a sequence of tags under [macs], that
    are the same but for the tags at the places other than [j]; the two
    sequences may differ in length. *)
Definition other_tags_edit (j : nat) (o1 o2 : obj) : Prop :=
  exists d1 d2 tags1 tags2,
    o1 = ODict d1 /\ o2 = ODict d2
    /\ without_macs d1 = without_macs d2
    /\ dict_lookup d1 (OStr "macs") = Some (OList (map OBytes tags1))
    /\ dict_lookup d2 (OStr "macs") = Some (OList (map OBytes tags2))
    /\ nth_error tags1 j = nth_error tags2 j.

(** *** [main]

    [main] prints two values and returns nothing; here it answers the two
    values it prints, the base64 text of the encoded message and the decoded
    message. *)
Definition main : M (string * bytes) :=
  let max_public := crypto_scalarmult_base Hardcoded.max_private in
  let message := Hardcoded.message in
  output <- encode Hardcoded.jack_private [[max_public]] message ;;
  decoded_message <- decode output Hardcoded.max_private ;;
  ret (b64encode output, decoded_message).

(** The nonces of the [crypto_box] calls of a record. *)
Fixpoint box_nonces (cs : list call) : list bytes :=
  match cs with
  | [] => []
  | Box _ nonce _ _ :: cs' => nonce :: box_nonces cs'
  | _ :: cs' => box_nonces cs'
  end.

(** The first [n] frames of a stream as [read_framed_msgpack] takes them (a
    length, which is dropped, then the object), and the bytes after them. *)
Fixpoint read_n_frames (n : nat) (s : bytes) : option (list obj * bytes) :=
  match n with
  | O => Some ([], s)
  | S n' =>
      match unpack s with
      | Some (_, s1) =>
          match unpack s1 with
          | Some (o, s2) =>
              match read_n_frames n' s2 with
              | Some (os, rest) => Some (o :: os, rest)
              | None => None
              end
          | None => None
          end
      | None => None
      end
  end.

(** The [crypto_secretbox_open] calls that open, in order, the chunks that
    [encode] sealed under [session_key], the first of them numbered
    [chunknum]. *)
Fixpoint open_calls (session_key : bytes) (chunknum : N) (chunks : list bytes)
    : list call :=
  match chunks with
  | [] => []
  | chunk :: chunks' =>
      SecretboxOpen (crypto_secretbox chunk (chunk_nonce chunknum) session_key)
        (chunk_nonce chunknum) session_key
      :: open_calls session_key (chunknum + 1) chunks'
  end.


(** What Python can hash: no dictionary, and a list, which stands here for
    the tuple that [umsgpack] makes of an array used as a key, only when its
    items can be hashed. *)
Fixpoint tuple_key (o : obj) : bool :=
  match o with
  | ODict _ => false
  | OList l => forallb tuple_key l
  | _ => true
  end.

(** The values [umsgpack] writes and reads: integers of 64 bits; fewer than
    [2 ^ 32] bytes, characters, items or entries in one value; keys that
    Python can hash; lists and dictionaries nested at most [depth] deep.
    The interpreter's recursion limit lets [umsgpack] and [json_repr] walk
    some hundreds of levels; the theorems that depend on it ask for 100. *)
Fixpoint msgpack_obj (depth : nat) (o : obj) : bool :=
  match o with
  | ONone => true
  | OInt z => ((- 2 ^ 63 <=? z) && (z <? 2 ^ 64))%Z
  | OStr t => (N.of_nat (String.length t) <? 2 ^ 32)%N
  | OBytes b => (N.of_nat (length b) <? 2 ^ 32)%N
  | OList l =>
      match depth with
      | O => false
      | S depth' => (N.of_nat (length l) <? 2 ^ 32)%N && forallb (msgpack_obj depth') l
      end
  | ODict d =>
      match depth with
      | O => false
      | S depth' =>
          (N.of_nat (length d) <? 2 ^ 32)%N
          && forallb (fun kv => tuple_key (fst kv) && msgpack_obj depth' (fst kv)
                                && msgpack_obj depth' (snd kv)) d
      end
  end.

(** Every dictionary in the object, at any depth below its keys, has only
    text and byte strings for keys: what [json.dumps] with [sort_keys] can
    put in order once [json_repr] has turned the byte strings into text. *)
Fixpoint text_keys (o : obj) : bool :=
  match o with
  | OList l => forallb text_keys l
  | ODict d =>
      forallb (fun kv => match fst kv with
                         | OStr _ | OBytes _ => text_keys (snd kv)
                         | _ => false
                         end) d
  | _ => true
  end.

(** The objects that can be framed, read back and printed: a dictionary
    holds a key once, and the object is within what [umsgpack] and
    [json.dumps] handle. *)
Definition framed_obj (o : obj) : bool :=
  wf_obj o && msgpack_obj 100 o && text_keys o.

(** ** Properties of the data model *)

Lemma bytes_eqb_eq (a b : bytes) : bytes_eqb a b = true <-> a = b.
Proof.
  revert b. induction a as [|x a IH]; intros [|y b]; simpl; split; intro H;
    try reflexivity; try discriminate.
  - apply andb_true_iff in H. destruct H as [H1 H2].
    apply Byte.byte_dec_bl in H1. apply IH in H2. congruence.
  - inversion H; subst. apply andb_true_iff. split.
    + apply Byte.byte_dec_lb. reflexivity.
    + apply IH. reflexivity.
Qed.

Lemma bytes_eqb_refl (a : bytes) : bytes_eqb a a = true.
Proof. apply bytes_eqb_eq. reflexivity. Qed.

Lemma bytes_eqb_nil (a : bytes) : bytes_eqb a [] = true <-> a = [].
Proof. apply bytes_eqb_eq. Qed.

Fixpoint obj_ind' (P : obj -> Prop)
    (HNone : P ONone) (HInt : forall z, P (OInt z)) (HStr : forall s, P (OStr s))
    (HBytes : forall b, P (OBytes b))
    (HList : forall l, Forall P l -> P (OList l))
    (HDict : forall d, Forall (fun kv => P (fst kv) /\ P (snd kv)) d -> P (ODict d))
    (o : obj) {struct o} : P o :=
  match o with
  | ONone => HNone
  | OInt z => HInt z
  | OStr s => HStr s
  | OBytes b => HBytes b
  | OList l =>
      HList l
        ((fix go (l : list obj) : Forall P l :=
            match l with
            | [] => Forall_nil P
            | x :: l' =>
                Forall_cons x (obj_ind' P HNone HInt HStr HBytes HList HDict x) (go l')
            end) l)
  | ODict d =>
      HDict d
        ((fix go (d : dict) : Forall (fun kv => P (fst kv) /\ P (snd kv)) d :=
            match d with
            | [] => Forall_nil _
            | kv :: d' =>
                Forall_cons kv
                  (conj (obj_ind' P HNone HInt HStr HBytes HList HDict (fst kv))
                        (obj_ind' P HNone HInt HStr HBytes HList HDict (snd kv)))
                  (go d')
            end) d)
  end.

Lemma obj_eqb_eq (a b : obj) : obj_eqb a b = true <-> a = b.
Proof.
  revert b. induction a using obj_ind'; intros c; destruct c; simpl;
    try (split; intro H0; (discriminate || reflexivity)).
  - rewrite Z.eqb_eq. split; congruence.
  - rewrite String.eqb_eq. split; congruence.
  - rewrite bytes_eqb_eq. split; congruence.
  - revert l0. induction H as [|x l Hx Hl IH]; intros [|y l0];
      try (split; intro H0; (discriminate || reflexivity)).
    rewrite andb_true_iff, Hx. specialize (IH l0). rewrite IH.
    split.
    + intros [-> E]. inversion E. reflexivity.
    + intros E. inversion E. split; reflexivity.
  - revert d0. induction H as [|[k v] d [Hk Hv] Hd IH]; intros [|[k' v'] d0];
      try (split; intro H0; (discriminate || reflexivity)).
    simpl in Hk, Hv. rewrite !andb_true_iff, Hk, Hv. specialize (IH d0). rewrite IH.
    split.
    + intros [[-> ->] E]. inversion E. reflexivity.
    + intros E. inversion E. repeat split; reflexivity.
Qed.

Lemma obj_eqb_refl (a : obj) : obj_eqb a a = true.
Proof. apply obj_eqb_eq. reflexivity. Qed.

Lemma obj_eqb_neq (a b : obj) : obj_eqb a b = false <-> a <> b.
Proof.
  rewrite <- obj_eqb_eq. destruct (obj_eqb a b); split; intro H; congruence.
Qed.

(** ** [chunks_with_empty] *)

Lemma slice_length (b : bytes) (lo hi : nat) :
  length (slice b lo hi) = Nat.min (hi - lo) (length b - lo).
Proof. unfold slice. rewrite length_firstn, length_skipn. reflexivity. Qed.

Lemma slice_skipn (b : bytes) (lo n : nat) :
  slice b lo (lo + n) ++ skipn (lo + n) b = skipn lo b.
Proof.
  unfold slice. replace (lo + n - lo) with n by lia.
  rewrite (Nat.add_comm lo n), <- skipn_skipn. apply firstn_skipn.
Qed.

Lemma chunks_loop_spec (fuel : nat) :
  forall (message : bytes) (chunk_start : nat) (chunks : list bytes),
    length message <= chunk_start + fuel ->
    exists cs,
      chunks_loop fuel message chunk_start chunks = Some (chunks ++ cs)
      /\ concat cs = skipn chunk_start message
      /\ Forall (fun c => 0 < length c <= chunk_size) cs
      /\ (forall i, i < length cs ->
            nth_error cs i
            = Some (slice message (chunk_start + i * chunk_size)
                      (chunk_start + i * chunk_size + chunk_size)))
      /\ length message - chunk_start <= length cs * chunk_size
      /\ length cs * chunk_size < length message - chunk_start + chunk_size.
Proof.
  unfold chunk_size.
  induction fuel as [|fuel IH]; intros message chunk_start chunks Hfuel.
  - exists []. simpl. destruct (Nat.ltb_spec chunk_start (length message)); [lia|].
    rewrite app_nil_r, skipn_all2 by lia.
    repeat split; try constructor; try lia; intros i Hi; inversion Hi.
  - simpl. unfold chunk_size.
    destruct (Nat.ltb_spec chunk_start (length message)) as [Hlt|Hge].
    + destruct (IH message (chunk_start + 100)
                  (chunks ++ [slice message chunk_start (chunk_start + 100)]))
        as (cs & Hcs & Hcat & Hall & Hnth & Hlo & Hhi); [lia|].
      exists (slice message chunk_start (chunk_start + 100) :: cs).
      rewrite Hcs, <- app_assoc. simpl.
      split; [reflexivity|]. split.
      { rewrite Hcat. apply slice_skipn. }
      split.
      { constructor; [|exact Hall]. rewrite slice_length. lia. }
      split.
      { intros [|i] Hi; simpl.
        - rewrite Nat.add_0_r. reflexivity.
        - rewrite Hnth by lia. do 2 f_equal; lia. }
      split; lia.
    + exists []. rewrite app_nil_r, skipn_all2 by lia.
      repeat split; try constructor; simpl; try lia; intros i Hi; inversion Hi.
Qed.

Lemma chunks_with_empty_total (message : bytes) :
  exists cs,
    chunks_with_empty message = Some (cs ++ [[]])
    /\ concat cs = message
    /\ Forall (fun c => 0 < length c <= chunk_size) cs
    /\ (forall i, i < length cs ->
          nth_error cs i = Some (slice message (i * chunk_size) (i * chunk_size + chunk_size)))
    /\ length message <= length cs * chunk_size
    /\ length cs * chunk_size < length message + chunk_size.
Proof.
  destruct (chunks_loop_spec (length message) message 0 [])
    as (cs & Hcs & Hcat & Hall & Hnth & Hlo & Hhi); [lia|].
  exists cs. unfold chunks_with_empty. rewrite Hcs. simpl in *.
  rewrite Nat.sub_0_r in *.
  repeat split; auto.
Qed.

(** ** [int.to_bytes] *)

Lemma to_bytes_le_length (len : nat) (n : N) : length (to_bytes_le len n) = len.
Proof. revert n. induction len; intros n; simpl; [reflexivity | now rewrite IHlen]. Qed.

Lemma byte_of_N_to_N (n : N) : (n < 256)%N -> Byte.to_N (byte_of_N n) = n.
Proof.
  intros H. unfold byte_of_N. destruct (Byte.of_N n) as [b|] eqn:E.
  - apply Byte.to_of_N. exact E.
  - apply Byte.of_N_None_iff in E. lia.
Qed.

Lemma from_bytes_app (a : bytes) (x : byte) :
  from_bytes (a ++ [x]) = (from_bytes a * 256 + Byte.to_N x)%N.
Proof. unfold from_bytes. rewrite fold_left_app. reflexivity. Qed.

Lemma from_bytes_to_bytes_le (len : nat) (n : N) :
  from_bytes (rev (to_bytes_le len n)) = (n mod 256 ^ N.of_nat len)%N.
Proof.
  revert n. induction len as [|len IH]; intros n.
  - simpl. rewrite N.mod_1_r. reflexivity.
  - cbn [to_bytes_le rev]. rewrite from_bytes_app, IH.
    rewrite byte_of_N_to_N by (apply N.mod_upper_bound; lia).
    rewrite Nat2N.inj_succ, N.pow_succ_r by lia.
    rewrite N.Div0.mod_mul_r. lia.
Qed.

Arguments to_bytes : simpl never.

Lemma to_bytes_ok (i : N) :
  (i < nonce_bound)%N -> to_bytes i 24 = Ok (chunk_nonce i).
Proof.
  intros H. unfold to_bytes, chunk_nonce.
  change (256 ^ N.of_nat 24)%N with nonce_bound.
  destruct (N.ltb_spec i nonce_bound); [reflexivity | lia].
Qed.

Lemma to_bytes_overflow (i : N) :
  (nonce_bound <= i)%N -> to_bytes i 24 = Raise OverflowError.
Proof.
  intros H. unfold to_bytes.
  change (256 ^ N.of_nat 24)%N with nonce_bound.
  destruct (N.ltb_spec i nonce_bound); [lia | reflexivity].
Qed.

Lemma chunk_nonce_length (i : N) : length (chunk_nonce i) = 24.
Proof. unfold chunk_nonce. rewrite length_rev. apply to_bytes_le_length. Qed.

Lemma from_bytes_chunk_nonce (i : N) :
  (i < nonce_bound)%N -> from_bytes (chunk_nonce i) = i.
Proof.
  intros H. unfold chunk_nonce. rewrite from_bytes_to_bytes_le.
  change (256 ^ N.of_nat 24)%N with nonce_bound. apply N.mod_small. exact H.
Qed.

Lemma valid_bytes_nonce_bound (b : bytes) (i : N) :
  valid_bytes b -> (i <= N.of_nat (length b) + 1)%N -> (i < nonce_bound)%N.
Proof.
  unfold valid_bytes, PY_SSIZE_T_MAX, nonce_bound. intros H1 H2.
  eapply N.le_lt_trans; [exact H2|].
  eapply N.le_lt_trans; [apply N.add_le_mono_r; exact H1|].
  vm_compute. reflexivity.
Qed.

(** ** The writing side *)

Ltac munfold :=
  unfold bind, ret, raise, lift, output_write, output_open, output_getvalue,
    stream_open, nacl_crypto_secretbox, nacl_crypto_secretbox_open,
    nacl_crypto_box, nacl_crypto_box_open, record; simpl.

Lemma write_framed_msgpack_spec (o : obj) (w : world) :
  write_framed_msgpack o w
  = (Ok tt, mkWorld (entropy w) (stream w) (output w ++ frame o) (calls w)).
Proof.
  unfold write_framed_msgpack, frame. munfold. rewrite <- app_assoc. reflexivity.
Qed.

Lemma encode_chunks_spec (need_macs : bool) (mac_keys : list bytes) (session_key : bytes) :
  forall (chunks : list bytes) (chunknum : N) (w : world),
    (chunknum + N.of_nat (length chunks) <= nonce_bound)%N ->
    encode_chunks need_macs mac_keys session_key chunknum chunks w
    = (Ok tt,
       mkWorld (entropy w) (stream w)
         (output w ++ chunk_frames need_macs mac_keys session_key chunknum chunks)
         (calls w ++ chunk_calls session_key chunknum chunks)).
Proof.
  induction chunks as [|chunk chunks IH]; intros chunknum w Hb.
  - simpl. unfold ret. rewrite !app_nil_r. destruct w; reflexivity.
  - cbn [encode_chunks chunk_frames chunk_calls length] in *.
    unfold bind at 1. unfold lift at 1. rewrite to_bytes_ok by lia.
    unfold bind at 1. unfold nacl_crypto_secretbox at 1.
    unfold bind at 1. rewrite write_framed_msgpack_spec.
    rewrite IH by lia. unfold record. simpl.
    rewrite <- !app_assoc. reflexivity.
Qed.

(** ** Dictionaries *)

Lemma dict_lookup_set_same (d : dict) (k v : obj) :
  dict_lookup (dict_set d k v) k = Some v.
Proof.
  induction d as [|[k' v'] d IH]; simpl.
  - rewrite obj_eqb_refl. reflexivity.
  - destruct (obj_eqb k' k) eqn:E; simpl; rewrite E; [reflexivity | exact IH].
Qed.

Lemma dict_lookup_set_other (d : dict) (k v k0 : obj) :
  k <> k0 -> dict_lookup (dict_set d k v) k0 = dict_lookup d k0.
Proof.
  intros Hne. induction d as [|[k' v'] d IH]; simpl.
  - apply obj_eqb_neq in Hne. rewrite Hne. reflexivity.
  - destruct (obj_eqb k' k) eqn:E; simpl.
    + apply obj_eqb_eq in E. subst k'. apply obj_eqb_neq in Hne. rewrite Hne. reflexivity.
    + rewrite IH. reflexivity.
Qed.

Lemma dict_set_keys (d : dict) (k v : obj) :
  map fst (dict_set d k v)
  = if existsb (obj_eqb k) (map fst d) then map fst d else map fst d ++ [k].
Proof.
  induction d as [|[k' v'] d IH]; simpl; [reflexivity|].
  destruct (obj_eqb k' k) eqn:E; simpl.
  - apply obj_eqb_eq in E. subst k'. rewrite obj_eqb_refl. reflexivity.
  - assert (obj_eqb k k' = false) as ->.
    { apply obj_eqb_neq. apply obj_eqb_neq in E. congruence. }
    simpl. rewrite IH. destruct (existsb (obj_eqb k) (map fst d)); reflexivity.
Qed.

Lemma existsb_obj_eqb_false (k : obj) (ks : list obj) :
  existsb (obj_eqb k) ks = false <-> ~ In k ks.
Proof.
  split.
  - intros H Hin. assert (existsb (obj_eqb k) ks = true); [|congruence].
    apply existsb_exists. exists k. split; [exact Hin | apply obj_eqb_refl].
  - intros H. destruct (existsb (obj_eqb k) ks) eqn:E; [|reflexivity].
    apply existsb_exists in E. destruct E as (x & Hx & Ex).
    apply obj_eqb_eq in Ex. subst x. contradiction.
Qed.

Lemma unique_keys_NoDup (ks : list obj) : unique_keys ks = true <-> NoDup ks.
Proof.
  induction ks as [|k ks IH]; simpl.
  - split; [constructor | reflexivity].
  - rewrite andb_true_iff, negb_true_iff, existsb_obj_eqb_false, IH. split.
    + intros [H1 H2]. constructor; assumption.
    + intros H. inversion H. split; assumption.
Qed.

Lemma dict_set_unique (d : dict) (k v : obj) :
  unique_keys (map fst d) = true -> unique_keys (map fst (dict_set d k v)) = true.
Proof.
  rewrite !unique_keys_NoDup, dict_set_keys. intros H.
  destruct (existsb (obj_eqb k) (map fst d)) eqn:E; [exact H|].
  apply existsb_obj_eqb_false in E.
  apply NoDup_app; [exact H | repeat constructor; intros [] | ].
  intros x Hx [Hk|[]]. subst x. contradiction.
Qed.

Lemma dict_set_bytes (d : dict) (k v : bytes) :
  bytes_dict d -> bytes_dict (dict_set d (OBytes k) (OBytes v)).
Proof.
  unfold bytes_dict. induction d as [|[k' v'] d IH]; simpl; intros H.
  - repeat constructor.
  - inversion H as [|? ? [H1 H2] H3]; subst. simpl in *.
    destruct (obj_eqb k' (OBytes k)); constructor; simpl; auto.
Qed.

Lemma dict_lookup_in (d : dict) (k v : obj) :
  dict_lookup d k = Some v -> In (k, v) d.
Proof.
  induction d as [|[k' v'] d IH]; simpl; [discriminate|].
  destruct (obj_eqb k' k) eqn:E.
  - apply obj_eqb_eq in E. intros H. inversion H. subst. left. reflexivity.
  - intros H. right. apply IH. exact H.
Qed.

(** ** The laws of the collaborators *)

(** [os.urandom(n)] answers [n] bytes. *)
Hypothesis urandom_length : forall g n, length (fst (urandom g n)) = n.

(** A box sealed by [a] to the public key of [b] opens with the private key
    of [b] and the public key of [a], under the same nonce. *)
Hypothesis crypto_box_open_box :
  forall message nonce a b,
    crypto_box_open (crypto_box message nonce a (crypto_scalarmult_base b)) nonce b
      (crypto_scalarmult_base a) = Some message.

Hypothesis crypto_secretbox_open_secretbox :
  forall message nonce key,
    crypto_secretbox_open (crypto_secretbox message nonce key) nonce key = Some message.

(** An HMAC-SHA-512 digest has 64 bytes. *)
Hypothesis hmac_sha512_length : forall key data, length (hmac_sha512 key data) = 64.

(** [umsgpack] reads back what it wrote, and leaves what follows. *)
Hypothesis unpack_packb :
  forall o rest, wf_obj o = true -> unpack (packb o ++ rest) = Some (o, rest).

(** [umsgpack.unpack] reads a non-empty prefix of the stream and nothing of
    what follows it. *)
Hypothesis unpack_prefix :
  forall s o rest,
    unpack s = Some (o, rest) ->
    exists pre,
      pre <> [] /\ s = pre ++ rest
      /\ forall rest', unpack (pre ++ rest') = Some (o, rest').

(** ** The header loop of [encode] *)

Lemma urandom_outputs_app (n : nat) (a b : list call) :
  urandom_outputs n (a ++ b) = urandom_outputs n a ++ urandom_outputs n b.
Proof.
  induction a as [|c a IH]; simpl; [reflexivity|].
  destruct c; try exact IH. destruct (Nat.eqb n0 n); simpl; rewrite IH; reflexivity.
Qed.

Lemma encode_recipients_spec (sender_private : bytes) (need_macs : bool)
    (session_key : bytes) (groupnum : nat) (mac_key : bytes) :
  forall (group : list bytes) (recipients_map : dict) (w : world),
    exists recipients_map' g' cs,
      encode_recipients sender_private need_macs session_key groupnum mac_key group
        recipients_map w
      = (Ok recipients_map', mkWorld g' (stream w) (output w) (calls w ++ cs))
      /\ urandom_outputs 32 cs = []
      /\ Forall2 (fun c r => exists nonce,
                    length nonce = 24
                    /\ c = Box (payload need_macs session_key groupnum mac_key) nonce
                             sender_private r)
           (filter is_box cs) group
      /\ filter is_secretbox cs = []
      /\ (forall r, In r group ->
            sealed_to recipients_map' sender_private r
              (payload need_macs session_key groupnum mac_key))
      /\ (forall k, (forall r, In r group -> k <> OBytes r) ->
            dict_lookup recipients_map' k = dict_lookup recipients_map k)
      /\ (bytes_dict recipients_map -> bytes_dict recipients_map')
      /\ (unique_keys (map fst recipients_map) = true ->
          unique_keys (map fst recipients_map') = true).
Proof.
  induction group as [|r group IH]; intros recipients_map w.
  - exists recipients_map, (entropy w), []. simpl. unfold ret.
    rewrite app_nil_r. destruct w; simpl.
    repeat split; auto. intros r [].
  - cbn [encode_recipients]. unfold bind at 1.
    unfold random_nonce, os_urandom.
    pose proof (urandom_length (entropy w) 24) as Hlen.
    destruct (urandom (entropy w) 24) as [nonce g1]. simpl in Hlen.
    unfold bind at 1. unfold nacl_crypto_box at 1. unfold record. cbn [entropy stream output calls].
    set (boxed := crypto_box _ nonce sender_private r).
    set (rm1 := dict_set recipients_map (OBytes r) (OBytes (nonce ++ boxed))).
    destruct (IH rm1 (mkWorld g1 (stream w) (output w)
                        ((calls w ++ [Urandom 24 nonce])
                         ++ [Box (payload need_macs session_key groupnum mac_key)
                               nonce sender_private r])))
      as (rm' & g' & cs & Hrun & Hur & Hbox & Hsb & Hseal & Hother & Hbytes & Huniq).
    cbn [entropy stream output calls] in Hrun.
    exists rm', g',
      ([Urandom 24 nonce; Box (payload need_macs session_key groupnum mac_key)
                            nonce sender_private r] ++ cs).
    split.
    { unfold payload in *. rewrite Hrun. rewrite <- !app_assoc. reflexivity. }
    split; [simpl; exact Hur|].
    split.
    { simpl. constructor; [|exact Hbox]. exists nonce. split; [exact Hlen | reflexivity]. }
    split; [simpl; exact Hsb|].
    split.
    { intros r0 Hin.
      destruct (in_dec (list_eq_dec Byte.byte_eq_dec) r0 group) as [Hg|Hg].
      - apply Hseal. exact Hg.
      - destruct Hin as [->|Hin]; [|contradiction].
        exists nonce. split; [exact Hlen|].
        rewrite Hother.
        + unfold rm1. rewrite dict_lookup_set_same. reflexivity.
        + intros r1 Hr1 E. inversion E. subst r1. contradiction. }
    split.
    { intros k Hk. rewrite Hother.
      - unfold rm1. apply dict_lookup_set_other. intros E. apply (Hk r); [left; reflexivity|].
        symmetry. exact E.
      - intros r1 Hr1. apply Hk. right. exact Hr1. }
    split.
    { intros Hb. apply Hbytes. unfold rm1. apply dict_set_bytes. exact Hb. }
    { intros Hu. apply Huniq. unfold rm1. apply dict_set_unique. exact Hu. }
Qed.

Lemma Forall2_map_right {A B C : Type} (R : A -> C -> Prop) (f : B -> C)
    (l : list A) (l' : list B) :
  Forall2 (fun a b => R a (f b)) l l' -> Forall2 R l (map f l').
Proof. induction 1; simpl; constructor; assumption. Qed.

Lemma nth_nil_bytes (n : nat) : nth n (@nil bytes) [] = [].
Proof. destruct n; reflexivity. Qed.

Lemma encode_groups_spec (sender_private : bytes) (need_macs : bool) (session_key : bytes) :
  forall (recipient_groups : list (list bytes)) (groupnum : nat)
         (mac_keys : list bytes) (recipients_map : dict) (w : world),
    length mac_keys = (if need_macs then groupnum else 0) ->
    exists new_keys recipients_map' g' cs,
      encode_groups sender_private need_macs session_key groupnum recipient_groups
        mac_keys recipients_map w
      = (Ok (mac_keys ++ new_keys, recipients_map'),
         mkWorld g' (stream w) (output w) (calls w ++ cs))
      /\ urandom_outputs 32 cs = new_keys
      /\ length new_keys = (if need_macs then length recipient_groups else 0)
      /\ Forall (fun k => length k = 32) new_keys
      /\ Forall2 (fun c gr => exists nonce,
                    length nonce = 24
                    /\ c = Box (payload need_macs session_key (fst gr)
                                  (nth (fst gr) (mac_keys ++ new_keys) []))
                             nonce sender_private (snd gr))
           (filter is_box cs) (flat_recipients groupnum recipient_groups)
      /\ filter is_secretbox cs = []
      /\ (forall j group r,
            nth_error recipient_groups j = Some group -> In r group ->
            (forall j' group', j < j' -> nth_error recipient_groups j' = Some group' ->
                               ~ In r group') ->
            sealed_to recipients_map' sender_private r
              (payload need_macs session_key (groupnum + j)
                 (nth (groupnum + j) (mac_keys ++ new_keys) [])))
      /\ (forall k, (forall group r, In group recipient_groups -> In r group -> k <> OBytes r) ->
            dict_lookup recipients_map' k = dict_lookup recipients_map k)
      /\ (bytes_dict recipients_map -> bytes_dict recipients_map')
      /\ (unique_keys (map fst recipients_map) = true ->
          unique_keys (map fst recipients_map') = true).
Proof.
  induction recipient_groups as [|group groups IH];
    intros groupnum mac_keys recipients_map w Hlen.
  - exists [], recipients_map, (entropy w), []. simpl. unfold ret.
    rewrite !app_nil_r. destruct w; simpl.
    repeat split; auto; try constructor.
    + destruct need_macs; reflexivity.
    + intros j group r Hj. destruct j; discriminate.
  - cbn [encode_groups]. unfold bind at 1.
    (* the key of this group *)
    assert (exists mk new1 w1 c1,
               (if need_macs
                then bind random_key (fun mac_key => ret (mac_key, mac_keys ++ [mac_key]))
                else ret ([], mac_keys)) w
               = (Ok (mk, mac_keys ++ new1),
                  mkWorld (entropy w1) (stream w) (output w) (calls w ++ c1))
               /\ stream w1 = stream w /\ output w1 = output w
               /\ urandom_outputs 32 c1 = new1
               /\ filter is_box c1 = [] /\ filter is_secretbox c1 = []
               /\ Forall (fun k => length k = 32) new1
               /\ (if need_macs then new1 = [mk] else new1 = [] /\ mk = []))
      as (mk & new1 & w1 & c1 & Hkey & _ & _ & Hur1 & Hb1 & Hs1 & Hl1 & Hnew1).
    { destruct need_macs.
      - unfold bind, random_key, os_urandom, ret.
        pose proof (urandom_length (entropy w) 32) as Hl.
        destruct (urandom (entropy w) 32) as [mk g1]. simpl in Hl.
        exists mk, [mk], (mkWorld g1 (stream w) (output w) (calls w)), [Urandom 32 mk].
        simpl. repeat split; auto.
      - exists [], [], w, []. unfold ret. rewrite !app_nil_r. destruct w; simpl.
        repeat split; auto. }
    rewrite Hkey. cbn [fst snd].
    unfold bind at 1.
    destruct (encode_recipients_spec sender_private need_macs session_key groupnum mk
                group recipients_map
                (mkWorld (entropy w1) (stream w) (output w) (calls w ++ c1)))
      as (rm1 & g2 & c2 & Hrec & Hur2 & Hb2 & Hs2 & Hseal2 & Hoth2 & Hby2 & Hun2).
    rewrite Hrec. cbn [stream output calls].
    destruct (IH (groupnum + 1) (mac_keys ++ new1) rm1
                (mkWorld g2 (stream w) (output w) ((calls w ++ c1) ++ c2)))
      as (new3 & rm' & g' & c3 & Hrun & Hur3 & Hlen3 & Hl3 & Hb3 & Hs3 & Hseal3 & Hoth3
          & Hby3 & Hun3).
    { rewrite length_app. destruct need_macs.
      - rewrite Hnew1 in *. simpl. lia.
      - destruct Hnew1 as [-> _]. simpl. lia. }
    cbn [stream output calls] in Hrun.
    exists (new1 ++ new3), rm', g', (c1 ++ c2 ++ c3).
    assert (Hmk : mk = nth groupnum (mac_keys ++ new1 ++ new3) []).
    { destruct need_macs.
      - rewrite Hnew1 in *. rewrite app_nth2 by lia. rewrite Hlen, Nat.sub_diag. reflexivity.
      - destruct Hnew1 as [-> ->]. destruct mac_keys; [|discriminate].
        destruct new3; [|discriminate]. symmetry. apply nth_nil_bytes. }
    split.
    { rewrite Hrun. rewrite <- !app_assoc. reflexivity. }
    split.
    { rewrite !urandom_outputs_app, Hur1, Hur2, Hur3. reflexivity. }
    split.
    { rewrite length_app, Hlen3. destruct need_macs.
      - rewrite Hnew1 in *. reflexivity.
      - destruct Hnew1 as [-> _]. reflexivity. }
    split.
    { apply Forall_app. split; assumption. }
    split.
    { rewrite !filter_app, Hb1. simpl. apply Forall2_app.
      - apply Forall2_map_right. simpl. rewrite <- Hmk. exact Hb2.
      - rewrite <- app_assoc in Hb3. exact Hb3. }
    split.
    { rewrite !filter_app, Hs1, Hs2, Hs3. reflexivity. }
    split.
    { intros j grp r Hj Hin Hlater. destruct j as [|j].
      - simpl in Hj. inversion Hj. subst grp.
        rewrite Nat.add_0_r, <- Hmk.
        destruct (Hseal2 r Hin) as (nonce & Hn & Hlook).
        exists nonce. split; [exact Hn|]. rewrite Hoth3; [exact Hlook|].
        intros grp' r' Hg' Hr' E. inversion E. subst r'.
        apply In_nth_error in Hg'. destruct Hg' as [j' Hj'].
        apply (Hlater (S j') grp'); [lia | exact Hj' | exact Hr'].
      - simpl in Hj.
        replace (groupnum + S j) with (groupnum + 1 + j) by lia.
        rewrite app_assoc. apply (Hseal3 j grp r Hj Hin).
        intros j' grp' Hlt Hj'. apply (Hlater (S j') grp'); [lia | exact Hj']. }
    split.
    { intros k Hk. rewrite Hoth3, Hoth2.
      - reflexivity.
      - intros r Hr. apply (Hk group r); [left; reflexivity | exact Hr].
      - intros grp r Hg Hr. apply (Hk grp r); [right; exact Hg | exact Hr]. }
    split.
    { intros H. apply Hby3, Hby2, H. }
    { intros H. apply Hun3, Hun2, H. }
Qed.

(** ** [encode] as a whole *)

Lemma chunks_count_bound (message : bytes) (chunks : list bytes) :
  valid_bytes message ->
  chunks_with_empty message = Some chunks ->
  (0 + N.of_nat (length chunks) <= nonce_bound)%N.
Proof.
  intros Hv Hc.
  destruct (chunks_with_empty_total message) as (cs & Hcs & _ & _ & _ & _ & Hhi).
  rewrite Hcs in Hc. inversion Hc. subst chunks.
  apply N.lt_le_incl. apply (valid_bytes_nonce_bound message); [exact Hv|].
  rewrite length_app. simpl. unfold chunk_size in Hhi. lia.
Qed.

Lemma encode_spec (sender_private : bytes) (recipient_groups : list (list bytes))
    (message : bytes) (g : Rng) :
  valid_bytes message ->
  let need_macs := 1 <? length recipient_groups in
  exists session_key mac_keys recipients_map chunks g' cs,
    run (encode sender_private recipient_groups message) g
    = (Ok (frame (ODict (header_map (crypto_scalarmult_base sender_private) recipients_map))
           ++ chunk_frames need_macs mac_keys session_key 0 chunks),
       mkWorld g' []
         (frame (ODict (header_map (crypto_scalarmult_base sender_private) recipients_map))
          ++ chunk_frames need_macs mac_keys session_key 0 chunks)
         (Urandom 32 session_key :: cs ++ chunk_calls session_key 0 chunks))
    /\ chunks_with_empty message = Some chunks
    /\ length session_key = 32
    /\ urandom_outputs 32 cs = mac_keys
    /\ length mac_keys = (if need_macs then length recipient_groups else 0)
    /\ Forall (fun k => length k = 32) mac_keys
    /\ Forall2 (fun c gr => exists nonce,
                  length nonce = 24
                  /\ c = Box (payload need_macs session_key (fst gr) (nth (fst gr) mac_keys []))
                           nonce sender_private (snd gr))
         (filter is_box cs) (flat_recipients 0 recipient_groups)
    /\ filter is_secretbox cs = []
    /\ (forall j group r,
          nth_error recipient_groups j = Some group -> In r group ->
          (forall j' group', j < j' -> nth_error recipient_groups j' = Some group' ->
                             ~ In r group') ->
          sealed_to recipients_map sender_private r
            (payload need_macs session_key j (nth j mac_keys [])))
    /\ (forall k, (forall group r, In group recipient_groups -> In r group -> k <> OBytes r) ->
          dict_lookup recipients_map k = None)
    /\ bytes_dict recipients_map
    /\ unique_keys (map fst recipients_map) = true.
Proof.
  intros Hv need_macs.
  destruct (chunks_with_empty_total message) as (cs0 & Hcs0 & _).
  pose proof (chunks_count_bound message _ Hv Hcs0) as Hbound.
  unfold run, encode. fold need_macs.
  unfold bind at 1. unfold output_open at 1. cbn [entropy stream output calls].
  unfold bind at 1. unfold random_key at 1. unfold os_urandom.
  cbn [entropy stream output calls].
  pose proof (urandom_length g 32) as Hsl.
  destruct (urandom g 32) as [session_key g1]. simpl in Hsl.
  unfold bind at 1.
  destruct (encode_groups_spec sender_private need_macs session_key recipient_groups 0 [] []
              (mkWorld g1 [] [] ([] ++ [Urandom 32 session_key])))
    as (mac_keys & rm & g2 & cs & Hrun & Hur & Hlen & Hl32 & Hbox & Hsb & Hseal & Hoth
        & Hby & Hun).
  { destruct need_macs; reflexivity. }
  cbn [stream output calls] in Hrun. rewrite Hrun. cbn [fst snd app].
  unfold bind at 1. rewrite write_framed_msgpack_spec. cbn [entropy stream output calls].
  unfold bind at 1. unfold lift at 1. rewrite Hcs0.
  unfold bind at 1. rewrite encode_chunks_spec by exact Hbound.
  cbn [entropy stream output calls]. unfold output_getvalue. cbn [output].
  exists session_key, mac_keys, rm, (cs0 ++ [[]]), g2, cs.
  split; [reflexivity|].
  split; [reflexivity|].
  split; [exact Hsl|].
  split; [exact Hur|].
  split; [exact Hlen|].
  split; [exact Hl32|].
  split; [exact Hbox|].
  split; [exact Hsb|].
  split; [exact Hseal|].
  split; [intros k Hk; rewrite Hoth by exact Hk; reflexivity|].
  split; [apply Hby; constructor | apply Hun; reflexivity].
Qed.

(** ** Dumping objects *)

Lemma recurse_repr_list (l : list obj) :
  recurse_repr (OList l) = rbind (repr_list l) (fun l' => Ok (OList l')).
Proof. reflexivity. Qed.

Lemma recurse_repr_dict (d : dict) :
  recurse_repr (ODict d) = rbind (repr_items d []) (fun d' => Ok (ODict d')).
Proof. reflexivity. Qed.

Lemma recurse_repr_str (t : string) : recurse_repr (OStr t) = Ok (OStr t).
Proof. reflexivity. Qed.

Lemma recurse_repr_bytes (b : bytes) : recurse_repr (OBytes b) = Ok (OStr (b64encode b)).
Proof. reflexivity. Qed.

Lemma chunk_map_macs (mac_keys : list bytes) (nonce boxed_chunk : bytes) :
  chunk_map true mac_keys nonce boxed_chunk
  = [(OStr "chunk", OBytes boxed_chunk);
     (OStr "macs",
      OList (map (fun mac_key => OBytes (chunk_mac mac_key nonce boxed_chunk)) mac_keys))].
Proof. reflexivity. Qed.

Lemma chunk_map_plain (mac_keys : list bytes) (nonce boxed_chunk : bytes) :
  chunk_map false mac_keys nonce boxed_chunk = [(OStr "chunk", OBytes boxed_chunk)].
Proof. reflexivity. Qed.

Lemma per_recipient_map_macs (session_key : bytes) (groupnum : nat) (mac_key : bytes) :
  per_recipient_map true session_key groupnum mac_key
  = [(OStr "session_key", OBytes session_key);
     (OStr "mac_group", OInt (Z.of_nat groupnum));
     (OStr "mac_key", OBytes mac_key)].
Proof. reflexivity. Qed.

Lemma per_recipient_map_plain (session_key : bytes) (groupnum : nat) (mac_key : bytes) :
  per_recipient_map false session_key groupnum mac_key
  = [(OStr "session_key", OBytes session_key)].
Proof. reflexivity. Qed.

Lemma repr_list_bytes (l : list obj) :
  Forall (fun x => is_bytes x = true) l -> exists l', repr_list l = Ok l'.
Proof.
  induction 1 as [|x l Hx Hl IH]; simpl.
  - exists []. reflexivity.
  - destruct x; try discriminate. simpl. destruct IH as [l' ->]. simpl. eauto.
Qed.

Lemma repr_items_bytes (d : dict) :
  bytes_dict d -> forall acc, exists d', repr_items d acc = Ok d'.
Proof.
  induction 1 as [|[k v] d [Hk Hv] Hd IH]; intros acc; simpl.
  - exists acc. reflexivity.
  - simpl in Hk, Hv. destruct k; try discriminate. destruct v; try discriminate.
    simpl. apply IH.
Qed.

Lemma json_ok_intro (o r : obj) : recurse_repr o = Ok r -> json_ok o.
Proof. intros H. unfold json_ok, json_repr. rewrite H. simpl. eauto. Qed.

Lemma json_ok_header (sender_public : bytes) (recipients_map : dict) :
  bytes_dict recipients_map -> json_ok (ODict (header_map sender_public recipients_map)).
Proof.
  intros Hb. destruct (repr_items_bytes _ Hb []) as [d' Hd'].
  eapply json_ok_intro. rewrite recurse_repr_dict. unfold header_map.
  cbn [repr_items]. rewrite recurse_repr_dict, Hd'. simpl. reflexivity.
Qed.

Lemma json_ok_per_recipient (need_macs : bool) (session_key : bytes) (groupnum : nat)
    (mac_key : bytes) :
  json_ok (ODict (per_recipient_map need_macs session_key groupnum mac_key)).
Proof.
  destruct need_macs; eapply json_ok_intro; simpl; reflexivity.
Qed.

Lemma json_ok_chunk (need_macs : bool) (mac_keys : list bytes) (nonce boxed_chunk : bytes) :
  json_ok (ODict (chunk_map need_macs mac_keys nonce boxed_chunk)).
Proof.
  destruct need_macs; [|eapply json_ok_intro; simpl; reflexivity].
  destruct (repr_list_bytes
              (map (fun mac_key => OBytes (chunk_mac mac_key nonce boxed_chunk)) mac_keys))
    as [l' Hl'].
  { apply Forall_forall. intros x Hx. apply in_map_iff in Hx.
    destruct Hx as (k & <- & _). reflexivity. }
  eapply json_ok_intro. rewrite recurse_repr_dict, chunk_map_macs.
  cbn [repr_items]. rewrite recurse_repr_str, recurse_repr_bytes, recurse_repr_list, Hl'.
  simpl. reflexivity.
Qed.

(** ** Well-formed objects *)

Lemma wf_bytes_dict (d : dict) :
  bytes_dict d -> unique_keys (map fst d) = true -> wf_obj (ODict d) = true.
Proof.
  intros Hb Hu. simpl. rewrite Hu. simpl.
  apply forallb_forall. intros [k v] Hin.
  unfold bytes_dict in Hb. rewrite Forall_forall in Hb. destruct (Hb _ Hin) as [Hk Hv].
  simpl in *. destruct k; try discriminate. destruct v; try discriminate. reflexivity.
Qed.

Lemma wf_header (sender_public : bytes) (recipients_map : dict) :
  bytes_dict recipients_map -> unique_keys (map fst recipients_map) = true ->
  wf_obj (ODict (header_map sender_public recipients_map)) = true.
Proof.
  intros Hb Hu. pose proof (wf_bytes_dict _ Hb Hu) as Hw.
  unfold header_map. cbn -[wf_obj]. cbn [wf_obj map fst snd forallb hashable unique_keys].
  change (wf_obj (ODict recipients_map)) with
    (unique_keys (map fst recipients_map)
     && forallb (fun kv => hashable (fst kv) && wf_obj (fst kv) && wf_obj (snd kv))
          recipients_map) in *.
  simpl in Hw. rewrite Hw. reflexivity.
Qed.

Lemma wf_per_recipient (need_macs : bool) (session_key : bytes) (groupnum : nat)
    (mac_key : bytes) :
  wf_obj (ODict (per_recipient_map need_macs session_key groupnum mac_key)) = true.
Proof. destruct need_macs; reflexivity. Qed.

Lemma wf_chunk (need_macs : bool) (mac_keys : list bytes) (nonce boxed_chunk : bytes) :
  wf_obj (ODict (chunk_map need_macs mac_keys nonce boxed_chunk)) = true.
Proof.
  destruct need_macs; [|reflexivity].
  unfold chunk_map. simpl. rewrite andb_true_r.
  apply forallb_forall. intros x Hx. apply in_map_iff in Hx.
  destruct Hx as (k & <- & _). reflexivity.
Qed.

Lemma wf_int (z : Z) : wf_obj (OInt z) = true.
Proof. reflexivity. Qed.

(** ** The reading side *)

Lemma packb_nonempty (o : obj) : wf_obj o = true -> packb o <> [].
Proof.
  intros Hwf Hnil.
  pose proof (unpack_packb o (packb ONone ++ []) Hwf) as H1.
  pose proof (unpack_packb o (packb (OInt 0) ++ []) Hwf) as H2.
  rewrite Hnil in H1, H2. simpl in H1, H2.
  rewrite (unpack_packb ONone [] eq_refl) in H1.
  rewrite (unpack_packb (OInt 0) [] eq_refl) in H2.
  inversion H1. inversion H2. congruence.
Qed.

Lemma frame_with_length (p o : obj) :
  wf_obj o = true -> 0 < length (frame_with p o).
Proof.
  intros Hwf. unfold frame_with. rewrite length_app.
  pose proof (packb_nonempty o Hwf). destruct (packb o); [contradiction | simpl; lia].
Qed.

Lemma frame_is_frame_with (o : obj) :
  frame o = frame_with (OInt (Z.of_nat (length (packb o)))) o.
Proof. reflexivity. Qed.

Lemma read_framed_msgpack_frame (p o : obj) (rest : bytes) (w : world) :
  wf_obj p = true -> wf_obj o = true ->
  stream w = frame_with p o ++ rest ->
  read_framed_msgpack w
  = (rbind (json_repr o) (fun _ => Ok o),
     mkWorld (entropy w) rest (output w) (calls w)).
Proof.
  intros Hp Ho Hs. unfold read_framed_msgpack, frame_with in *.
  unfold bind at 1. unfold stream_unpack at 1.
  rewrite Hs, <- app_assoc, (unpack_packb p _ Hp).
  unfold bind at 1. unfold stream_unpack at 1. cbn [entropy stream output calls].
  rewrite (unpack_packb o _ Ho).
  unfold bind, lift, ret. destruct (json_repr o); reflexivity.
Qed.

Lemma read_framed_msgpack_ok (p o : obj) (rest : bytes) (w : world) :
  wf_obj p = true -> wf_obj o = true -> json_ok o ->
  stream w = frame_with p o ++ rest ->
  read_framed_msgpack w = (Ok o, mkWorld (entropy w) rest (output w) (calls w)).
Proof.
  intros Hp Ho [text Hj] Hs. rewrite (read_framed_msgpack_frame p o rest) by assumption.
  rewrite Hj. reflexivity.
Qed.

Lemma seq_index_nat {A : Type} (l : list A) (i : nat) (x : A) :
  nth_error l i = Some x -> seq_index l (Z.of_nat i) = Ok x.
Proof.
  intros H. unfold seq_index.
  assert (i < length l) by (apply nth_error_Some; congruence).
  destruct (Z.ltb_spec (Z.of_nat i) 0); [lia|].
  destruct (Z.leb_spec 0 (Z.of_nat i)); [|lia].
  destruct (Z.ltb_spec (Z.of_nat i) (Z.of_nat (length l))); [|lia].
  simpl. rewrite Nat2Z.id, H. reflexivity.
Qed.

(** The tag of the recipient's own group, as [encode] wrote it, verifies. *)
Lemma check_mac_ok (need_macs : bool) (mac_keys : list bytes) (mac_key mac_group : obj)
    (nonce boxed_chunk : bytes) :
  keys_of_group need_macs mac_keys mac_key mac_group ->
  check_mac mac_key mac_group nonce
    (ODict (chunk_map need_macs mac_keys nonce boxed_chunk)) (OBytes boxed_chunk)
  = Ok tt.
Proof.
  unfold keys_of_group. destruct need_macs.
  - intros (g & mk & -> & -> & Hnth). unfold check_mac.
    rewrite chunk_map_macs. cbn [getitem hashable dict_lookup obj_eqb].
    cbn [String.eqb Ascii.eqb Bool.eqb andb rbind]. cbn [getitem].
    rewrite (seq_index_nat _ g (OBytes (chunk_mac mk nonce boxed_chunk))).
    + cbn [rbind as_bytes]. unfold compare_digest. cbn [as_bytes rbind].
      rewrite bytes_eqb_refl. reflexivity.
    + rewrite nth_error_map, Hnth. reflexivity.
  - intros ->. reflexivity.
Qed.

Lemma getitem_chunk (need_macs : bool) (mac_keys : list bytes) (nonce boxed_chunk : bytes) :
  getitem (ODict (chunk_map need_macs mac_keys nonce boxed_chunk)) (OStr "chunk")
  = Ok (OBytes boxed_chunk).
Proof. destruct need_macs; reflexivity. Qed.

Lemma chunk_frames_app (need_macs : bool) (mac_keys : list bytes) (session_key : bytes) :
  forall (a b : list bytes) (i : N),
    chunk_frames need_macs mac_keys session_key i (a ++ b)
    = chunk_frames need_macs mac_keys session_key i a
      ++ chunk_frames need_macs mac_keys session_key (i + N.of_nat (length a)) b.
Proof.
  induction a as [|c a IH]; intros b i; simpl.
  - rewrite N.add_0_r. reflexivity.
  - rewrite IH, <- app_assoc. do 3 f_equal. lia.
Qed.

(** The loop of [decode] on the chunk frames [encode] wrote. *)
Lemma open_calls_all (session_key : bytes) :
  forall (chunks : list bytes) (i : N),
    Forall (fun c => is_secretbox_open c = true) (open_calls session_key i chunks).
Proof.
  induction chunks as [|c chunks IH]; intros i; simpl; constructor;
    [reflexivity | apply IH].
Qed.

Lemma decode_loop_frames_calls (need_macs : bool) (mac_keys : list bytes) (session_key : bytes)
    (mac_key mac_group : obj) :
  keys_of_group need_macs mac_keys mac_key mac_group ->
  forall (chunks : list bytes) (chunknum : N) (fuel : nat) (rest : bytes) (w : world),
    Forall (fun c => c <> []) chunks ->
    (chunknum + N.of_nat (length chunks) < nonce_bound)%N ->
    stream w
    = chunk_frames need_macs mac_keys session_key chunknum (chunks ++ [[]]) ++ rest ->
    length (stream w) < fuel ->
    decode_loop fuel (OBytes session_key) mac_key mac_group chunknum w
    = (Ok tt,
       mkWorld (entropy w) rest (output w ++ concat chunks)
         (calls w ++ open_calls session_key chunknum (chunks ++ [[]]))).
Proof.
  intros Hkeys.
  assert (Hstep : forall chunk chunknum fuel tail w,
             (chunknum < nonce_bound)%N ->
             stream w
             = frame (ODict (chunk_map need_macs mac_keys (chunk_nonce chunknum)
                               (crypto_secretbox chunk (chunk_nonce chunknum) session_key)))
               ++ tail ->
             decode_loop (S fuel) (OBytes session_key) mac_key mac_group chunknum w
             = let w' := mkWorld (entropy w) tail (output w)
                           (calls w
                            ++ [SecretboxOpen
                                  (crypto_secretbox chunk (chunk_nonce chunknum) session_key)
                                  (chunk_nonce chunknum) session_key]) in
               if bytes_eqb chunk [] then (Ok tt, w')
               else decode_loop fuel (OBytes session_key) mac_key mac_group (chunknum + 1)
                      (mkWorld (entropy w) tail (output w ++ chunk) (calls w'))).
  { intros chunk chunknum fuel tail w Hb Hs.
    cbn [decode_loop]. unfold bind at 1. unfold lift at 1. rewrite to_bytes_ok by exact Hb.
    unfold bind at 1.
    rewrite (read_framed_msgpack_ok _ _ tail w (wf_int _) (wf_chunk _ _ _ _)
               (json_ok_chunk _ _ _ _) Hs).
    unfold bind at 1. unfold lift at 1. rewrite getitem_chunk.
    unfold bind at 1. unfold lift at 1. rewrite (check_mac_ok _ _ _ _ _ _ Hkeys).
    unfold bind at 1. unfold lift at 1. cbn [as_bytes].
    unfold bind at 1. unfold lift at 1. cbn [as_bytes].
    unfold bind at 1. unfold nacl_crypto_secretbox_open at 1.
    rewrite crypto_secretbox_open_secretbox. unfold record. cbn [entropy stream output calls].
    destruct (bytes_eqb chunk []); [reflexivity|].
    unfold bind at 1. unfold output_write at 1. cbn [entropy stream output calls].
    reflexivity. }
  induction chunks as [|chunk chunks IH]; intros chunknum fuel rest w Hne Hb Hs Hfuel.
  - destruct fuel as [|fuel]; [lia|].
    simpl in Hs. rewrite <- app_assoc in Hs. simpl in Hs.
    rewrite (Hstep [] chunknum fuel rest w) by (simpl in Hb; try lia; exact Hs).
    simpl. rewrite app_nil_r. reflexivity.
  - destruct fuel as [|fuel]; [lia|].
    inversion Hne as [|? ? Hc Hne']; subst.
    cbn [app chunk_frames] in Hs. rewrite <- app_assoc in Hs.
    cbn [length] in Hb.
    rewrite (Hstep chunk chunknum fuel _ w) by (try lia; exact Hs).
    cbv zeta. assert (bytes_eqb chunk [] = false) as ->.
    { destruct (bytes_eqb chunk []) eqn:E; [|reflexivity].
      apply bytes_eqb_nil in E. contradiction. }
    rewrite (IH (chunknum + 1)%N fuel rest); [| exact Hne' | | | ].
    + cbn [entropy stream output calls app open_calls concat].
      rewrite <- !app_assoc. reflexivity.
    + lia.
    + cbn [stream]. reflexivity.
    + cbn [stream]. rewrite Hs in Hfuel. rewrite length_app in Hfuel.
      pose proof (frame_with_length
                    (OInt (Z.of_nat (length (packb (ODict (chunk_map need_macs mac_keys
                       (chunk_nonce chunknum)
                       (crypto_secretbox chunk (chunk_nonce chunknum) session_key)))))))
                    _ (wf_chunk need_macs mac_keys (chunk_nonce chunknum)
                         (crypto_secretbox chunk (chunk_nonce chunknum) session_key))) as Hpos.
      rewrite <- frame_is_frame_with in Hpos. lia.
Qed.

Lemma decode_loop_frames (need_macs : bool) (mac_keys : list bytes) (session_key : bytes)
    (mac_key mac_group : obj) :
  keys_of_group need_macs mac_keys mac_key mac_group ->
  forall (chunks : list bytes) (chunknum : N) (fuel : nat) (rest : bytes) (w : world),
    Forall (fun c => c <> []) chunks ->
    (chunknum + N.of_nat (length chunks) < nonce_bound)%N ->
    stream w
    = chunk_frames need_macs mac_keys session_key chunknum (chunks ++ [[]]) ++ rest ->
    length (stream w) < fuel ->
    exists cs,
      decode_loop fuel (OBytes session_key) mac_key mac_group chunknum w
      = (Ok tt,
         mkWorld (entropy w) rest (output w ++ concat chunks) (calls w ++ cs))
      /\ Forall (fun c => is_secretbox_open c = true) cs.
Proof.
  intros Hkeys chunks chunknum fuel rest w Hne Hb Hs Hfuel.
  exists (open_calls session_key chunknum (chunks ++ [[]])).
  split; [|apply open_calls_all].
  exact (decode_loop_frames_calls need_macs mac_keys session_key mac_key mac_group Hkeys
           chunks chunknum fuel rest w Hne Hb Hs Hfuel).
Qed.

Lemma firstn_exact {A : Type} (a b : list A) (n : nat) :
  length a = n -> firstn n (a ++ b) = a.
Proof.
  intros <-. induction a as [|x a IH]; simpl; [reflexivity | now rewrite IH].
Qed.

Lemma skipn_exact {A : Type} (a b : list A) (n : nat) :
  length a = n -> skipn n (a ++ b) = b.
Proof. intros <-. induction a as [|x a IH]; simpl; [reflexivity | exact IH]. Qed.

Lemma unpackb_packb (o : obj) : wf_obj o = true -> unpackb (packb o) = Ok o.
Proof.
  intros Hwf. unfold unpackb. rewrite <- (app_nil_r (packb o)).
  rewrite (unpack_packb o [] Hwf). reflexivity.
Qed.

(** The lines of [decode] before the loop, on the header frame [encode] wrote. *)
Lemma decode_header_frame (sender_private recipient_private : bytes)
    (need_macs : bool) (session_key : bytes) (groupnum : nat) (mac_key : bytes)
    (recipients_map : dict) (rest : bytes) (w : world) :
  bytes_dict recipients_map ->
  unique_keys (map fst recipients_map) = true ->
  sealed_to recipients_map sender_private (crypto_scalarmult_base recipient_private)
    (payload need_macs session_key groupnum mac_key) ->
  stream w
  = frame (ODict (header_map (crypto_scalarmult_base sender_private) recipients_map)) ++ rest ->
  exists c,
    decode_header recipient_private w
    = (Ok (OBytes session_key,
           (if need_macs then OBytes mac_key else ONone),
           (if need_macs then OInt (Z.of_nat groupnum) else ONone)),
       mkWorld (entropy w) rest (output w) (calls w ++ [c])).
Proof.
  intros Hb Hu (nonce & Hn & Hlook) Hs. unfold decode_header.
  unfold bind at 1.
  rewrite (read_framed_msgpack_ok _ _ rest w (wf_int _) (wf_header _ _ Hb Hu)
             (json_ok_header _ _ Hb) Hs).
  unfold bind at 1. unfold lift at 1.
  change (getitem (ODict (header_map (crypto_scalarmult_base sender_private) recipients_map))
            (OStr "sender")) with (@Ok obj (OBytes (crypto_scalarmult_base sender_private))).
  unfold bind at 1. unfold lift at 1.
  change (getitem (ODict (header_map (crypto_scalarmult_base sender_private) recipients_map))
            (OStr "recipients")) with (@Ok obj (ODict recipients_map)).
  unfold bind at 1. unfold lift at 1. cbn [getitem hashable]. rewrite Hlook.
  unfold bind at 1. unfold lift at 1. cbn [as_bytes].
  unfold bind at 1. unfold lift at 1. cbn [as_bytes].
  unfold bind at 1. unfold nacl_crypto_box_open at 1.
  rewrite firstn_exact, skipn_exact by exact Hn.
  rewrite crypto_box_open_box. unfold record. cbn [entropy stream output calls].
  unfold bind at 1. unfold lift at 1. unfold payload.
  rewrite (unpackb_packb _ (wf_per_recipient _ _ _ _)).
  unfold bind at 1. unfold lift at 1.
  destruct (json_ok_per_recipient need_macs session_key groupnum mac_key) as [text ->].
  eexists. destruct need_macs; reflexivity.
Qed.

(** The whole of [decode] on a header frame and chunk frames as [encode]
    writes them, for a recipient whose payload is in the header. *)
Lemma decode_frames (sender_private recipient_private : bytes)
    (need_macs : bool) (session_key : bytes) (groupnum : nat) (mac_keys : list bytes)
    (recipients_map : dict) (chunks : list bytes) (g : Rng) :
  bytes_dict recipients_map ->
  unique_keys (map fst recipients_map) = true ->
  sealed_to recipients_map sender_private (crypto_scalarmult_base recipient_private)
    (payload need_macs session_key groupnum (nth groupnum mac_keys [])) ->
  (need_macs = true -> groupnum < length mac_keys) ->
  Forall (fun c => c <> []) chunks ->
  (N.of_nat (length chunks) < nonce_bound)%N ->
  fst (run (decode
              (frame (ODict (header_map (crypto_scalarmult_base sender_private)
                               recipients_map))
               ++ chunk_frames need_macs mac_keys session_key 0 (chunks ++ [[]]))
              recipient_private) g)
  = Ok (concat chunks).
Proof.
  intros Hb Hu Hseal Hg Hne Hbound. unfold run, decode.
  unfold bind at 1. unfold stream_open at 1. cbn [entropy stream output calls].
  unfold bind at 1.
  edestruct (decode_header_frame sender_private recipient_private need_macs session_key
               groupnum (nth groupnum mac_keys []) recipients_map) as [c Hhdr];
    [exact Hb | exact Hu | exact Hseal | | rewrite Hhdr].
  { cbn [stream]. reflexivity. }
  cbn [entropy stream output calls fst snd].
  unfold bind at 1. unfold output_open at 1. cbn [entropy stream output calls].
  unfold bind at 1.
  edestruct (decode_loop_frames need_macs mac_keys session_key
               (if need_macs then OBytes (nth groupnum mac_keys []) else ONone)
               (if need_macs then OInt (Z.of_nat groupnum) else ONone))
    as (cs & Hloop & _); [ | exact Hne | | | | rewrite Hloop].
  { unfold keys_of_group. destruct need_macs; [|reflexivity].
    exists groupnum, (nth groupnum mac_keys []). repeat split.
    apply nth_error_nth'. apply Hg. reflexivity. }
  { rewrite N.add_0_l. exact Hbound. }
  { cbn [stream]. rewrite app_nil_r. reflexivity. }
  { cbn [stream]. rewrite length_app. lia. }
  reflexivity.
Qed.

(** ** Round trip *)

(** The last group that holds [r]. *)
Lemma last_group (r : bytes) (recipient_groups : list (list bytes)) :
  (exists group, In group recipient_groups /\ In r group) ->
  exists j group,
    nth_error recipient_groups j = Some group /\ In r group
    /\ forall j' group', j < j' -> nth_error recipient_groups j' = Some group' ->
                         ~ In r group'.
Proof.
  induction recipient_groups as [|grp groups IH]; intros (group & Hin & Hr).
  - destruct Hin.
  - assert (Hdec : (exists group', In group' groups /\ In r group')
                   \/ ~ (exists group', In group' groups /\ In r group')).
    { clear. induction groups as [|a groups IHg].
      - right. intros (x & [] & _).
      - destruct (in_dec (list_eq_dec Byte.byte_eq_dec) r a) as [Ha|Ha].
        + left. exists a. split; [left; reflexivity | exact Ha].
        + destruct IHg as [(x & Hx & Hrx)|Hno].
          * left. exists x. split; [right; exact Hx | exact Hrx].
          * right. intros (x & [->|Hx] & Hrx); [contradiction|].
            apply Hno. exists x. split; assumption. }
    destruct Hdec as [Hlater|Hnone].
    + destruct (IH Hlater) as (j & g0 & Hj & Hrj & Hlast).
      exists (S j), g0. repeat split; auto.
      intros [|j'] group' Hlt Hj'; [lia|]. apply (Hlast j' group'); [lia | exact Hj'].
    + destruct Hin as [->|Hin].
      * exists 0, group. repeat split; auto.
        intros [|j'] group' Hlt Hj' Hr'; [lia|]. apply Hnone. exists group'.
        split; [eapply nth_error_In; exact Hj' | exact Hr'].
      * exfalso. apply Hnone. exists group. split; assumption.
Qed.

(** Every recipient of every group reads back the message, with or without
    MACs. *)
Lemma roundtrip (sender_private recipient_private : bytes)
    (recipient_groups : list (list bytes)) (message : bytes) (g g' : Rng) :
  valid_bytes message ->
  (exists group,
      In group recipient_groups /\ In (crypto_scalarmult_base recipient_private) group) ->
  exists out w,
    run (encode sender_private recipient_groups message) g = (Ok out, w)
    /\ fst (run (decode out recipient_private) g') = Ok message.
Proof.
  intros Hv Hin.
  destruct (encode_spec sender_private recipient_groups message g Hv)
    as (session_key & mac_keys & rm & chunks & g1 & cs & Hrun & Hchunks & _ & _ & Hlen
        & _ & _ & _ & Hseal & _ & Hb & Hu).
  destruct (last_group _ _ Hin) as (j & group & Hj & Hr & Hlast).
  destruct (chunks_with_empty_total message) as (cs0 & Hcs0 & Hcat & Hall & _ & _ & Hhi).
  rewrite Hcs0 in Hchunks. inversion Hchunks. subst chunks.
  eexists. eexists. split; [exact Hrun|].
  rewrite <- Hcat.
  apply (decode_frames sender_private recipient_private _ session_key j mac_keys rm cs0 g').
  - exact Hb.
  - exact Hu.
  - apply (Hseal j group); assumption.
  - intros Hnm. rewrite Hlen, Hnm. apply nth_error_Some. congruence.
  - eapply Forall_impl; [|exact Hall]. intros c [Hc _] ->. simpl in Hc. lia.
  - apply (valid_bytes_nonce_bound message); [exact Hv|].
    unfold chunk_size, bytes in *. lia.
Qed.

(** C1.  For every plaintext [P] (a Python byte string, of any length: empty,
    exactly 100 bytes, longer) and the single-group recipient list
    [[r_pub]] with [r_pub] the public key of [r_priv], [encode] returns a
    stream and [decode] of that stream with [r_priv] returns exactly [P]. *)
Theorem C1_roundtrip_single_group (sender_private recipient_private P : bytes)
    (g g' : Rng) :
  valid_bytes P ->
  exists out w,
    run (encode sender_private [[crypto_scalarmult_base recipient_private]] P) g
    = (Ok out, w)
    /\ fst (run (decode out recipient_private) g') = Ok P.
Proof.
  intros Hv. apply roundtrip; [exact Hv|].
  exists [crypto_scalarmult_base recipient_private].
  split; left; reflexivity.
Qed.

(** ** Chunking *)

Lemma chunk_frames_concat (need_macs : bool) (mac_keys : list bytes) (session_key : bytes) :
  forall (chunks : list bytes) (i : N),
    chunk_frames need_macs mac_keys session_key i chunks
    = concat (map frame (chunk_objs need_macs mac_keys session_key i chunks)).
Proof. induction chunks as [|c chunks IH]; intros i; simpl; [|rewrite IH]; reflexivity. Qed.

Lemma chunk_objs_length (need_macs : bool) (mac_keys : list bytes) (session_key : bytes) :
  forall (chunks : list bytes) (i : N),
    length (chunk_objs need_macs mac_keys session_key i chunks) = length chunks.
Proof. induction chunks as [|c chunks IH]; intros i; simpl; [|rewrite IH]; reflexivity. Qed.

Lemma secretbox_messages_app (a b : list call) :
  secretbox_messages (a ++ b) = secretbox_messages a ++ secretbox_messages b.
Proof.
  induction a as [|c a IH]; simpl; [reflexivity|].
  destruct c; simpl; rewrite ?IH; reflexivity.
Qed.

Lemma secretbox_nonces_app (a b : list call) :
  secretbox_nonces (a ++ b) = secretbox_nonces a ++ secretbox_nonces b.
Proof.
  induction a as [|c a IH]; simpl; [reflexivity|].
  destruct c; simpl; rewrite ?IH; reflexivity.
Qed.

Lemma secretbox_messages_none (cs : list call) :
  filter is_secretbox cs = [] -> secretbox_messages cs = [] /\ secretbox_nonces cs = [].
Proof.
  induction cs as [|c cs IH]; simpl; [auto|].
  destruct c; simpl; auto. discriminate.
Qed.

Lemma chunk_calls_messages (session_key : bytes) :
  forall (chunks : list bytes) (i : N),
    secretbox_messages (chunk_calls session_key i chunks) = chunks
    /\ secretbox_nonces (chunk_calls session_key i chunks) = nonces_from i (length chunks).
Proof.
  induction chunks as [|c chunks IH]; intros i; simpl; [auto|].
  destruct (IH (i + 1)%N) as [-> ->]. auto.
Qed.


(** ** MAC keys and tags *)

Lemma chunk_mac_eq (mac_key nonce boxed_chunk : bytes) :
  chunk_mac mac_key nonce boxed_chunk
  = firstn 32 (hmac_sha512 mac_key (nonce ++ boxed_chunk)).
Proof. reflexivity. Qed.

Lemma chunk_mac_length (mac_key nonce boxed_chunk : bytes) :
  length (chunk_mac mac_key nonce boxed_chunk) = 32.
Proof.
  rewrite chunk_mac_eq, length_firstn, hmac_sha512_length. reflexivity.
Qed.

Lemma chunk_calls_other (session_key : bytes) :
  forall (chunks : list bytes) (i : N),
    filter is_box (chunk_calls session_key i chunks) = []
    /\ forall n, urandom_outputs n (chunk_calls session_key i chunks) = [].
Proof.
  induction chunks as [|c chunks IH]; intros i; simpl; [auto|].
  destruct (IH (i + 1)%N) as [H1 H2]. auto.
Qed.

(** ** The loop of [decode] on any stream *)

Lemma decode_loop_step (fuel : nat) (session_key mac_key mac_group : obj)
    (chunknum : N) (w : world) :
  decode_loop (S fuel) session_key mac_key mac_group chunknum w
  = match to_bytes chunknum 24 with
    | Raise e => (Raise e, w)
    | Ok nonce =>
        match read_framed_msgpack w with
        | (Raise e, w1) => (Raise e, w1)
        | (Ok chunk_map, w1) =>
            match open_chunk session_key mac_key mac_group nonce chunk_map with
            | Raise e => (Raise e, w1)
            | Ok (ciphertext, key) =>
                let w2 := record (SecretboxOpen ciphertext nonce key) w1 in
                match crypto_secretbox_open ciphertext nonce key with
                | None => (Raise CryptoError, w2)
                | Some chunk =>
                    if bytes_eqb chunk [] then (Ok tt, w2)
                    else decode_loop fuel session_key mac_key mac_group (chunknum + 1)
                           (mkWorld (entropy w2) (stream w2) (output w2 ++ chunk) (calls w2))
                end
            end
        end
    end.
Proof.
  cbn [decode_loop]. unfold bind at 1. unfold lift at 1.
  destruct (to_bytes chunknum 24) as [nonce|e]; [|reflexivity].
  unfold bind at 1. destruct (read_framed_msgpack w) as [[cm|e] w1]; [|reflexivity].
  unfold open_chunk.
  unfold bind at 1. unfold lift at 1.
  destruct (getitem cm (OStr "chunk")) as [boxed|e]; [|reflexivity]. cbn [rbind].
  unfold bind at 1. unfold lift at 1.
  destruct (check_mac mac_key mac_group nonce cm boxed) as [[]|e]; [|reflexivity]. cbn [rbind].
  unfold bind at 1. unfold lift at 1.
  destruct (as_bytes boxed) as [ct|e]; [|reflexivity]. cbn [rbind].
  unfold bind at 1. unfold lift at 1.
  destruct (as_bytes session_key) as [key|e]; [|reflexivity]. cbn [rbind].
  unfold bind at 1. unfold nacl_crypto_secretbox_open at 1.
  destruct (crypto_secretbox_open ct nonce key) as [chunk|]; [|reflexivity].
  cbv zeta. destruct (bytes_eqb chunk []); [reflexivity|].
  unfold bind at 1. unfold output_write at 1. reflexivity.
Qed.

Lemma to_bytes_inv (i : N) (nonce : bytes) :
  to_bytes i 24 = Ok nonce -> nonce = chunk_nonce i /\ (i < nonce_bound)%N.
Proof.
  intros H. destruct (N.lt_ge_cases i nonce_bound) as [Hlt|Hge].
  - rewrite to_bytes_ok in H by exact Hlt. inversion H. auto.
  - rewrite to_bytes_overflow in H by exact Hge. discriminate.
Qed.

(** A frame read changes nothing in the world but the stream. *)
Lemma read_framed_msgpack_world (w w1 : world) (r : result obj) :
  read_framed_msgpack w = (r, w1) ->
  entropy w1 = entropy w /\ output w1 = output w /\ calls w1 = calls w.
Proof.
  unfold read_framed_msgpack. unfold bind at 1. unfold stream_unpack at 1.
  destruct (unpack (stream w)) as [[len s1]|].
  2:{ intros H. inversion H. subst. auto. }
  unfold bind at 1. unfold stream_unpack at 1. cbn [entropy stream output calls].
  destruct (unpack s1) as [[o s2]|].
  2:{ intros H. inversion H. subst. auto. }
  unfold bind, lift, ret. destruct (json_repr o); intros H; inversion H; subst; auto.
Qed.

(** What a frame read takes of the stream: a non-empty prefix, and what it
    answers depends on that prefix alone. *)
Lemma read_framed_msgpack_inv (w w1 : world) (r : result obj) :
  read_framed_msgpack w = (r, w1) ->
  entropy w1 = entropy w /\ output w1 = output w /\ calls w1 = calls w
  /\ length (stream w1) <= length (stream w)
  /\ (forall o, r = Ok o ->
        exists pre,
          pre <> [] /\ stream w = pre ++ stream w1
          /\ forall w', read_framed_msgpack (with_stream w' (pre ++ stream w'))
                        = (Ok o, w')).
Proof.
  unfold read_framed_msgpack. unfold bind at 1. unfold stream_unpack at 1.
  destruct (unpack (stream w)) as [[len s1]|] eqn:E1.
  2:{ intros H. inversion H. subst. repeat split; auto. intros o Ho. discriminate. }
  unfold bind at 1. unfold stream_unpack at 1. cbn [entropy stream output calls].
  destruct (unpack s1) as [[o s2]|] eqn:E2.
  2:{ intros H. inversion H. subst. cbn [entropy stream output calls].
      destruct (unpack_prefix _ _ _ E1) as (pre1 & _ & Hs1 & _).
      repeat split; auto.
      - rewrite Hs1, length_app. lia.
      - intros o Ho. discriminate. }
  destruct (unpack_prefix _ _ _ E1) as (pre1 & Hne1 & Hs1 & Hp1).
  destruct (unpack_prefix _ _ _ E2) as (pre2 & Hne2 & Hs2 & Hp2).
  unfold bind, lift, ret. cbn [entropy stream output calls].
  intros H.
  assert (Hw1 : w1 = mkWorld (entropy w) s2 (output w) (calls w))
    by (destruct (json_repr o); inversion H; reflexivity).
  subst w1. cbn [entropy stream output calls].
  repeat split; auto.
  - rewrite Hs1, Hs2, !length_app. lia.
  - intros o' Ho'. exists (pre1 ++ pre2).
    split; [destruct pre1; [contradiction | discriminate]|].
    split; [rewrite Hs1, Hs2, app_assoc; reflexivity|].
    intros w'. unfold with_stream, stream_unpack. cbn [entropy stream output calls].
    rewrite <- app_assoc, Hp1. cbn [entropy stream output calls]. rewrite Hp2.
    cbn [entropy stream output calls]. rewrite Ho' in H.
    destruct (json_repr o); inversion H; subst.
    destruct w'; reflexivity.
Qed.

Lemma read_framed_msgpack_consumes (w w1 : world) (o : obj) :
  read_framed_msgpack w = (Ok o, w1) -> length (stream w1) < length (stream w).
Proof.
  intros H. destruct (read_framed_msgpack_inv _ _ _ H) as (_ & _ & _ & _ & Hpre).
  destruct (Hpre o eq_refl) as (pre & Hne & Hs & _).
  rewrite Hs, length_app. destruct pre; [contradiction | simpl; lia].
Qed.

(** The bound on the turns of the loop is never reached: every turn reads a
    frame, and a frame is at least one byte of the input. *)
Lemma decode_loop_fuel (session_key mac_key mac_group : obj) :
  forall (f1 f2 : nat) (chunknum : N) (w : world),
    length (stream w) < f1 -> length (stream w) < f2 ->
    decode_loop f1 session_key mac_key mac_group chunknum w
    = decode_loop f2 session_key mac_key mac_group chunknum w.
Proof.
  induction f1 as [|f1 IH]; intros f2 chunknum w H1 H2; [lia|].
  destruct f2 as [|f2]; [lia|].
  rewrite !decode_loop_step.
  destruct (to_bytes chunknum 24) as [nonce|e]; [|reflexivity].
  destruct (read_framed_msgpack w) as [[cm|e] w1] eqn:Er; [|reflexivity].
  pose proof (read_framed_msgpack_consumes _ _ _ Er) as Hc.
  destruct (open_chunk session_key mac_key mac_group nonce cm) as [[ct key]|e]; [|reflexivity].
  cbv zeta. destruct (crypto_secretbox_open ct nonce key) as [chunk|]; [|reflexivity].
  destruct (bytes_eqb chunk []); [reflexivity|].
  apply IH; unfold record; cbn [stream]; lia.
Qed.

Ltac exn_cases :=
  repeat match goal with
         | |- context [match ?x with _ => _ end] => destruct x
         | |- context [if ?x then _ else _] => destruct x
         end;
  simpl; try discriminate;
  let H := fresh in intros H; inversion H; subst; congruence.

Lemma seq_index_exn {A : Type} (l : list A) (i : Z) (e : exn) :
  seq_index l i = Raise e -> e = IndexError.
Proof.
  unfold seq_index.
  destruct ((0 <=? (if (i <? 0)%Z then (i + Z.of_nat (length l))%Z else i))%Z
            && ((if (i <? 0)%Z then (i + Z.of_nat (length l))%Z else i)
                <? Z.of_nat (length l))%Z).
  - destruct (nth_error l _); [discriminate|]. intros H. inversion H. reflexivity.
  - intros H. inversion H. reflexivity.
Qed.

Lemma getitem_exn (o k : obj) (e : exn) : getitem o k = Raise e -> e <> FuelExhausted.
Proof.
  destruct o; simpl.
  - intros H. inversion H. congruence.
  - intros H. inversion H. congruence.
  - destruct k; try (intros H; inversion H; congruence).
    destruct (seq_index (list_ascii_of_string s) z) eqn:E; simpl; [discriminate|].
    intros H. inversion H. subst. apply seq_index_exn in E. congruence.
  - destruct k; try (intros H; inversion H; congruence).
    destruct (seq_index b z) eqn:E; simpl; [discriminate|].
    intros H. inversion H. subst. apply seq_index_exn in E. congruence.
  - destruct k; try (intros H; inversion H; congruence).
    intros H. apply seq_index_exn in H. congruence.
  - destruct (hashable k); [|intros H; inversion H; congruence].
    destruct (dict_lookup d k); [discriminate|]. intros H. inversion H. congruence.
Qed.

Lemma as_bytes_exn (o : obj) (e : exn) : as_bytes o = Raise e -> e <> FuelExhausted.
Proof. unfold as_bytes. exn_cases. Qed.

Lemma check_mac_exn (mac_key mac_group : obj) (nonce : bytes) (cm boxed : obj) (e : exn) :
  check_mac mac_key mac_group nonce cm boxed = Raise e -> e <> FuelExhausted.
Proof.
  unfold check_mac, compare_digest.
  destruct mac_key; try discriminate;
    (destruct (getitem cm (OStr "macs")) as [macs|e1] eqn:E1; cbn [rbind];
     [|intros H; inversion H; subst; eapply getitem_exn; exact E1]);
    (destruct (getitem macs mac_group) as [tm|e2] eqn:E2; cbn [rbind];
     [|intros H; inversion H; subst; eapply getitem_exn; exact E2]);
    cbn [as_bytes rbind]; try (intros H; inversion H; congruence);
    (destruct (as_bytes boxed) as [ct0|e3] eqn:E3; cbn [rbind];
     [|intros H; inversion H; subst; eapply as_bytes_exn; exact E3]);
    (destruct (as_bytes tm) as [tm0|e4] eqn:E4; cbn [rbind];
     [|intros H; inversion H; subst; eapply as_bytes_exn; exact E4]);
    destruct (bytes_eqb _ _); intros H; inversion H; congruence.
Qed.

Lemma open_chunk_exn (session_key mac_key mac_group : obj) (nonce : bytes) (cm : obj)
    (e : exn) :
  open_chunk session_key mac_key mac_group nonce cm = Raise e -> e <> FuelExhausted.
Proof.
  unfold open_chunk.
  destruct (getitem cm (OStr "chunk")) as [boxed|e1] eqn:E1; cbn [rbind];
    [|intros H; inversion H; subst; eapply getitem_exn; exact E1].
  destruct (check_mac mac_key mac_group nonce cm boxed) as [[]|e2] eqn:E2; cbn [rbind];
    [|intros H; inversion H; subst; eapply check_mac_exn; exact E2].
  destruct (as_bytes boxed) as [ct|e3] eqn:E3; cbn [rbind];
    [|intros H; inversion H; subst; eapply as_bytes_exn; exact E3].
  destruct (as_bytes session_key) as [key|e4] eqn:E4; cbn [rbind];
    [discriminate | intros H; inversion H; subst; eapply as_bytes_exn; exact E4].
Qed.

(** [recurse_repr] can only raise [TypeError]. *)
Lemma recurse_repr_exn (o : obj) : forall e, recurse_repr o = Raise e -> e = TypeError.
Proof.
  induction o using obj_ind'; intros e0; try discriminate.
  - rewrite recurse_repr_list.
    assert (Hl : forall e1, repr_list l = Raise e1 -> e1 = TypeError).
    { induction H as [|x l Hx Hl IH]; intros e1; simpl; [discriminate|].
      destruct (recurse_repr x) eqn:Ex; simpl.
      - destruct (repr_list l) eqn:El; simpl; [discriminate|].
        intros E. inversion E. subst. eapply IH; eauto.
      - intros E. inversion E. subst. eapply Hx; eauto. }
    destruct (repr_list l) eqn:El; simpl; [discriminate|].
    intros E. inversion E. subst. eapply Hl; eauto.
  - rewrite recurse_repr_dict.
    assert (Hd : forall acc e1, repr_items d acc = Raise e1 -> e1 = TypeError).
    { induction H as [|[k v] d [Hk Hv] Hd IH]; intros acc e1; simpl; [discriminate|].
      simpl in Hk, Hv.
      destruct (recurse_repr k) eqn:Ek; simpl.
      2:{ intros E. inversion E. subst. eapply Hk; eauto. }
      destruct (recurse_repr v) eqn:Ev; simpl.
      2:{ intros E. inversion E. subst. eapply Hv; eauto. }
      destruct (hashable a); [apply IH|].
      intros E. inversion E. reflexivity. }
    destruct (repr_items d []) eqn:Ed; simpl; [discriminate|].
    intros E. inversion E. subst. eapply (Hd []); eauto.
Qed.

Lemma read_framed_msgpack_exn (w w1 : world) (e : exn) :
  read_framed_msgpack w = (Raise e, w1) -> e <> FuelExhausted.
Proof.
  unfold read_framed_msgpack.
  unfold bind at 1. unfold stream_unpack at 1.
  destruct (unpack (stream w)) as [[len s1]|]; [|intros H; inversion H; congruence].
  unfold bind at 1. unfold stream_unpack at 1. cbn [entropy stream output calls].
  destruct (unpack s1) as [[o s2]|]; [|intros H; inversion H; congruence].
  unfold bind, lift, ret. unfold json_repr.
  destruct (recurse_repr o) eqn:Erep; simpl; [discriminate|].
  intros H. inversion H. subst. apply recurse_repr_exn in Erep. subst. congruence.
Qed.

Lemma to_bytes_exn (i : N) (e : exn) : to_bytes i 24 = Raise e -> e <> FuelExhausted.
Proof. unfold to_bytes. exn_cases. Qed.

Lemma decode_loop_fuel_enough (session_key mac_key mac_group : obj) :
  forall (fuel : nat) (chunknum : N) (w : world),
    length (stream w) < fuel ->
    fst (decode_loop fuel session_key mac_key mac_group chunknum w) <> Raise FuelExhausted.
Proof.
  induction fuel as [|fuel IH]; intros chunknum w Hf; [lia|].
  rewrite decode_loop_step.
  destruct (to_bytes chunknum 24) as [nonce|e] eqn:Et.
  2:{ simpl. intros E. inversion E. subst. eapply to_bytes_exn; [exact Et | reflexivity]. }
  destruct (read_framed_msgpack w) as [[cm|e] w1] eqn:Er.
  2:{ simpl. intros E. inversion E. subst.
      eapply read_framed_msgpack_exn; [exact Er | reflexivity]. }
  pose proof (read_framed_msgpack_consumes _ _ _ Er) as Hc.
  destruct (open_chunk session_key mac_key mac_group nonce cm) as [[ct key]|e] eqn:Eo.
  2:{ simpl. intros E. inversion E. subst. eapply open_chunk_exn; [exact Eo | reflexivity]. }
  cbv zeta. destruct (crypto_secretbox_open ct nonce key) as [chunk|]; [|simpl; discriminate].
  destruct (bytes_eqb chunk []); [simpl; discriminate|].
  apply IH. unfold record. cbn [stream]. lia.
Qed.

(** ** Nonces *)

Lemma nth_error_nonces_from (n : nat) :
  forall (k : N) (j : nat) (x : bytes),
    nth_error (nonces_from k n) j = Some x ->
    x = chunk_nonce (k + N.of_nat j) /\ j < n.
Proof.
  induction n as [|n IH]; intros k j x; simpl.
  - destruct j; discriminate.
  - destruct j as [|j]; simpl.
    + intros H. inversion H. rewrite N.add_0_r. split; [reflexivity | lia].
    + intros H. apply IH in H. destruct H as [-> Hj]. split; [f_equal; lia | lia].
Qed.

Lemma bind_lift {A B : Type} (r : result A) (k : A -> M B) (w : world) :
  bind (lift r) k w = match r with Ok a => k a w | Raise e => (Raise e, w) end.
Proof. unfold bind, lift. destruct r; reflexivity. Qed.

(** The lines before the loop make at most one call, [crypto_box_open], and
    write nothing. *)
Lemma decode_header_calls (recipient_private : bytes) (w w' : world)
    (r : result (obj * obj * obj)) :
  decode_header recipient_private w = (r, w') ->
  output w' = output w /\ entropy w' = entropy w
  /\ exists cs, calls w' = calls w ++ cs
                /\ filter is_secretbox_open cs = []
                /\ secretbox_open_nonces cs = [].
Proof.
  unfold decode_header. unfold bind at 1.
  destruct (read_framed_msgpack w) as [[hm|e] w1] eqn:Er.
  2:{ intros H. inversion H. subst.
      destruct (read_framed_msgpack_world _ _ _ Er) as (He & Ho & Hc).
      repeat split; auto. exists []. rewrite app_nil_r. auto. }
  destruct (read_framed_msgpack_world _ _ _ Er) as (He & Ho & Hc).
  assert (Hnil : forall r0, (r0, w1) = (r, w') ->
             output w' = output w /\ entropy w' = entropy w
             /\ exists cs, calls w' = calls w ++ cs
                           /\ filter is_secretbox_open cs = []
                           /\ secretbox_open_nonces cs = []).
  { intros r0 H. inversion H. subst. repeat split; auto.
    exists []. rewrite app_nil_r. auto. }
  rewrite bind_lift. destruct (getitem hm (OStr "sender")) as [sp|e]; [|apply Hnil].
  rewrite bind_lift. destruct (getitem hm (OStr "recipients")) as [rs|e]; [|apply Hnil].
  rewrite bind_lift. destruct (getitem rs _) as [bkm|e]; [|apply Hnil].
  rewrite bind_lift. destruct (as_bytes bkm) as [boxed|e]; [|apply Hnil].
  rewrite bind_lift. destruct (as_bytes sp) as [sender|e]; [|apply Hnil].
  unfold bind at 1. unfold nacl_crypto_box_open at 1.
  set (c := BoxOpen (skipn 24 boxed) (firstn 24 boxed) recipient_private sender).
  assert (Hone : forall r0, (r0, record c w1) = (r, w') ->
             output w' = output w /\ entropy w' = entropy w
             /\ exists cs, calls w' = calls w ++ cs
                           /\ filter is_secretbox_open cs = []
                           /\ secretbox_open_nonces cs = []).
  { intros r0 H. inversion H. subst. unfold record. cbn [entropy stream output calls].
    repeat split; auto. exists [c]. rewrite Hc. auto. }
  destruct (crypto_box_open _ _ _ _) as [kmm|]; [|apply Hone].
  rewrite bind_lift. destruct (unpackb kmm) as [km|e]; [|apply Hone].
  rewrite bind_lift. destruct (json_repr km) as [text|e]; [|apply Hone].
  rewrite bind_lift. destruct (getitem km (OStr "session_key")) as [sk|e]; [|apply Hone].
  rewrite bind_lift. destruct (get_method km (OStr "mac_key")) as [mk|e]; [|apply Hone].
  rewrite bind_lift. destruct (get_method km (OStr "mac_group")) as [mg|e]; [|apply Hone].
  apply Hone.
Qed.


(** ** Failures of [decode] *)

(** C3.  With a MAC key, the turn of the loop for a chunk takes the tag at
    the recipient's [mac_group] in the [macs] of the frame and compares it
    ([hmac.compare_digest]) with the first 32 bytes of HMAC-SHA-512, under
    the recipient's MAC key, of the nonce followed by the ciphertext.  When
    they differ the loop raises [RuntimeError("MAC mismatch!")] there: no
    [crypto_secretbox_open] call is made for the chunk, nothing is written,
    and whatever follows the loop is not run. *)
Theorem C3_mac_mismatch_is_fatal (fuel : nat) (session_key : obj) (mac_key : bytes)
    (mac_group : obj) (chunknum : N) (w w1 : world) (nonce : bytes)
    (chunk_map macs : obj) (boxed_chunk tag : bytes) :
  to_bytes chunknum 24 = Ok nonce ->
  read_framed_msgpack w = (Ok chunk_map, w1) ->
  getitem chunk_map (OStr "chunk") = Ok (OBytes boxed_chunk) ->
  getitem chunk_map (OStr "macs") = Ok macs ->
  getitem macs mac_group = Ok (OBytes tag) ->
  let expected := firstn 32 (hmac_sha512 mac_key (nonce ++ boxed_chunk)) in
  check_mac (OBytes mac_key) mac_group nonce chunk_map (OBytes boxed_chunk)
  = (if bytes_eqb tag expected then Ok tt else Raise (RuntimeError "MAC mismatch!"))
  /\ (tag <> expected ->
      decode_loop (S fuel) session_key (OBytes mac_key) mac_group chunknum w
      = (Raise (RuntimeError "MAC mismatch!"), w1)
      /\ calls w1 = calls w
      /\ output w1 = output w
      /\ forall (B : Type) (k : unit -> M B),
           bind (decode_loop (S fuel) session_key (OBytes mac_key) mac_group chunknum) k w
           = (Raise (RuntimeError "MAC mismatch!"), w1)).
Proof.
  intros Ht Hr Hc Hm Hg expected.
  assert (Hcheck : check_mac (OBytes mac_key) mac_group nonce chunk_map (OBytes boxed_chunk)
                   = (if bytes_eqb tag expected then Ok tt
                      else Raise (RuntimeError "MAC mismatch!"))).
  { unfold check_mac. rewrite Hm. cbn [rbind]. rewrite Hg. cbn [rbind as_bytes].
    unfold compare_digest. cbn [rbind as_bytes]. rewrite chunk_mac_eq.
    fold expected. destruct (bytes_eqb tag expected); reflexivity. }
  split; [exact Hcheck|].
  intros Hne.
  assert (Hloop : decode_loop (S fuel) session_key (OBytes mac_key) mac_group chunknum w
                  = (Raise (RuntimeError "MAC mismatch!"), w1)).
  { rewrite decode_loop_step, Ht, Hr. unfold open_chunk. rewrite Hc. cbn [rbind].
    rewrite Hcheck.
    destruct (bytes_eqb tag expected) eqn:E; [|reflexivity].
    apply bytes_eqb_eq in E. contradiction. }
  split; [exact Hloop|].
  destruct (read_framed_msgpack_world _ _ _ Hr) as (_ & Ho & Hcs).
  split; [exact Hcs|]. split; [exact Ho|].
  intros B k. unfold bind. rewrite Hloop. reflexivity.
Qed.

(** C4.  When the header frame holds a [recipients] dictionary without the
    public key of the recipient's private key, [decode] raises the
    [KeyError] of that lookup: it returns no plaintext, and it has called
    neither [crypto_box_open] nor [crypto_secretbox_open]. *)
Theorem C4_unknown_recipient (input recipient_private : bytes) (g : Rng)
    (header sender_public : obj) (recipients : dict) (w1 : world) :
  read_framed_msgpack (mkWorld g input [] []) = (Ok header, w1) ->
  getitem header (OStr "sender") = Ok sender_public ->
  getitem header (OStr "recipients") = Ok (ODict recipients) ->
  dict_lookup recipients (OBytes (crypto_scalarmult_base recipient_private)) = None ->
  run (decode input recipient_private) g
  = (Raise (KeyError (OBytes (crypto_scalarmult_base recipient_private))), w1)
  /\ calls w1 = [] /\ output w1 = [].
Proof.
  intros Hr Hs Hrec Hlook.
  destruct (read_framed_msgpack_world _ _ _ Hr) as (_ & Ho & Hc).
  split; [|split; [exact Hc | exact Ho]].
  unfold run, decode.
  unfold bind at 1. unfold stream_open at 1. cbn [entropy stream output calls].
  unfold bind at 1. unfold decode_header. unfold bind at 1. rewrite Hr.
  rewrite bind_lift, Hs. rewrite bind_lift, Hrec. rewrite bind_lift.
  cbn [getitem hashable]. rewrite Hlook. reflexivity.
Qed.

(** ** What [decode] reads of its input *)

Lemma with_stream_id (w : world) : with_stream w (stream w) = w.
Proof. destruct w; reflexivity. Qed.

Lemma oblivious_stream {A : Type} (c : M A) (w : world) :
  oblivious c -> stream (snd (c w)) = stream w.
Proof.
  intros H. specialize (H w (stream w)). rewrite with_stream_id in H.
  destruct (c w) as [r w']. simpl in *. inversion H as [H1].
  rewrite H1 at 1. reflexivity.
Qed.

Lemma oblivious_ret {A : Type} (a : A) : oblivious (ret a).
Proof. intros w s. reflexivity. Qed.

Lemma oblivious_lift {A : Type} (r : result A) : oblivious (lift r).
Proof. intros w s. reflexivity. Qed.

Lemma oblivious_bind {A B : Type} (c : M A) (k : A -> M B) :
  oblivious c -> (forall a, oblivious (k a)) -> oblivious (bind c k).
Proof.
  intros Hc Hk w s. unfold bind. rewrite Hc.
  destruct (c w) as [[a|e] w']; simpl; [apply Hk | reflexivity].
Qed.

Lemma oblivious_box_open (ciphertext nonce sk pk : bytes) :
  oblivious (nacl_crypto_box_open ciphertext nonce sk pk).
Proof. intros w s. reflexivity. Qed.

Lemma decode_header_unfold (recipient_private : bytes) :
  decode_header recipient_private
  = bind read_framed_msgpack (decode_header_rest recipient_private).
Proof. reflexivity. Qed.

Lemma oblivious_decode_header_rest (recipient_private : bytes) (header_map : obj) :
  oblivious (decode_header_rest recipient_private header_map).
Proof.
  unfold decode_header_rest.
  repeat (apply oblivious_bind; [first [apply oblivious_lift | apply oblivious_box_open]|];
          intros ?).
  apply oblivious_ret.
Qed.

Lemma read_framed_msgpack_extend (w w1 : world) (o : obj) :
  read_framed_msgpack w = (Ok o, w1) ->
  exists pre,
    pre <> [] /\ stream w = pre ++ stream w1
    /\ forall extra,
         read_framed_msgpack (with_stream w (pre ++ extra)) = (Ok o, with_stream w1 extra).
Proof.
  intros H. destruct (read_framed_msgpack_inv _ _ _ H) as (He & Ho & Hc & _ & Hpre).
  destruct (Hpre o eq_refl) as (pre & Hne & Hs & Hread).
  exists pre. repeat split; auto. intros extra.
  specialize (Hread (with_stream w1 extra)).
  unfold with_stream in *. cbn [entropy stream output calls] in Hread.
  rewrite <- He, <- Ho, <- Hc. exact Hread.
Qed.

Lemma decode_header_extend (recipient_private : bytes) (w w1 : world)
    (keys : obj * obj * obj) :
  decode_header recipient_private w = (Ok keys, w1) ->
  exists pre,
    stream w = pre ++ stream w1
    /\ forall extra,
         decode_header recipient_private (with_stream w (pre ++ extra))
         = (Ok keys, with_stream w1 extra).
Proof.
  rewrite decode_header_unfold. unfold bind at 1.
  destruct (read_framed_msgpack w) as [[hm|e] w0] eqn:Er; [|discriminate].
  intros H.
  destruct (read_framed_msgpack_extend _ _ _ Er) as (pre & _ & Hs & Hread).
  pose proof (oblivious_decode_header_rest recipient_private hm) as Hob.
  pose proof (oblivious_stream _ w0 Hob) as Hst. rewrite H in Hst. simpl in Hst.
  exists pre. split; [rewrite Hst; exact Hs|].
  intros extra. unfold bind. rewrite Hread, Hob, H. reflexivity.
Qed.

Lemma decode_loop_extend (session_key mac_key mac_group : obj) :
  forall (fuel : nat) (chunknum : N) (w w' : world),
    decode_loop fuel session_key mac_key mac_group chunknum w = (Ok tt, w') ->
    exists pre,
      stream w = pre ++ stream w'
      /\ forall extra fuel',
           length (pre ++ extra) < fuel' ->
           decode_loop fuel' session_key mac_key mac_group chunknum
             (with_stream w (pre ++ extra))
           = (Ok tt, with_stream w' extra).
Proof.
  induction fuel as [|fuel IH]; intros chunknum w w'; [discriminate|].
  rewrite decode_loop_step.
  destruct (to_bytes chunknum 24) as [nonce|e] eqn:Et; [|discriminate].
  destruct (read_framed_msgpack w) as [[cm|e] w1] eqn:Er; [|discriminate].
  destruct (read_framed_msgpack_extend _ _ _ Er) as (pre1 & Hne1 & Hs1 & Hread).
  destruct (open_chunk session_key mac_key mac_group nonce cm) as [[ct key]|e] eqn:Eo;
    [|discriminate].
  cbv zeta.
  destruct (crypto_secretbox_open ct nonce key) as [chunk|] eqn:Ec; [|discriminate].
  destruct (bytes_eqb chunk []) eqn:Ee.
  - intros H. inversion H. subst w'. unfold record. cbn [stream].
    exists pre1. split; [exact Hs1|].
    intros extra [|fuel'] Hf; [lia|].
    rewrite decode_loop_step, Et, Hread, Eo. cbv zeta. rewrite Ec, Ee. reflexivity.
  - intros H. apply IH in H. destruct H as (pre2 & Hs2 & Hloop).
    unfold record in Hs2. cbn [stream] in Hs2.
    exists (pre1 ++ pre2). split; [rewrite Hs1, Hs2, app_assoc; reflexivity|].
    intros extra [|fuel'] Hf; [lia|].
    rewrite decode_loop_step, Et, <- app_assoc, Hread, Eo. cbv zeta. rewrite Ec, Ee.
    specialize (Hloop extra fuel').
    unfold record, with_stream in *. cbn [entropy stream output calls] in *.
    apply Hloop. rewrite !length_app in *.
    destruct pre1; [contradiction | simpl in Hf; lia].
Qed.


(** ** Streams that differ where [decode] does not look *)

Lemma repr_items_ok (d : dict) :
  forall acc, (exists d', repr_items d acc = Ok d') <-> Forall entry_ok d.
Proof.
  induction d as [|[k v] d IH]; intros acc; simpl.
  - split; [constructor | eauto].
  - split.
    + intros [d' H].
      destruct (recurse_repr k) as [k'|] eqn:Ek; simpl in H; [|discriminate].
      destruct (recurse_repr v) as [v'|] eqn:Ev; simpl in H; [|discriminate].
      destruct (hashable k') eqn:Eh; [|discriminate].
      constructor.
      * exists k', v'. simpl. auto.
      * apply (IH (dict_set acc k' v')). eauto.
    + intros H. inversion H as [|? ? (k' & v' & Hk & Hv & Hh) Hd]; subst. simpl in Hk, Hv.
      rewrite Hk, Hv. simpl. rewrite Hh. apply IH. exact Hd.
Qed.

Lemma same_dump_of_iff (o1 o2 : obj) :
  ((exists r, recurse_repr o1 = Ok r) <-> (exists r, recurse_repr o2 = Ok r)) ->
  same_dump o1 o2.
Proof.
  intros H. unfold same_dump, json_repr.
  destruct (recurse_repr o1) as [r1|e1] eqn:E1; destruct (recurse_repr o2) as [r2|e2] eqn:E2;
    simpl; try reflexivity.
  - destruct (proj1 H (ex_intro _ r1 eq_refl)) as [r Hr]. discriminate.
  - destruct (proj2 H (ex_intro _ r2 eq_refl)) as [r Hr]. discriminate.
  - apply recurse_repr_exn in E1, E2. subst. reflexivity.
Qed.

Lemma same_dump_refl (o : obj) : same_dump o o.
Proof. reflexivity. Qed.

Lemma dict_lookup_without_macs (d : dict) (k : obj) :
  k <> OStr "macs" -> dict_lookup (without_macs d) k = dict_lookup d k.
Proof.
  intros Hk. induction d as [|[k' v'] d IH]; simpl; [reflexivity|].
  destruct (obj_eqb k' (OStr "macs")) eqn:E; simpl.
  - apply obj_eqb_eq in E. subst k'.
    assert (obj_eqb (OStr "macs") k = false) as ->.
    { apply obj_eqb_neq. congruence. }
    exact IH.
  - rewrite IH. reflexivity.
Qed.

Lemma entry_ok_without_macs (d : dict) :
  (forall v, In (OStr "macs", v) d -> tags_value v) ->
  (Forall entry_ok d <-> Forall entry_ok (without_macs d)).
Proof.
  intros Hm. rewrite !Forall_forall. unfold without_macs. split.
  - intros H kv Hin. apply filter_In in Hin. apply H. apply Hin.
  - intros H [k v] Hin.
    destruct (obj_eqb k (OStr "macs")) eqn:E.
    + apply obj_eqb_eq in E. subst k. destruct (Hm v Hin) as [tags ->].
      destruct (repr_list_bytes (map OBytes tags)) as [l' Hl'].
      { apply Forall_forall. intros x Hx. apply in_map_iff in Hx.
        destruct Hx as (t & <- & _). reflexivity. }
      exists (OStr "macs"), (OList l'). cbn [fst snd].
      rewrite recurse_repr_list, Hl'. auto.
    + apply H. apply filter_In. split; [exact Hin|]. simpl. rewrite E. reflexivity.
Qed.

Lemma macs_edit_getitem (o1 o2 : obj) (k : obj) :
  macs_edit o1 o2 -> k <> OStr "macs" -> getitem o1 k = getitem o2 k.
Proof.
  intros (d1 & d2 & -> & -> & Hw & _) Hk. simpl.
  rewrite <- (dict_lookup_without_macs d1 k Hk), <- (dict_lookup_without_macs d2 k Hk), Hw.
  reflexivity.
Qed.

Lemma macs_edit_same_dump (o1 o2 : obj) : macs_edit o1 o2 -> same_dump o1 o2.
Proof.
  intros (d1 & d2 & -> & -> & Hw & H1 & H2). apply same_dump_of_iff.
  rewrite !recurse_repr_dict.
  assert (Hiff : forall d, (exists r, rbind (repr_items d []) (fun d' => Ok (ODict d')) = Ok r)
                           <-> Forall entry_ok d).
  { intros d. rewrite <- (repr_items_ok d []). split.
    - intros [r Hr]. destruct (repr_items d []) as [d'|]; [eauto | discriminate].
    - intros [d' ->]. simpl. eauto. }
  rewrite !Hiff, (entry_ok_without_macs d1 H1), (entry_ok_without_macs d2 H2), Hw.
  reflexivity.
Qed.

Lemma macs_edit_header_compat (o1 o2 : obj) :
  o1 = o2 \/ macs_edit o1 o2 -> header_compat o1 o2.
Proof.
  intros [->|H]; [repeat split; reflexivity|].
  split; [apply macs_edit_same_dump; exact H|].
  split; apply macs_edit_getitem; try exact H; discriminate.
Qed.

Lemma world_rel_with_stream (Q : obj -> obj -> Prop) (w1 w2 : world) :
  world_rel Q w1 w2 -> w2 = with_stream w1 (stream w2).
Proof.
  intros (He & Ho & Hc & _). destruct w1, w2. unfold with_stream. simpl in *.
  subst. reflexivity.
Qed.

Lemma world_rel_refl (Q : obj -> obj -> Prop) (w : world) : world_rel Q w w.
Proof. repeat split. constructor. Qed.

Lemma read_framed_msgpack_rel (Q : obj -> obj -> Prop) (w1 w2 : world) :
  world_rel Q w1 w2 ->
  w1 = w2
  \/ exists o1 o2 w1' w2',
       Q o1 o2 /\ world_rel Q w1' w2'
       /\ read_framed_msgpack w1 = (rbind (json_repr o1) (fun _ => Ok o1), w1')
       /\ read_framed_msgpack w2 = (rbind (json_repr o2) (fun _ => Ok o2), w2').
Proof.
  intros (He & Ho & Hc & Hs).
  inversion Hs as [rest Hr1 Hr2 | p1 p2 o1 o2 s1 s2 Hp1 Hp2 Ho1 Ho2 HQ Hrel Hs1 Hs2].
  - left. destruct w1, w2. simpl in *. subst. reflexivity.
  - right. exists o1, o2.
    exists (mkWorld (entropy w1) s1 (output w1) (calls w1)).
    exists (mkWorld (entropy w2) s2 (output w2) (calls w2)).
    split; [exact HQ|]. split; [repeat split; assumption|].
    split.
    + apply (read_framed_msgpack_frame p1 o1 s1); auto.
    + apply (read_framed_msgpack_frame p2 o2 s2); auto.
Qed.

Lemma same_dump_cases (o1 o2 : obj) :
  same_dump o1 o2 ->
  (exists t1 t2, json_repr o1 = Ok t1 /\ json_repr o2 = Ok t2)
  \/ (exists e, json_repr o1 = Raise e /\ json_repr o2 = Raise e).
Proof.
  unfold same_dump. destruct (json_repr o1) as [t1|e1], (json_repr o2) as [t2|e2]; simpl;
    intros H; try discriminate.
  - left. eauto.
  - right. inversion H. eauto.
Qed.

Ltac rel_done :=
  do 3 eexists; split; [reflexivity|]; split; [reflexivity|]; assumption.

Lemma decode_loop_rel (Q : obj -> obj -> Prop) (session_key mac_key mac_group : obj) :
  (forall o1 o2, Q o1 o2 -> chunk_compat mac_key o1 o2) ->
  forall (fuel : nat) (chunknum : N) (w1 w2 : world),
    world_rel Q w1 w2 ->
    exists r w1' w2',
      decode_loop fuel session_key mac_key mac_group chunknum w1 = (r, w1')
      /\ decode_loop fuel session_key mac_key mac_group chunknum w2 = (r, w2')
      /\ world_rel Q w1' w2'.
Proof.
  intros Hcompat. induction fuel as [|fuel IH]; intros chunknum w1 w2 Hrel.
  - simpl. unfold raise. rel_done.
  - rewrite !decode_loop_step.
    destruct (to_bytes chunknum 24) as [nonce|e]; [|rel_done].
    destruct (read_framed_msgpack_rel Q w1 w2 Hrel)
      as [->|(o1 & o2 & w1' & w2' & HQ & Hrel' & -> & ->)].
    { match goal with
      | |- exists r w1' w2', ?X = _ /\ _ => exists (fst X), (snd X), (snd X)
      end.
      repeat split; try (destruct (read_framed_msgpack w2) as [[?|?] ?]; reflexivity);
        try apply surjective_pairing; constructor. }
    destruct (Hcompat o1 o2 HQ) as [Hdump Hopen].
    destruct (same_dump_cases _ _ Hdump) as [(t1 & t2 & -> & ->)|(e & -> & ->)];
      cbn [rbind]; [|rel_done].
    rewrite Hopen.
    destruct (open_chunk session_key mac_key mac_group nonce o2) as [[ct key]|e]; [|rel_done].
    cbv zeta.
    assert (Hrec : world_rel Q (record (SecretboxOpen ct nonce key) w1')
                     (record (SecretboxOpen ct nonce key) w2')).
    { destruct Hrel' as (He & Ho & Hc & Hs). unfold record. repeat split; simpl; first [assumption | congruence]. }
    destruct (crypto_secretbox_open ct nonce key) as [chunk|]; [|rel_done].
    destruct (bytes_eqb chunk []); [rel_done|].
    apply IH. unfold record in Hrec. destruct Hrec as (He & Ho & Hc & Hs).
    simpl in He, Ho, Hc, Hs.
    repeat split; simpl; first [assumption | congruence].
Qed.

Lemma decode_header_length (recipient_private : bytes) (w w' : world)
    (r : result (obj * obj * obj)) :
  decode_header recipient_private w = (r, w') ->
  length (stream w') <= length (stream w).
Proof.
  rewrite decode_header_unfold. unfold bind.
  destruct (read_framed_msgpack w) as [[hm|e] w0] eqn:Er.
  - pose proof (oblivious_stream _ w0 (oblivious_decode_header_rest recipient_private hm))
      as Hst.
    destruct (decode_header_rest recipient_private hm w0) as [r0 w1]. simpl in Hst.
    intros H. inversion H. subst. rewrite Hst.
    apply (read_framed_msgpack_inv _ _ _ Er).
  - intros H. inversion H. subst. apply (read_framed_msgpack_inv _ _ _ Er).
Qed.

Lemma decode_header_rest_compat (recipient_private : bytes) (o1 o2 : obj) :
  header_compat o1 o2 ->
  decode_header_rest recipient_private o1 = decode_header_rest recipient_private o2.
Proof.
  intros (_ & Hs & Hr). unfold decode_header_rest. rewrite Hs, Hr. reflexivity.
Qed.

Lemma decode_header_rel (Q : obj -> obj -> Prop) (recipient_private : bytes) :
  (forall o1 o2, Q o1 o2 -> header_compat o1 o2) ->
  forall (w1 w2 : world),
    world_rel Q w1 w2 ->
    exists r w1' w2',
      decode_header recipient_private w1 = (r, w1')
      /\ decode_header recipient_private w2 = (r, w2')
      /\ world_rel Q w1' w2'.
Proof.
  intros Hcompat w1 w2 Hrel. rewrite decode_header_unfold. unfold bind.
  destruct (read_framed_msgpack_rel Q w1 w2 Hrel)
    as [->|(o1 & o2 & w1' & w2' & HQ & Hrel' & -> & ->)].
  { match goal with
    | |- exists r w1' w2', ?X = _ /\ _ => exists (fst X), (snd X), (snd X)
    end.
    repeat split; try apply surjective_pairing; constructor. }
  destruct (Hcompat o1 o2 HQ) as (Hdump & Hcs).
  destruct (same_dump_cases _ _ Hdump) as [(t1 & t2 & -> & ->)|(e & -> & ->)];
    cbn [rbind]; [|rel_done].
  rewrite (decode_header_rest_compat recipient_private o1 o2 (Hcompat o1 o2 HQ)).
  pose proof (oblivious_decode_header_rest recipient_private o2) as Hob.
  rewrite (world_rel_with_stream Q w1' w2' Hrel'), Hob.
  pose proof (oblivious_stream _ w1' Hob) as Hst.
  destruct (decode_header_rest recipient_private o2 w1') as [r w3]. simpl in *.
  exists r, w3, (with_stream w3 (stream w2')).
  repeat split; try reflexivity. simpl. rewrite Hst. apply Hrel'.
Qed.

Lemma decode_unfold (input recipient_private : bytes) (g : Rng) :
  run (decode input recipient_private) g
  = match decode_header recipient_private (mkWorld g input [] []) with
    | (Raise e, w1) => (Raise e, w1)
    | (Ok keys, w1) =>
        match decode_loop (S (length input)) (fst (fst keys)) (snd (fst keys)) (snd keys) 0
                (mkWorld (entropy w1) (stream w1) [] (calls w1)) with
        | (Raise e, w2) => (Raise e, w2)
        | (Ok _, w2) => (Ok (output w2), w2)
        end
    end.
Proof.
  unfold run, decode.
  unfold bind at 1. unfold stream_open at 1. cbn [entropy stream output calls].
  unfold bind at 1.
  destruct (decode_header recipient_private (mkWorld g input [] [])) as [[keys|e] w1];
    [|reflexivity].
  unfold bind at 1. unfold output_open at 1.
  unfold bind at 1.
  destruct (decode_loop _ _ _ _ _ _) as [[[]|e] w2]; reflexivity.
Qed.

Lemma get_method_exn (o k : obj) (e : exn) : get_method o k = Raise e -> e <> FuelExhausted.
Proof.
  unfold get_method. destruct o; try (intros H; inversion H; congruence).
  destruct (hashable k); [|intros H; inversion H; congruence].
  destruct (dict_lookup d k); discriminate.
Qed.

Lemma decode_header_rest_exn (recipient_private : bytes) (header_map : obj)
    (w w' : world) (e : exn) :
  decode_header_rest recipient_private header_map w = (Raise e, w') -> e <> FuelExhausted.
Proof.
  unfold decode_header_rest.
  rewrite bind_lift. destruct (getitem header_map (OStr "sender")) as [sp|e1] eqn:E1;
    [|intros H; inversion H; subst; eapply getitem_exn; exact E1].
  rewrite bind_lift. destruct (getitem header_map (OStr "recipients")) as [rs|e2] eqn:E2;
    [|intros H; inversion H; subst; eapply getitem_exn; exact E2].
  rewrite bind_lift. destruct (getitem rs _) as [bkm|e3] eqn:E3;
    [|intros H; inversion H; subst; eapply getitem_exn; exact E3].
  rewrite bind_lift. destruct (as_bytes bkm) as [boxed|e4] eqn:E4;
    [|intros H; inversion H; subst; eapply as_bytes_exn; exact E4].
  rewrite bind_lift. destruct (as_bytes sp) as [sender|e5] eqn:E5;
    [|intros H; inversion H; subst; eapply as_bytes_exn; exact E5].
  unfold bind at 1. unfold nacl_crypto_box_open at 1.
  destruct (crypto_box_open _ _ _ _) as [kmm|]; [|intros H; inversion H; congruence].
  rewrite bind_lift. unfold unpackb.
  destruct (unpack kmm) as [[km rest]|]; [|intros H; inversion H; congruence].
  rewrite bind_lift. unfold json_repr.
  destruct (recurse_repr km) as [rep|e6] eqn:E6; cbn [rbind];
    [|intros H; inversion H; subst; apply recurse_repr_exn in E6; congruence].
  rewrite bind_lift. destruct (getitem km (OStr "session_key")) as [sk|e7] eqn:E7;
    [|intros H; inversion H; subst; eapply getitem_exn; exact E7].
  rewrite bind_lift. destruct (get_method km (OStr "mac_key")) as [mk|e8] eqn:E8;
    [|intros H; inversion H; subst; eapply get_method_exn; exact E8].
  rewrite bind_lift. destruct (get_method km (OStr "mac_group")) as [mg|e9] eqn:E9;
    [|intros H; inversion H; subst; eapply get_method_exn; exact E9].
  discriminate.
Qed.

(** [decode] never stops for want of turns: the bound of its loop, one more
    than the length of the input, is not reached. *)
Lemma decode_fuel_enough (input recipient_private : bytes) (g : Rng) :
  fst (run (decode input recipient_private) g) <> Raise FuelExhausted.
Proof.
  rewrite decode_unfold.
  destruct (decode_header recipient_private (mkWorld g input [] [])) as [[keys|e] w1] eqn:Eh.
  - pose proof (decode_header_length _ _ _ _ Eh) as Hl. cbn [stream] in Hl.
    pose proof (decode_loop_fuel_enough (fst (fst keys)) (snd (fst keys)) (snd keys)
                  (S (length input)) 0
                  (mkWorld (entropy w1) (stream w1) [] (calls w1))) as Hf.
    destruct (decode_loop _ _ _ _ _ _) as [[[]|e] w2]; cbn [fst] in *.
    + discriminate.
    + intros E. apply Hf; [cbn [stream]; lia | congruence].
  - cbn [fst]. intros E. inversion E. subst.
    rewrite decode_header_unfold in Eh. unfold bind in Eh.
    destruct (read_framed_msgpack (mkWorld g input [] [])) as [[hm|e] w0] eqn:Er.
    + eapply decode_header_rest_exn; [exact Eh | reflexivity].
    + inversion Eh. subst. eapply read_framed_msgpack_exn; [exact Er | reflexivity].
Qed.

(** [decode] answers alike on two inputs that are related frame by frame,
    when the related objects look the same to the header lines and, under
    the MAC key the header yields, to the loop. *)
Lemma decode_rel (Q : obj -> obj -> Prop) (recipient_private s1 s2 : bytes) (g : Rng) :
  (forall o1 o2, Q o1 o2 -> header_compat o1 o2) ->
  (forall keys w,
      decode_header recipient_private (mkWorld g s1 [] []) = (Ok keys, w) ->
      forall o1 o2, Q o1 o2 -> chunk_compat (snd (fst keys)) o1 o2) ->
  stream_rel Q s1 s2 ->
  exists r w1 w2,
    run (decode s1 recipient_private) g = (r, w1)
    /\ run (decode s2 recipient_private) g = (r, w2)
    /\ world_rel Q w1 w2.
Proof.
  intros Hh Hc Hs. rewrite !decode_unfold.
  destruct (decode_header_rel Q recipient_private Hh (mkWorld g s1 [] []) (mkWorld g s2 [] []))
    as (r & w1 & w2 & H1 & H2 & Hrel).
  { repeat split. exact Hs. }
  pose proof (decode_header_length _ _ _ _ H1) as Hl1.
  pose proof (decode_header_length _ _ _ _ H2) as Hl2.
  cbn [stream] in Hl1, Hl2.
  rewrite H1, H2. destruct r as [keys|e]; [|rel_done].
  set (F := S (length s1 + length s2)).
  rewrite (decode_loop_fuel _ _ _ (S (length s1)) F) by (cbn [stream]; unfold F; lia).
  rewrite (decode_loop_fuel _ _ _ (S (length s2)) F) by (cbn [stream]; unfold F; lia).
  destruct (decode_loop_rel Q (fst (fst keys)) (snd (fst keys)) (snd keys)
              (Hc keys w1 H1) F 0
              (mkWorld (entropy w1) (stream w1) [] (calls w1))
              (mkWorld (entropy w2) (stream w2) [] (calls w2)))
    as (r & w1' & w2' & -> & -> & Hrel').
  { destruct Hrel as (He & Ho & Hcs & Hst). repeat split; simpl; assumption. }
  destruct r as [[]|e]; [|rel_done].
  destruct Hrel' as (He & Ho & Hcs & Hst).
  rewrite Ho. do 3 eexists. split; [reflexivity|]. split; [reflexivity|].
  repeat split; assumption.
Qed.

Lemma stream_rel_prefixes (objs : list obj) (rest : bytes) :
  Forall (fun o => wf_obj o = true) objs ->
  forall (prefixes1 prefixes2 : list Z),
    length prefixes1 = length objs -> length prefixes2 = length objs ->
    stream_rel eq (framed (combine (map OInt prefixes1) objs) ++ rest)
      (framed (combine (map OInt prefixes2) objs) ++ rest).
Proof.
  induction 1 as [|o objs Ho Hobjs IH]; intros [|p1 ps1] [|p2 ps2] H1 H2;
    try discriminate; simpl.
  - constructor.
  - rewrite <- !app_assoc. constructor; auto.
Qed.

(** C8.  [decode] does not use the length that precedes a frame.  Take any
    sequence of objects, frame it twice with any two choices of integers in
    the place of the lengths, and let the same bytes follow: [decode] gives
    the same answer (the same plaintext or the same exception) on the two
    streams, after the same calls. *)
Theorem C8_length_prefix_unused (objs : list obj) (prefixes1 prefixes2 : list Z)
    (rest recipient_private : bytes) (g : Rng) :
  Forall (fun o => wf_obj o = true) objs ->
  length prefixes1 = length objs ->
  length prefixes2 = length objs ->
  let s1 := framed (combine (map OInt prefixes1) objs) ++ rest in
  let s2 := framed (combine (map OInt prefixes2) objs) ++ rest in
  fst (run (decode s1 recipient_private) g) = fst (run (decode s2 recipient_private) g)
  /\ calls (snd (run (decode s1 recipient_private) g))
     = calls (snd (run (decode s2 recipient_private) g)).
Proof.
  intros Hwf H1 H2 s1 s2.
  destruct (decode_rel eq recipient_private s1 s2 g) as (r & w1 & w2 & -> & -> & Hrel).
  - intros o1 o2 <-. repeat split; reflexivity.
  - intros keys w _ o1 o2 <-. split; reflexivity.
  - apply stream_rel_prefixes; assumption.
  - split; [reflexivity | apply Hrel].
Qed.

(** ** A recipient in several groups *)

Lemma filter_key_absent (d : dict) (k : obj) :
  ~ In k (map fst d) -> filter (fun kv => obj_eqb (fst kv) k) d = [].
Proof.
  induction d as [|[k' v'] d IH]; simpl; [reflexivity|]. intros H.
  destruct (obj_eqb k' k) eqn:E.
  - apply obj_eqb_eq in E. subst. exfalso. apply H. left. reflexivity.
  - apply IH. intros Hin. apply H. right. exact Hin.
Qed.

Lemma unique_lookup_count (d : dict) (k v : obj) :
  unique_keys (map fst d) = true ->
  dict_lookup d k = Some v ->
  length (filter (fun kv => obj_eqb (fst kv) k) d) = 1.
Proof.
  induction d as [|[k' v'] d IH]; simpl; [discriminate|].
  rewrite andb_true_iff, negb_true_iff, existsb_obj_eqb_false. intros [Hk Hu].
  destruct (obj_eqb k' k) eqn:E.
  - apply obj_eqb_eq in E. subst k'. intros _. simpl.
    rewrite (filter_key_absent d k Hk). reflexivity.
  - intros Hl. apply IH; assumption.
Qed.

(** C10.  When a recipient's public key [r] is in several groups, [encode]
    still returns a stream.  The [recipients] dictionary of its header has
    exactly one entry for [r]: a 24-byte nonce followed by the payload
    sealed for [r] as a member of the last group [j] that holds it, with
    [mac_group = j] and the MAC key of group [j].  The holder of the private
    key of [r] therefore leaves the header lines of [decode] with that group
    number and that key, and reads back the message. *)
Theorem C10_recipient_in_several_groups (sender_private r : bytes)
    (recipient_groups : list (list bytes)) (message : bytes) (g g' : Rng)
    (j0 j : nat) (group0 group : list bytes) :
  valid_bytes message ->
  j0 < j ->
  nth_error recipient_groups j0 = Some group0 -> In r group0 ->
  nth_error recipient_groups j = Some group -> In r group ->
  (forall j' group', j < j' -> nth_error recipient_groups j' = Some group' -> ~ In r group') ->
  exists out w session_key mac_keys recipients_map chunk_bytes mac_key,
    run (encode sender_private recipient_groups message) g = (Ok out, w)
    /\ out = frame (ODict (header_map (crypto_scalarmult_base sender_private) recipients_map))
             ++ chunk_bytes
    /\ length (filter (fun kv => obj_eqb (fst kv) (OBytes r)) recipients_map) = 1
    /\ nth_error mac_keys j = Some mac_key
    /\ urandom_outputs 32 (calls w) = session_key :: mac_keys
    /\ sealed_to recipients_map sender_private r
         (packb (ODict [(OStr "session_key", OBytes session_key);
                        (OStr "mac_group", OInt (Z.of_nat j));
                        (OStr "mac_key", OBytes mac_key)]))
    /\ forall recipient_private,
         crypto_scalarmult_base recipient_private = r ->
         (exists w1,
             decode_header recipient_private (mkWorld g' out [] [])
             = (Ok (OBytes session_key, OBytes mac_key, OInt (Z.of_nat j)), w1))
         /\ fst (run (decode out recipient_private) g') = Ok message.
Proof.
  intros Hv Hlt Hj0 Hr0 Hj Hr Hlast.
  destruct (encode_spec sender_private recipient_groups message g Hv)
    as (session_key & mac_keys & rm & chunks & g1 & cs & Hrun & Hchunks & _ & Hur & Hlen
        & _ & _ & _ & Hseal & _ & Hb & Hu).
  assert (Hnm : (1 <? length recipient_groups) = true).
  { apply Nat.ltb_lt. assert (j < length recipient_groups) by (apply nth_error_Some; congruence).
    lia. }
  rewrite Hnm in *.
  assert (Hjk : j < length mac_keys)
    by (rewrite Hlen; apply nth_error_Some; congruence).
  pose proof (Hseal j group r Hj Hr Hlast) as Hs.
  unfold payload in Hs. rewrite per_recipient_map_macs in Hs.
  destruct (chunk_calls_other session_key chunks 0) as [_ Hcu].
  eexists. eexists. exists session_key, mac_keys, rm.
  exists (chunk_frames true mac_keys session_key 0 chunks), (nth j mac_keys []).
  split; [exact Hrun|].
  split; [reflexivity|].
  split.
  { destruct Hs as (nonce & _ & Hlook). eapply unique_lookup_count; eassumption. }
  split; [apply nth_error_nth'; exact Hjk|].
  split.
  { cbn [calls urandom_outputs Nat.eqb]. rewrite urandom_outputs_app, Hur, Hcu, app_nil_r.
    reflexivity. }
  split; [exact Hs|].
  intros recipient_private Hpub. subst r. split.
  - edestruct (decode_header_frame sender_private recipient_private true session_key j
                 (nth j mac_keys []) rm) as [c Hhdr];
      [exact Hb | exact Hu | | | eexists; exact Hhdr].
    + unfold payload. rewrite per_recipient_map_macs. exact Hs.
    + cbn [stream]. reflexivity.
  - destruct (roundtrip sender_private recipient_private recipient_groups message g g' Hv)
      as (out' & w' & Hrun' & Hdec).
    { exists group. split; [eapply nth_error_In; exact Hj | exact Hr]. }
    rewrite Hrun in Hrun'. inversion Hrun'. subst out'. exact Hdec.
Qed.

(** ** Further properties of [encode] and [decode] *)

(** X1.  Round trip for every recipient of every group, with any number of
    groups: when the public key of [recipient_private] is listed in some
    group, [decode] of what [encode] returns gives back the message, also
    when MACs are in use and when the key is listed more than once. *)
Theorem X1_roundtrip_every_group (sender_private recipient_private : bytes)
    (recipient_groups : list (list bytes)) (message : bytes) (g g' : Rng) :
  valid_bytes message ->
  (exists group,
      In group recipient_groups /\ In (crypto_scalarmult_base recipient_private) group) ->
  exists out w,
    run (encode sender_private recipient_groups message) g = (Ok out, w)
    /\ fst (run (decode out recipient_private) g') = Ok message.
Proof. intros Hv Hin. apply roundtrip; assumption. Qed.

(** X2.  A key that [encode] was not given cannot read the message: when the
    public key of [recipient_private] is in none of the groups (in
    particular when there is no group at all), [decode] of what [encode]
    returns raises the [KeyError] of the lookup in [recipients], before any
    call into the cryptographic library. *)
Theorem X2_decode_by_a_stranger (sender_private recipient_private : bytes)
    (recipient_groups : list (list bytes)) (message : bytes) (g g' : Rng) :
  valid_bytes message ->
  (forall group, In group recipient_groups ->
                 ~ In (crypto_scalarmult_base recipient_private) group) ->
  exists out w,
    run (encode sender_private recipient_groups message) g = (Ok out, w)
    /\ fst (run (decode out recipient_private) g')
       = Raise (KeyError (OBytes (crypto_scalarmult_base recipient_private)))
    /\ calls (snd (run (decode out recipient_private) g')) = [].
Proof.
  intros Hv Hout.
  destruct (encode_spec sender_private recipient_groups message g Hv)
    as (session_key & mac_keys & rm & chunks & g1 & cs & Hrun & _ & _ & _ & _
        & _ & _ & _ & _ & Hoth & Hb & Hu).
  eexists. eexists. split; [exact Hrun|].
  assert (Hlook : dict_lookup rm (OBytes (crypto_scalarmult_base recipient_private)) = None).
  { apply Hoth. intros group r Hg Hr E. inversion E. subst r. exact (Hout group Hg Hr). }
  set (hdr := ODict (header_map (crypto_scalarmult_base sender_private) rm)).
  set (rest := chunk_frames (1 <? length recipient_groups) mac_keys session_key 0 chunks).
  pose proof (read_framed_msgpack_ok (OInt (Z.of_nat (length (packb hdr)))) hdr rest
                (mkWorld g' (frame hdr ++ rest) [] []) (wf_int _) (wf_header _ _ Hb Hu)
                (json_ok_header _ _ Hb) eq_refl) as Hread.
  assert (Hdec : run (decode (frame hdr ++ rest) recipient_private) g'
                 = (Raise (KeyError (OBytes (crypto_scalarmult_base recipient_private))),
                    mkWorld g' rest [] [])).
  { rewrite decode_unfold. unfold decode_header. unfold bind at 1. rewrite Hread.
    cbv beta iota. rewrite bind_lift.
    change (getitem hdr (OStr "sender"))
      with (@Ok obj (OBytes (crypto_scalarmult_base sender_private))).
    cbv beta iota. rewrite bind_lift.
    change (getitem hdr (OStr "recipients")) with (@Ok obj (ODict rm)).
    cbv beta iota. rewrite bind_lift. cbn [getitem hashable]. rewrite Hlook.
    reflexivity. }
  rewrite Hdec. split; reflexivity.
Qed.

(** X3.  When the entry of the recipient in the header does not open (it
    was sealed by another sender, to another key, or is damaged), [decode]
    raises the [CryptoError] of [crypto_box_open].  The call is its only
    one: no chunk is read or opened.  The first 24 bytes of the entry are
    taken for the nonce and the rest for the ciphertext. *)
Theorem X3_box_does_not_open (input recipient_private : bytes) (g : Rng)
    (header : obj) (sender boxed : bytes) (recipients : dict) (w1 : world) :
  read_framed_msgpack (mkWorld g input [] []) = (Ok header, w1) ->
  getitem header (OStr "sender") = Ok (OBytes sender) ->
  getitem header (OStr "recipients") = Ok (ODict recipients) ->
  dict_lookup recipients (OBytes (crypto_scalarmult_base recipient_private))
  = Some (OBytes boxed) ->
  crypto_box_open (skipn 24 boxed) (firstn 24 boxed) recipient_private sender = None ->
  run (decode input recipient_private) g
  = (Raise CryptoError,
     mkWorld g (stream w1) []
       [BoxOpen (skipn 24 boxed) (firstn 24 boxed) recipient_private sender]).
Proof.
  intros Hr Hs Hrec Hlook Hopen.
  destruct (read_framed_msgpack_world _ _ _ Hr) as (He & Ho & Hc).
  cbn [entropy output calls] in He, Ho, Hc.
  rewrite decode_unfold. unfold decode_header. unfold bind at 1. rewrite Hr.
  rewrite bind_lift, Hs. rewrite bind_lift, Hrec. rewrite bind_lift.
  cbn [getitem hashable]. rewrite Hlook.
  rewrite bind_lift. cbn [as_bytes]. rewrite bind_lift. cbn [as_bytes].
  unfold bind at 1. unfold nacl_crypto_box_open at 1. rewrite Hopen.
  unfold record. rewrite He, Ho, Hc. reflexivity.
Qed.

(** X4.  A recipient that holds a MAC key does not accept a chunk without
    tags: when the first chunk dictionary has no [macs] entry, [decode]
    raises [KeyError('macs')] and has opened no chunk. *)
Theorem X4_stripped_macs (input recipient_private : bytes) (g : Rng)
    (session_key mac_group : obj) (mac_key : bytes) (w1 w2 : world) (d : dict)
    (boxed_chunk : obj) :
  decode_header recipient_private (mkWorld g input [] [])
  = (Ok (session_key, OBytes mac_key, mac_group), w1) ->
  read_framed_msgpack (mkWorld (entropy w1) (stream w1) [] (calls w1)) = (Ok (ODict d), w2) ->
  dict_lookup d (OStr "chunk") = Some boxed_chunk ->
  dict_lookup d (OStr "macs") = None ->
  run (decode input recipient_private) g = (Raise (KeyError (OStr "macs")), w2)
  /\ filter is_secretbox_open (calls w2) = [].
Proof.
  intros Hh Hr Hchunk Hmacs. split.
  - rewrite decode_unfold, Hh. cbn [fst snd].
    rewrite decode_loop_step, to_bytes_ok by reflexivity. rewrite Hr.
    unfold open_chunk. cbn [getitem hashable]. rewrite Hchunk. cbn [rbind].
    unfold check_mac. cbn [getitem hashable]. rewrite Hmacs. reflexivity.
  - destruct (decode_header_calls _ _ _ _ Hh) as (_ & _ & cs & Hc & Hf & _).
    destruct (read_framed_msgpack_world _ _ _ Hr) as (_ & _ & Hc2).
    cbn [calls] in Hc, Hc2. rewrite Hc2, Hc. exact Hf.
Qed.

(** X5.  [chunks_with_empty] returns, for a message of [n] bytes, the
    [ceil(n / 100) + 1] chunks [message[100 * i : 100 * i + 100]]: chunk [i]
    has [min(100, n - 100 * i)] bytes, so that a message whose length is a
    multiple of 100 gets no short chunk, and the last chunk is the only
    empty one. *)
Theorem X5_chunk_count_and_sizes (message : bytes) :
  exists chunks,
    chunks_with_empty message = Some chunks
    /\ length chunks = (length message + 99) / 100 + 1
    /\ (forall i chunk,
          nth_error chunks i = Some chunk ->
          chunk = slice message (100 * i) (100 * i + 100)
          /\ length chunk = Nat.min 100 (length message - 100 * i))
    /\ (forall i chunk,
          nth_error chunks i = Some chunk -> (chunk = [] <-> i = length chunks - 1)).
Proof.
  destruct (chunks_with_empty_total message) as (cs & Hcs & _ & Hall & Hnth & Hlo & Hhi).
  unfold chunk_size in *.
  assert (Hn : length cs = (length message + 99) / 100).
  { apply (Nat.div_unique _ 100 _ (length message + 99 - 100 * length cs)); lia. }
  assert (Hslice : forall i chunk,
             nth_error (cs ++ [[]]) i = Some chunk ->
             chunk = slice message (100 * i) (100 * i + 100)
             /\ (i < length cs -> 0 < length chunk)
             /\ (length cs <= i -> i = length cs /\ chunk = [])).
  { intros i chunk Hi. destruct (Nat.lt_ge_cases i (length cs)) as [Hlt|Hge].
    - rewrite nth_error_app1 in Hi by exact Hlt.
      rewrite (Hnth i Hlt) in Hi. rewrite (Nat.mul_comm 100 i).
      inversion Hi. split; [reflexivity|]. split; [|lia].
      intros _. rewrite slice_length. lia.
    - rewrite nth_error_app2 in Hi by exact Hge.
      destruct (i - length cs) as [|k] eqn:Ek; [|destruct k; discriminate].
      inversion Hi. assert (i = length cs) by lia. subst i.
      split; [|split; [lia | auto]].
      unfold slice. rewrite skipn_all2 by lia. destruct (100 * length cs + 100 - 100 * length cs);
        reflexivity. }
  exists (cs ++ [[]]). split; [exact Hcs|].
  split; [rewrite length_app, Hn; reflexivity|].
  split.
  - intros i chunk Hi. destruct (Hslice i chunk Hi) as (Hc & _). split; [exact Hc|].
    rewrite Hc, slice_length. lia.
  - intros i chunk Hi. destruct (Hslice i chunk Hi) as (_ & Hpos & Hlast).
    rewrite length_app. simpl. split.
    + intros ->. destruct (Nat.lt_ge_cases i (length cs)) as [Hlt|Hge]; [|lia].
      specialize (Hpos Hlt). simpl in Hpos. lia.
    + intros ->. apply Hlast. lia.
Qed.


(** ** Streams that end too early *)

Lemma unpack_strict_prefix (o : obj) (s t : bytes) :
  wf_obj o = true -> packb o = s ++ t -> t <> [] -> unpack s = None.
Proof.
  intros Hwf Hst Ht. destruct (unpack s) as [[o' r]|] eqn:E; [|reflexivity].
  destruct (unpack_prefix _ _ _ E) as (pre & Hne & Hs & Hp).
  specialize (Hp (r ++ t)). rewrite app_assoc, <- Hs, <- Hst in Hp.
  rewrite <- (app_nil_r (packb o)) in Hp. rewrite (unpack_packb o [] Hwf) in Hp.
  inversion Hp as [[Ho Hr]]. symmetry in Hr. apply app_eq_nil in Hr.
  destruct Hr as [_ Hr]. contradiction.
Qed.

Lemma read_truncated (p o : obj) (s t : bytes) (w : world) :
  wf_obj p = true -> wf_obj o = true ->
  frame_with p o = s ++ t -> t <> [] ->
  stream w = s ->
  exists w1, read_framed_msgpack w = (Raise UnpackException, w1).
Proof.
  intros Hp Ho Hst Ht Hs. unfold frame_with in Hst.
  apply app_eq_app in Hst. destruct Hst as [l [[H1 H2]|[H1 H2]]].
  - (* the cut is inside the length, or right after it *)
    destruct l as [|x l].
    + rewrite app_nil_r in H1. simpl in H2. subst t.
      unfold read_framed_msgpack. unfold bind at 1. unfold stream_unpack at 1.
      rewrite Hs, <- H1. rewrite <- (app_nil_r (packb p)). rewrite (unpack_packb p [] Hp).
      unfold bind at 1. unfold stream_unpack at 1. cbn [stream].
      rewrite (unpack_strict_prefix o [] (packb o) Ho eq_refl Ht). eexists. reflexivity.
    + unfold read_framed_msgpack. unfold bind at 1. unfold stream_unpack at 1.
      rewrite Hs. rewrite (unpack_strict_prefix p s (x :: l) Hp H1) by discriminate.
      eexists. reflexivity.
  - unfold read_framed_msgpack. unfold bind at 1. unfold stream_unpack at 1.
    rewrite Hs, H1. rewrite (unpack_packb p l Hp).
    unfold bind at 1. unfold stream_unpack at 1. cbn [stream].
    rewrite (unpack_strict_prefix o l t Ho H2 Ht). eexists. reflexivity.
Qed.

(** X7.  [read_framed_msgpack] on a stream that ends before the end of a
    frame (at once, inside the length, between the length and the object, or
    inside the object) raises the exception of [umsgpack.unpack]. *)
Theorem X7_truncated_frame (p o : obj) (s t : bytes) (w : world) :
  wf_obj p = true -> wf_obj o = true ->
  frame_with p o = s ++ t -> t <> [] ->
  stream w = s ->
  fst (read_framed_msgpack w) = Raise UnpackException.
Proof.
  intros Hp Ho Hst Ht Hs.
  destruct (read_truncated p o s t w Hp Ho Hst Ht Hs) as [w1 ->]. reflexivity.
Qed.

(** One turn of the loop of [decode] on a chunk frame [encode] wrote. *)
Lemma decode_loop_frame_step (need_macs : bool) (mac_keys : list bytes)
    (session_key : bytes) (mac_key mac_group : obj) :
  keys_of_group need_macs mac_keys mac_key mac_group ->
  forall (chunk : bytes) (chunknum : N) (fuel : nat) (tail : bytes) (w : world),
    (chunknum < nonce_bound)%N ->
    stream w
    = frame (ODict (chunk_map need_macs mac_keys (chunk_nonce chunknum)
                      (crypto_secretbox chunk (chunk_nonce chunknum) session_key)))
      ++ tail ->
    decode_loop (S fuel) (OBytes session_key) mac_key mac_group chunknum w
    = let w' := mkWorld (entropy w) tail (output w)
                  (calls w
                   ++ [SecretboxOpen
                         (crypto_secretbox chunk (chunk_nonce chunknum) session_key)
                         (chunk_nonce chunknum) session_key]) in
      if bytes_eqb chunk [] then (Ok tt, w')
      else decode_loop fuel (OBytes session_key) mac_key mac_group (chunknum + 1)
             (mkWorld (entropy w) tail (output w ++ chunk) (calls w')).
Proof.
  intros Hkeys chunk chunknum fuel tail w Hb Hs.
  cbn [decode_loop]. unfold bind at 1. unfold lift at 1. rewrite to_bytes_ok by exact Hb.
  unfold bind at 1.
  rewrite (read_framed_msgpack_ok _ _ tail w (wf_int _) (wf_chunk _ _ _ _)
             (json_ok_chunk _ _ _ _) Hs).
  unfold bind at 1. unfold lift at 1. rewrite getitem_chunk.
  unfold bind at 1. unfold lift at 1. rewrite (check_mac_ok _ _ _ _ _ _ Hkeys).
  unfold bind at 1. unfold lift at 1. cbn [as_bytes].
  unfold bind at 1. unfold lift at 1. cbn [as_bytes].
  unfold bind at 1. unfold nacl_crypto_secretbox_open at 1.
  rewrite crypto_secretbox_open_secretbox. unfold record. cbn [entropy stream output calls].
  destruct (bytes_eqb chunk []); [reflexivity|].
  unfold bind at 1. unfold output_write at 1. cbn [entropy stream output calls].
  reflexivity.
Qed.

Lemma frame_nonempty (o : obj) : wf_obj o = true -> frame o <> [].
Proof.
  intros Hwf E. pose proof (frame_with_length (OInt (Z.of_nat (length (packb o)))) o Hwf) as H.
  rewrite <- frame_is_frame_with, E in H. simpl in H. lia.
Qed.

(** The loop on chunk frames cut before the end of the last one. *)
Lemma decode_loop_truncated (need_macs : bool) (mac_keys : list bytes)
    (session_key : bytes) (mac_key mac_group : obj) :
  keys_of_group need_macs mac_keys mac_key mac_group ->
  forall (chunks : list bytes) (chunknum : N) (fuel : nat) (w : world) (s t : bytes),
    Forall (fun c => c <> []) chunks ->
    (chunknum + N.of_nat (length chunks) < nonce_bound)%N ->
    chunk_frames need_macs mac_keys session_key chunknum (chunks ++ [[]]) = s ++ t ->
    t <> [] ->
    stream w = s ->
    length s < fuel ->
    fst (decode_loop fuel (OBytes session_key) mac_key mac_group chunknum w)
    = Raise UnpackException.
Proof.
  intros Hkeys.
  assert (Hcut : forall chunk chunknum fuel (w : world) t,
             (chunknum < nonce_bound)%N ->
             frame (ODict (chunk_map need_macs mac_keys (chunk_nonce chunknum)
                             (crypto_secretbox chunk (chunk_nonce chunknum) session_key)))
             = stream w ++ t ->
             t <> [] ->
             fst (decode_loop (S fuel) (OBytes session_key) mac_key mac_group chunknum w)
             = Raise UnpackException).
  { intros chunk chunknum fuel w t Hb Hst Ht.
    rewrite decode_loop_step, to_bytes_ok by exact Hb.
    rewrite frame_is_frame_with in Hst.
    destruct (read_truncated _ _ _ _ w (wf_int _) (wf_chunk _ _ _ _) Hst Ht eq_refl)
      as [w1 ->].
    reflexivity. }
  induction chunks as [|chunk chunks IH]; intros chunknum fuel w s t Hne Hb Hst Ht Hs Hfuel.
  - destruct fuel as [|fuel]; [lia|].
    cbn [app chunk_frames] in Hst. rewrite app_nil_r in Hst. subst s.
    apply (Hcut [] chunknum fuel w t); [simpl in Hb; lia | exact Hst | exact Ht].
  - destruct fuel as [|fuel]; [lia|].
    inversion Hne as [|? ? Hc Hne']; subst.
    cbn [app chunk_frames] in Hst. cbn [length] in Hb.
    assert (Hnb : bytes_eqb chunk [] = false).
    { destruct (bytes_eqb chunk []) eqn:E; [|reflexivity].
      apply bytes_eqb_nil in E. contradiction. }
    set (fr := frame (ODict (chunk_map need_macs mac_keys (chunk_nonce chunknum)
                               (crypto_secretbox chunk (chunk_nonce chunknum) session_key))))
      in *.
    assert (Hgo : forall l,
               stream w = fr ++ l ->
               chunk_frames need_macs mac_keys session_key (chunknum + 1) (chunks ++ [[]])
               = l ++ t ->
               fst (decode_loop (S fuel) (OBytes session_key) mac_key mac_group chunknum w)
               = Raise UnpackException).
    { intros l Hw Hl.
      rewrite (decode_loop_frame_step need_macs mac_keys session_key mac_key mac_group Hkeys
                 chunk chunknum fuel l w) by (try lia; exact Hw).
      cbv zeta. rewrite Hnb.
      apply (IH (chunknum + 1)%N fuel _ l t); [exact Hne' | lia | exact Hl | exact Ht
                                               | reflexivity |].
      rewrite Hw, length_app in Hfuel.
      pose proof (frame_nonempty _ (wf_chunk need_macs mac_keys (chunk_nonce chunknum)
                    (crypto_secretbox chunk (chunk_nonce chunknum) session_key))) as Hfr.
      fold fr in Hfr. destruct fr; [contradiction | simpl in Hfuel; lia]. }
    apply app_eq_app in Hst. destruct Hst as [l [[H1 H2]|[H1 H2]]].
    + destruct l as [|x l].
      * rewrite app_nil_r in H1. simpl in H2. apply (Hgo []).
        -- rewrite app_nil_r. congruence.
        -- simpl. congruence.
      * apply (Hcut chunk chunknum fuel w (x :: l)); [lia | | discriminate].
        fold fr. rewrite H1. reflexivity.
    + apply (Hgo l); [congruence | exact H2].
Qed.

(** X8.  A stream cut short does not pass for a message.  Whatever strict
    prefix of what [encode] returns is given to [decode], with the key of a
    recipient: [decode] raises the exception of [umsgpack.unpack] and returns
    no part of the message, wherever the cut is. *)
Theorem X8_truncated_stream (sender_private recipient_private : bytes)
    (recipient_groups : list (list bytes)) (message : bytes) (g g' : Rng) :
  valid_bytes message ->
  (exists group,
      In group recipient_groups /\ In (crypto_scalarmult_base recipient_private) group) ->
  exists out w,
    run (encode sender_private recipient_groups message) g = (Ok out, w)
    /\ forall s t,
         out = s ++ t -> t <> [] ->
         fst (run (decode s recipient_private) g') = Raise UnpackException.
Proof.
  intros Hv Hin.
  destruct (encode_spec sender_private recipient_groups message g Hv)
    as (session_key & mac_keys & rm & chunks & g1 & cs & Hrun & Hchunks & _ & _ & Hlen
        & _ & _ & _ & Hseal & _ & Hb & Hu).
  destruct (last_group _ _ Hin) as (j & group & Hj & Hr & Hlast).
  destruct (chunks_with_empty_total message) as (cs0 & Hcs0 & Hcat & Hall & _ & _ & Hhi).
  rewrite Hcs0 in Hchunks. inversion Hchunks. subst chunks.
  eexists. eexists. split; [exact Hrun|].
  set (need_macs := 1 <? length recipient_groups) in *.
  set (hdr := ODict (header_map (crypto_scalarmult_base sender_private) rm)).
  assert (Hjk : need_macs = true -> j < length mac_keys).
  { intros Hnm. rewrite Hlen, Hnm. apply nth_error_Some. congruence. }
  assert (Hrest : forall l t,
             chunk_frames need_macs mac_keys session_key 0 (cs0 ++ [[]]) = l ++ t ->
             t <> [] ->
             fst (run (decode (frame hdr ++ l) recipient_private) g') = Raise UnpackException).
  { intros l t Hl Ht. rewrite decode_unfold.
    destruct (decode_header_frame sender_private recipient_private need_macs session_key j
                (nth j mac_keys []) rm l (mkWorld g' (frame hdr ++ l) [] []) Hb Hu
                (Hseal j group _ Hj Hr Hlast) eq_refl) as [c Hhdr].
    rewrite Hhdr. cbn [entropy stream output calls fst snd].
    pose proof (decode_loop_truncated need_macs mac_keys session_key
                  (if need_macs then OBytes (nth j mac_keys []) else ONone)
                  (if need_macs then OInt (Z.of_nat j) else ONone)) as Hloop.
    match goal with
    | |- fst (let (_, _) := ?X in _) = _ =>
        assert (Hx : fst X = Raise UnpackException); [|destruct X as [[[]|e] w2];
          simpl in Hx; [discriminate | inversion Hx; reflexivity]]
    end.
    apply (Hloop) with (chunks := cs0) (s := l) (t := t).
    - unfold keys_of_group. destruct need_macs; [|reflexivity].
      exists j, (nth j mac_keys []). repeat split.
      apply nth_error_nth'. apply Hjk. reflexivity.
    - eapply Forall_impl; [|exact Hall]. intros c0 [Hc0 _] ->. simpl in Hc0. lia.
    - rewrite N.add_0_l. apply (valid_bytes_nonce_bound message); [exact Hv|].
      unfold chunk_size, bytes in *. lia.
    - exact Hl.
    - exact Ht.
    - reflexivity.
    - cbn [stream]. rewrite length_app. lia. }
  intros s t Hst Ht. apply app_eq_app in Hst. destruct Hst as [l [[H1 H2]|[H1 H2]]].
  - destruct l as [|x l].
    + rewrite app_nil_r in H1. simpl in H2. rewrite <- H1, <- (app_nil_r (frame hdr)).
      apply (Hrest [] t); [simpl; congruence | exact Ht].
    + rewrite decode_unfold. rewrite decode_header_unfold. unfold bind at 1.
      destruct (read_truncated (OInt (Z.of_nat (length (packb hdr)))) hdr s (x :: l)
                  (mkWorld g' s [] []) (wf_int _) (wf_header _ _ Hb Hu)) as [w1 ->];
        [rewrite <- frame_is_frame_with; exact H1 | discriminate | reflexivity | reflexivity].
  - rewrite H1. apply (Hrest l t); [exact H2 | exact Ht].
Qed.

(** ** Nonces and keys of the chunks *)

Lemma in_nonces_from (n : nat) (k : N) (x : bytes) :
  In x (nonces_from k n) -> exists j, j < n /\ x = chunk_nonce (k + N.of_nat j).
Proof.
  intros H. apply In_nth_error in H. destruct H as [j Hj].
  apply nth_error_nonces_from in Hj. destruct Hj as [Hx Hlt].
  exists j. split; [exact Hlt | exact Hx].
Qed.

Lemma nonces_from_NoDup (n : nat) :
  forall k, (k + N.of_nat n <= nonce_bound)%N -> NoDup (nonces_from k n).
Proof.
  induction n as [|n IH]; intros k Hb; simpl; constructor.
  - intros Hin. apply in_nonces_from in Hin. destruct Hin as (j & Hj & E).
    apply (f_equal from_bytes) in E. rewrite !from_bytes_chunk_nonce in E by lia. lia.
  - apply IH. lia.
Qed.

Lemma chunk_calls_key (session_key : bytes) :
  forall (chunks : list bytes) (i : N) (message nonce key : bytes),
    In (Secretbox message nonce key) (chunk_calls session_key i chunks) ->
    key = session_key.
Proof.
  induction chunks as [|c chunks IH]; intros i message nonce key; simpl; [intros []|].
  intros [E|Hin]; [inversion E; reflexivity | eapply IH; exact Hin].
Qed.

(** X9.  [encode] seals every chunk of a message under the one session key,
    the first 32 bytes it drew, and no two chunks under the same nonce. *)
Theorem X9_chunk_nonces_differ (sender_private : bytes)
    (recipient_groups : list (list bytes)) (message : bytes) (g : Rng) :
  valid_bytes message ->
  exists out w session_key,
    run (encode sender_private recipient_groups message) g = (Ok out, w)
    /\ hd_error (urandom_outputs 32 (calls w)) = Some session_key
    /\ NoDup (secretbox_nonces (calls w))
    /\ forall chunk nonce key,
         In (Secretbox chunk nonce key) (calls w) -> key = session_key.
Proof.
  intros Hv.
  destruct (encode_spec sender_private recipient_groups message g Hv)
    as (session_key & mac_keys & rm & chunks & g1 & cs & Hrun & Hchunks & _ & _ & _
        & _ & _ & Hsb & _).
  eexists. eexists. exists session_key. split; [exact Hrun|].
  cbn [calls]. split; [reflexivity|]. split.
  - cbn [secretbox_nonces]. rewrite secretbox_nonces_app.
    destruct (secretbox_messages_none _ Hsb) as [_ ->].
    destruct (chunk_calls_messages session_key chunks 0) as [_ ->]. simpl.
    apply nonces_from_NoDup. apply (chunks_count_bound message chunks Hv Hchunks).
  - intros chunk nonce key [E|Hin]; [discriminate|].
    apply in_app_or in Hin. destruct Hin as [Hin|Hin].
    + exfalso. assert (Hf : In (Secretbox chunk nonce key) (filter is_secretbox cs)).
      { apply filter_In. split; [exact Hin | reflexivity]. }
      rewrite Hsb in Hf. destruct Hf.
    + eapply chunk_calls_key. exact Hin.
Qed.

(** ** The recipients of the header *)

Lemma dict_lookup_of_in (d : dict) (k v : obj) :
  unique_keys (map fst d) = true -> In (k, v) d -> dict_lookup d k = Some v.
Proof.
  induction d as [|[k' v'] d IH]; simpl; [intros _ []|].
  intros Hu Hin. apply andb_true_iff in Hu. destruct Hu as [Hn Hu].
  destruct Hin as [E|Hin].
  - inversion E. subst. rewrite obj_eqb_refl. reflexivity.
  - destruct (obj_eqb k' k) eqn:E.
    + apply obj_eqb_eq in E. subst k'.
      apply negb_true_iff, existsb_obj_eqb_false in Hn.
      exfalso. apply Hn. apply in_map_iff. exists (k, v). auto.
    + apply IH; assumption.
Qed.

Lemma listed_dec (r : bytes) (recipient_groups : list (list bytes)) :
  (exists group, In group recipient_groups /\ In r group)
  \/ (forall group, In group recipient_groups -> ~ In r group).
Proof.
  induction recipient_groups as [|a groups IH].
  - right. intros group [].
  - destruct (in_dec (list_eq_dec Byte.byte_eq_dec) r a) as [Ha|Ha].
    + left. exists a. split; [left; reflexivity | exact Ha].
    + destruct IH as [(x & Hx & Hrx)|Hno].
      * left. exists x. split; [right; exact Hx | exact Hrx].
      * right. intros group [<-|Hg]; [exact Ha | apply Hno; exact Hg].
Qed.

(** X10.  The [recipients] dictionary of the header [encode] writes has an
    entry for a key exactly when the key is listed in some group, one entry
    for each such key however often it is listed, and nothing else: every
    entry is a byte string, a 24-byte nonce followed by a box that the
    sender sealed to that key under that nonce. *)
Theorem X10_recipients_of_the_header (sender_private : bytes)
    (recipient_groups : list (list bytes)) (message : bytes) (g : Rng) :
  valid_bytes message ->
  exists out w recipients_map chunk_bytes,
    run (encode sender_private recipient_groups message) g = (Ok out, w)
    /\ out = frame (ODict (header_map (crypto_scalarmult_base sender_private) recipients_map))
             ++ chunk_bytes
    /\ NoDup (map fst recipients_map)
    /\ (forall k,
          dict_lookup recipients_map k <> None
          <-> exists group r, In group recipient_groups /\ In r group /\ k = OBytes r)
    /\ (forall k v,
          In (k, v) recipients_map ->
          exists r nonce payload,
            k = OBytes r /\ length nonce = 24
            /\ v = OBytes (nonce ++ crypto_box payload nonce sender_private r)).
Proof.
  intros Hv.
  destruct (encode_spec sender_private recipient_groups message g Hv)
    as (session_key & mac_keys & rm & chunks & g1 & cs & Hrun & _ & _ & _ & _
        & _ & _ & _ & Hseal & Hoth & Hb & Hu).
  assert (Hlisted : forall r,
             (exists group, In group recipient_groups /\ In r group) ->
             exists payload, sealed_to rm sender_private r payload).
  { intros r Hin. destruct (last_group _ _ Hin) as (j & group & Hj & Hr & Hlast).
    eexists. apply (Hseal j group r Hj Hr Hlast). }
  assert (Hiff : forall k,
             dict_lookup rm k <> None
             <-> exists group r, In group recipient_groups /\ In r group /\ k = OBytes r).
  { intros k. split.
    - intros Hk. destruct k as [| | |b| |];
        try (exfalso; apply Hk, Hoth; intros group r _ _; discriminate).
      destruct (listed_dec b recipient_groups) as [(group & Hg & Hr)|Hno].
      + exists group, b. auto.
      + exfalso. apply Hk, Hoth. intros group r Hg Hr E. inversion E. subst r.
        exact (Hno group Hg Hr).
    - intros (group & r & Hg & Hr & ->).
      destruct (Hlisted r) as (payload & nonce & _ & Hlook); [eauto|].
      rewrite Hlook. discriminate. }
  eexists. eexists. exists rm. eexists. split; [exact Hrun|].
  split; [reflexivity|].
  split; [apply unique_keys_NoDup; exact Hu|].
  split; [exact Hiff|].
  intros k v Hin.
  pose proof (dict_lookup_of_in rm k v Hu Hin) as Hlook.
  assert (Hk : dict_lookup rm k <> None) by (rewrite Hlook; discriminate).
  apply Hiff in Hk. destruct Hk as (group & r & Hg & Hr & ->).
  destruct (Hlisted r) as (payload & nonce & Hn & Hlook'); [eauto|].
  rewrite Hlook' in Hlook. inversion Hlook.
  exists r, nonce, payload. auto.
Qed.

(** ** What [decode] returns and what it calls, on any input *)

Lemma secretbox_open_results_app (a b : list call) :
  secretbox_open_results (a ++ b) = secretbox_open_results a ++ secretbox_open_results b.
Proof.
  induction a as [|c a IH]; simpl; [reflexivity|].
  destruct c; simpl; rewrite ?IH; reflexivity.
Qed.

Lemma secretbox_open_results_none (cs : list call) :
  filter is_secretbox_open cs = [] -> secretbox_open_results cs = [].
Proof.
  induction cs as [|c cs IH]; simpl; [auto|].
  destruct c; simpl; auto. discriminate.
Qed.

(** The loop, when it ends without raising: the chunks it opened and wrote. *)
Lemma decode_loop_output (session_key mac_key mac_group : obj) :
  forall (fuel : nat) (chunknum : N) (w w' : world),
    decode_loop fuel session_key mac_key mac_group chunknum w = (Ok tt, w') ->
    exists cs chunks,
      calls w' = calls w ++ cs
      /\ secretbox_open_results cs = map Some (chunks ++ [[]])
      /\ Forall (fun c => c <> []) chunks
      /\ output w' = output w ++ concat chunks.
Proof.
  induction fuel as [|fuel IH]; intros chunknum w w'; [discriminate|].
  rewrite decode_loop_step.
  destruct (to_bytes chunknum 24) as [nonce|e]; [|discriminate].
  destruct (read_framed_msgpack w) as [[cm|e] w1] eqn:Er; [|discriminate].
  destruct (read_framed_msgpack_world _ _ _ Er) as (_ & Ho1 & Hc1).
  destruct (open_chunk session_key mac_key mac_group nonce cm) as [[ct key]|e];
    [|discriminate].
  cbv zeta.
  destruct (crypto_secretbox_open ct nonce key) as [chunk|] eqn:Ec; [|discriminate].
  destruct (bytes_eqb chunk []) eqn:Ee.
  - intros H. inversion H. subst w'. apply bytes_eqb_nil in Ee. subst chunk.
    exists [SecretboxOpen ct nonce key], []. unfold record. cbn [calls output].
    rewrite Hc1, Ho1, app_nil_r. simpl. rewrite Ec. auto.
  - intros H. apply IH in H. destruct H as (cs & chunks & Hcs & Hres & Hne & Hout).
    unfold record in Hcs, Hout. cbn [calls output] in Hcs, Hout.
    exists (SecretboxOpen ct nonce key :: cs), (chunk :: chunks).
    split; [rewrite Hcs, Hc1, <- app_assoc; reflexivity|].
    split; [simpl; rewrite Ec, Hres; reflexivity|].
    split.
    + constructor; [|exact Hne]. intros ->. discriminate.
    + rewrite Hout, Ho1, <- app_assoc. reflexivity.
Qed.

(** X11.  Whatever the input, when [decode] returns it returns the
    plaintexts that its [crypto_secretbox_open] calls answered, joined in
    the order of the calls: every call succeeded, the last one answered the
    empty plaintext and no other did. *)
Theorem X11_decode_returns_what_it_opened (input recipient_private P : bytes) (g : Rng)
    (w : world) :
  run (decode input recipient_private) g = (Ok P, w) ->
  exists chunks,
    secretbox_open_results (calls w) = map Some (chunks ++ [[]])
    /\ Forall (fun c => c <> []) chunks
    /\ P = concat chunks.
Proof.
  rewrite decode_unfold.
  destruct (decode_header recipient_private (mkWorld g input [] [])) as [[keys|e] w1] eqn:Eh;
    [|discriminate].
  destruct (decode_header_calls _ _ _ _ Eh) as (_ & _ & cs0 & Hc0 & Hf0 & _).
  cbn [calls] in Hc0.
  destruct (decode_loop _ _ _ _ _ _) as [[[]|e] w2] eqn:El; [|discriminate].
  intros H. inversion H. subst.
  destruct (decode_loop_output _ _ _ _ _ _ _ El) as (cs & chunks & Hcs & Hres & Hne & Hout).
  cbn [calls output] in Hcs, Hout.
  simpl in Hc0. exists chunks. rewrite Hcs, Hc0, secretbox_open_results_app.
  rewrite (secretbox_open_results_none cs0 Hf0). simpl. auto.
Qed.

(** What one run of the loop calls and reads. *)
Lemma decode_loop_bound (session_key mac_key mac_group : obj) :
  forall (fuel : nat) (chunknum : N) (w w' : world) (r : result unit),
    decode_loop fuel session_key mac_key mac_group chunknum w = (r, w') ->
    entropy w' = entropy w
    /\ exists cs,
         calls w' = calls w ++ cs
         /\ Forall (fun c => is_secretbox_open c = true) cs
         /\ length cs + length (stream w') <= length (stream w).
Proof.
  induction fuel as [|fuel IH]; intros chunknum w w' r.
  - simpl. unfold raise. intros H. inversion H. subst. split; [reflexivity|].
    exists []. rewrite app_nil_r. repeat split; [constructor | simpl; lia].
  - rewrite decode_loop_step.
    assert (Hnil : forall (w0 : world),
               entropy w0 = entropy w -> calls w0 = calls w ->
               length (stream w0) <= length (stream w) ->
               entropy w0 = entropy w
               /\ exists cs, calls w0 = calls w ++ cs
                    /\ Forall (fun c => is_secretbox_open c = true) cs
                    /\ length cs + length (stream w0) <= length (stream w)).
    { intros w0 He Hc Hl. split; [exact He|]. exists []. rewrite app_nil_r.
      repeat split; [exact Hc | constructor | simpl; lia]. }
    destruct (to_bytes chunknum 24) as [nonce|e].
    2:{ intros H. inversion H. subst. apply Hnil; auto. }
    destruct (read_framed_msgpack w) as [[cm|e] w1] eqn:Er.
    2:{ intros H. inversion H. subst.
        destruct (read_framed_msgpack_inv _ _ _ Er) as (He & _ & Hc & Hl & _).
        apply Hnil; auto. }
    destruct (read_framed_msgpack_world _ _ _ Er) as (He1 & _ & Hc1).
    pose proof (read_framed_msgpack_consumes _ _ _ Er) as Hl1.
    destruct (open_chunk session_key mac_key mac_group nonce cm) as [[ct key]|e].
    2:{ intros H. inversion H. subst. apply Hnil; auto. lia. }
    cbv zeta.
    assert (Hone : forall (w0 : world),
               entropy w0 = entropy w1 ->
               calls w0 = calls w1 ++ [SecretboxOpen ct nonce key] ->
               stream w0 = stream w1 ->
               entropy w0 = entropy w
               /\ exists cs, calls w0 = calls w ++ cs
                    /\ Forall (fun c => is_secretbox_open c = true) cs
                    /\ length cs + length (stream w0) <= length (stream w)).
    { intros w0 He Hc Hs. split; [congruence|].
      exists [SecretboxOpen ct nonce key]. rewrite Hc, Hc1, Hs.
      repeat split; [repeat constructor | simpl; lia]. }
    destruct (crypto_secretbox_open ct nonce key) as [chunk|].
    2:{ intros H. inversion H. subst. apply Hone; reflexivity. }
    destruct (bytes_eqb chunk []).
    { intros H. inversion H. subst. apply Hone; reflexivity. }
    intros H. apply IH in H. destruct H as (He & cs & Hcs & Hall & Hl).
    unfold record in He, Hcs, Hl. cbn [entropy stream calls] in He, Hcs, Hl.
    split; [congruence|].
    exists (SecretboxOpen ct nonce key :: cs).
    split; [rewrite Hcs, Hc1, <- app_assoc; reflexivity|].
    split; [constructor; [reflexivity | exact Hall]|].
    simpl. lia.
Qed.

(** The lines before the loop call [crypto_box_open] once when they go
    through, and at most once when they raise. *)
Lemma decode_header_box_open (recipient_private : bytes) (w w' : world)
    (r : result (obj * obj * obj)) :
  decode_header recipient_private w = (r, w') ->
  entropy w' = entropy w
  /\ ((calls w' = calls w /\ exists e, r = Raise e)
      \/ exists ciphertext nonce pk,
           calls w' = calls w ++ [BoxOpen ciphertext nonce recipient_private pk]).
Proof.
  unfold decode_header. unfold bind at 1.
  destruct (read_framed_msgpack w) as [[hm|e] w1] eqn:Er.
  2:{ intros H. inversion H. subst.
      destruct (read_framed_msgpack_world _ _ _ Er) as (He & Ho & Hc). eauto 6. }
  destruct (read_framed_msgpack_world _ _ _ Er) as (He & Ho & Hc).
  assert (Hnil : forall e0, (@Raise (obj * obj * obj) e0, w1) = (r, w') ->
             entropy w' = entropy w
             /\ ((calls w' = calls w /\ exists e, r = Raise e)
                 \/ exists ciphertext nonce pk,
                      calls w' = calls w ++ [BoxOpen ciphertext nonce recipient_private pk])).
  { intros e0 H. inversion H. subst. eauto 6. }
  rewrite bind_lift. destruct (getitem hm (OStr "sender")) as [sp|e]; [|apply Hnil].
  rewrite bind_lift. destruct (getitem hm (OStr "recipients")) as [rs|e]; [|apply Hnil].
  rewrite bind_lift. destruct (getitem rs _) as [bkm|e]; [|apply Hnil].
  rewrite bind_lift. destruct (as_bytes bkm) as [boxed|e]; [|apply Hnil].
  rewrite bind_lift. destruct (as_bytes sp) as [sender|e]; [|apply Hnil].
  unfold bind at 1. unfold nacl_crypto_box_open at 1.
  set (c := BoxOpen (skipn 24 boxed) (firstn 24 boxed) recipient_private sender).
  assert (Hone : forall r0, (r0, record c w1) = (r, w') ->
             entropy w' = entropy w
             /\ ((calls w' = calls w /\ exists e, r = Raise e)
                 \/ exists ciphertext nonce pk,
                      calls w' = calls w ++ [BoxOpen ciphertext nonce recipient_private pk])).
  { intros r0 H. inversion H. subst. unfold record. cbn [entropy calls].
    split; [exact He|]. right. rewrite Hc. unfold c. eauto. }
  destruct (crypto_box_open _ _ _ _) as [kmm|]; [|apply Hone].
  rewrite bind_lift. destruct (unpackb kmm) as [km|e]; [|apply Hone].
  rewrite bind_lift. destruct (json_repr km) as [text|e]; [|apply Hone].
  rewrite bind_lift. destruct (getitem km (OStr "session_key")) as [sk|e]; [|apply Hone].
  rewrite bind_lift. destruct (get_method km (OStr "mac_key")) as [mk|e]; [|apply Hone].
  rewrite bind_lift. destruct (get_method km (OStr "mac_group")) as [mg|e]; [|apply Hone].
  apply Hone.
Qed.

(** X12.  [decode] ends on every input: each turn of its [while True] loop
    reads at least one byte, so that it opens at most as many chunks as the
    input has bytes and the loop is left, by [break] or by an exception. *)
Theorem X12_decode_ends (input recipient_private : bytes) (g : Rng) :
  fst (run (decode input recipient_private) g) <> Raise FuelExhausted
  /\ length (filter is_secretbox_open (calls (snd (run (decode input recipient_private) g))))
     <= length input.
Proof.
  split; [apply decode_fuel_enough|].
  rewrite decode_unfold.
  destruct (decode_header recipient_private (mkWorld g input [] [])) as [[keys|e] w1] eqn:Eh.
  - pose proof (decode_header_length _ _ _ _ Eh) as Hl. cbn [stream] in Hl.
    destruct (decode_header_calls _ _ _ _ Eh) as (_ & _ & cs0 & Hc0 & Hf0 & _).
    simpl in Hc0.
    destruct (decode_loop _ _ _ _ _ _) as [r w2] eqn:El.
    destruct (decode_loop_bound _ _ _ _ _ _ _ _ El) as (_ & cs & Hcs & Hall & Hlen).
    cbn [calls stream] in Hcs, Hlen.
    assert (Hw2 : length (filter is_secretbox_open (calls w2)) <= length input).
    { rewrite Hcs, Hc0, filter_app, Hf0. simpl.
      pose proof (filter_length_le is_secretbox_open cs). lia. }
    destruct r as [[]|e]; exact Hw2.
  - cbn [snd]. destruct (decode_header_calls _ _ _ _ Eh) as (_ & _ & cs0 & Hc0 & Hf0 & _).
    simpl in Hc0. rewrite Hc0, Hf0. simpl. lia.
Qed.

(** X13.  [decode] draws no randomness and seals nothing: whatever the
    input, it calls [crypto_box_open] at most once, with the recipient's
    private key and before anything else, and after it only
    [crypto_secretbox_open]. *)
Theorem X13_decode_calls (input recipient_private : bytes) (g : Rng) :
  let w := snd (run (decode input recipient_private) g) in
  entropy w = g
  /\ (calls w = []
      \/ exists ciphertext nonce pk cs,
           calls w = BoxOpen ciphertext nonce recipient_private pk :: cs
           /\ Forall (fun c => is_secretbox_open c = true) cs).
Proof.
  cbv zeta. rewrite decode_unfold.
  destruct (decode_header recipient_private (mkWorld g input [] [])) as [[keys|e] w1] eqn:Eh.
  - destruct (decode_header_box_open _ _ _ _ Eh) as (He & [[_ [e He']]|(ct & n & pk & Hc)]);
      [discriminate|].
    cbn [entropy calls] in He, Hc.
    destruct (decode_loop _ _ _ _ _ _) as [r w2] eqn:El.
    destruct (decode_loop_bound _ _ _ _ _ _ _ _ El) as (He2 & cs & Hcs & Hall & _).
    cbn [entropy calls] in He2, Hcs.
    assert (Hw2 : entropy w2 = g
                  /\ (calls w2 = []
                      \/ exists ciphertext nonce pk cs,
                           calls w2 = BoxOpen ciphertext nonce recipient_private pk :: cs
                           /\ Forall (fun c => is_secretbox_open c = true) cs)).
    { split; [congruence|]. right. exists ct, n, pk, cs. rewrite Hcs, Hc. auto. }
    destruct r as [[]|e]; exact Hw2.
  - cbn [snd]. destruct (decode_header_box_open _ _ _ _ Eh) as (He & [[Hc _]|(ct & n & pk & Hc)]);
      cbn [entropy calls] in He, Hc; (split; [exact He|]).
    + left. exact Hc.
    + right. exists ct, n, pk, []. rewrite Hc. auto.
Qed.

(** ** [json_repr] *)

Lemma forallb_dict_set (P : obj * obj -> bool) (d : dict) (k v : obj) :
  (forall k', obj_eqb k' k = true -> P (k', v) = P (k, v)) ->
  forallb P d = true -> P (k, v) = true -> forallb P (dict_set d k v) = true.
Proof.
  intros Hk. induction d as [|[k' v'] d IH]; simpl; intros Hd Hp.
  - rewrite Hp. reflexivity.
  - apply andb_true_iff in Hd. destruct Hd as [H1 H2].
    destruct (obj_eqb k' k) eqn:E; simpl.
    + rewrite (Hk k' E), Hp, H2. reflexivity.
    + rewrite H1, IH by assumption. reflexivity.
Qed.

Lemma repr_list_no_bytes (l : list obj) :
  Forall (fun x => forall r, recurse_repr x = Ok r -> no_bytes r = true) l ->
  forall l', repr_list l = Ok l' -> forallb no_bytes l' = true.
Proof.
  induction 1 as [|x l Hx Hl IH]; intros l'; simpl.
  - intros H. inversion H. reflexivity.
  - destruct (recurse_repr x) as [x'|] eqn:Ex; simpl; [|discriminate].
    destruct (repr_list l) as [r|]; simpl; [|discriminate].
    intros H. inversion H. simpl. rewrite (Hx x' eq_refl), (IH r eq_refl). reflexivity.
Qed.

Lemma repr_items_no_bytes (d : dict) :
  Forall (fun kv => (forall r, recurse_repr (fst kv) = Ok r -> no_bytes r = true)
                    /\ (forall r, recurse_repr (snd kv) = Ok r -> no_bytes r = true)) d ->
  forall acc d',
    forallb (fun kv => no_bytes (fst kv) && no_bytes (snd kv)) acc = true ->
    repr_items d acc = Ok d' ->
    forallb (fun kv => no_bytes (fst kv) && no_bytes (snd kv)) d' = true.
Proof.
  induction 1 as [|[k v] d [Hk Hv] Hd IH]; intros acc d' Hacc; simpl.
  - intros H. inversion H. subst. exact Hacc.
  - simpl in Hk, Hv.
    destruct (recurse_repr k) as [k'|] eqn:Ek; simpl; [|discriminate].
    destruct (recurse_repr v) as [v'|] eqn:Ev; simpl; [|discriminate].
    destruct (hashable k'); [|discriminate].
    apply IH. apply forallb_dict_set.
    + intros k0 E. apply obj_eqb_eq in E. subst k0. reflexivity.
    + exact Hacc.
    + simpl. rewrite (Hk k' eq_refl), (Hv v' eq_refl). reflexivity.
Qed.

(** X14.  The object that [json_repr] hands to [json.dumps] holds no byte
    string: [_recurse_repr] has replaced every one of them, at every depth
    of lists and dictionaries and among the keys, by its base64 text. *)
Theorem X14_recurse_repr_leaves_no_bytes (o r : obj) :
  recurse_repr o = Ok r -> no_bytes r = true.
Proof.
  revert r. induction o using obj_ind'; intros r0.
  - intros E. inversion E. reflexivity.
  - intros E. inversion E. reflexivity.
  - intros E. inversion E. reflexivity.
  - intros E. inversion E. reflexivity.
  - rewrite recurse_repr_list.
    destruct (repr_list l) as [l'|] eqn:El; simpl; [|discriminate].
    intros E. inversion E. simpl. apply (repr_list_no_bytes l H l' El).
  - rewrite recurse_repr_dict.
    destruct (repr_items d []) as [d'|] eqn:Ed; simpl; [|discriminate].
    intros E. inversion E. simpl. apply (repr_items_no_bytes d H [] d' eq_refl Ed).
Qed.

Lemma recurse_repr_hashable (o r : obj) : recurse_repr o = Ok r -> hashable r = hashable o.
Proof.
  destruct o; try (intros E; inversion E; reflexivity).
  - rewrite recurse_repr_list. destruct (repr_list l); simpl; [|discriminate].
    intros E. inversion E. reflexivity.
  - rewrite recurse_repr_dict. destruct (repr_items d []); simpl; [|discriminate].
    intros E. inversion E. reflexivity.
Qed.

Lemma repr_list_ok (l : list obj) :
  (exists l', repr_list l = Ok l') <-> Forall (fun x => exists r, recurse_repr x = Ok r) l.
Proof.
  induction l as [|x l IH]; simpl.
  - split; [constructor | eauto].
  - split.
    + intros [l' H].
      destruct (recurse_repr x) as [x'|] eqn:Ex; simpl in H; [|discriminate].
      destruct (repr_list l) as [r|] eqn:El; simpl in H; [|discriminate].
      constructor; [eauto | apply IH; eauto].
    + intros H. inversion H as [|? ? [r Hr] Hl]; subst. rewrite Hr. simpl.
      apply IH in Hl. destruct Hl as [l' ->]. simpl. eauto.
Qed.

Lemma recurse_repr_keys_hashable (o : obj) :
  (exists r, recurse_repr o = Ok r) <-> keys_hashable o = true.
Proof.
  induction o using obj_ind'; try (split; [reflexivity | simpl; eauto]).
  - rewrite recurse_repr_list. cbn [keys_hashable]. rewrite forallb_forall.
    rewrite Forall_forall in H. split.
    + intros [r Hr]. destruct (repr_list l) as [l'|] eqn:El; [|discriminate].
      assert (Hall : Forall (fun x => exists r, recurse_repr x = Ok r) l)
        by (apply repr_list_ok; eauto).
      rewrite Forall_forall in Hall. intros x Hx. apply (H x Hx). apply Hall. exact Hx.
    + intros Hk.
      assert (Hall : Forall (fun x => exists r, recurse_repr x = Ok r) l).
      { apply Forall_forall. intros x Hx. apply (H x Hx). apply Hk. exact Hx. }
      apply repr_list_ok in Hall. destruct Hall as [l' ->]. simpl. eauto.
  - rewrite recurse_repr_dict. cbn [keys_hashable]. rewrite forallb_forall.
    rewrite Forall_forall in H.
    assert (Hiff : (exists r, rbind (repr_items d []) (fun d' => Ok (ODict d')) = Ok r)
                   <-> Forall entry_ok d).
    { rewrite <- (repr_items_ok d []). split.
      - intros [r Hr]. destruct (repr_items d []) as [d'|]; [eauto | discriminate].
      - intros [d' ->]. simpl. eauto. }
    rewrite Hiff, Forall_forall. split.
    + intros He [k v] Hin. destruct (He _ Hin) as (k' & v' & Hk & Hv & Hh).
      cbn [fst snd] in *. apply andb_true_iff. split.
      * rewrite <- (recurse_repr_hashable k k' Hk). exact Hh.
      * apply (H _ Hin). eauto.
    + intros Hk [k v] Hin. specialize (Hk _ Hin). cbn [fst snd] in Hk.
      apply andb_true_iff in Hk. destruct Hk as [Hh Hv].
      destruct (proj2 (proj2 (H _ Hin)) Hv) as [v' Hv'].
      assert (Hk : exists k', recurse_repr k = Ok k').
      { destruct k; simpl; eauto; discriminate. }
      destruct Hk as [k' Hk']. exists k', v'. cbn [fst snd].
      rewrite (recurse_repr_hashable k k' Hk'). auto.
Qed.


(** ** The header's [version] *)

Lemma dict_lookup_without_version (d : dict) (k : obj) :
  k <> OStr "version" -> dict_lookup (without_version d) k = dict_lookup d k.
Proof.
  intros Hk. induction d as [|[k' v'] d IH]; simpl; [reflexivity|].
  destruct (obj_eqb k' (OStr "version")) eqn:E; simpl.
  - apply obj_eqb_eq in E. subst k'.
    assert (obj_eqb (OStr "version") k = false) as ->.
    { apply obj_eqb_neq. congruence. }
    exact IH.
  - rewrite IH. reflexivity.
Qed.

Lemma entry_ok_without_version (d : dict) :
  (forall v, In (OStr "version", v) d -> exists z, v = OInt z) ->
  (Forall entry_ok d <-> Forall entry_ok (without_version d)).
Proof.
  intros Hm. rewrite !Forall_forall. unfold without_version. split.
  - intros H kv Hin. apply filter_In in Hin. apply H. apply Hin.
  - intros H [k v] Hin.
    destruct (obj_eqb k (OStr "version")) eqn:E.
    + apply obj_eqb_eq in E. subst k. destruct (Hm v Hin) as [z ->].
      exists (OStr "version"), (OInt z). cbn [fst snd]. auto.
    + apply H. apply filter_In. split; [exact Hin|]. simpl. rewrite E. reflexivity.
Qed.

Lemma version_edit_getitem (o1 o2 : obj) (k : obj) :
  version_edit o1 o2 -> k <> OStr "version" -> getitem o1 k = getitem o2 k.
Proof.
  intros (d1 & d2 & -> & -> & Hw & _) Hk. simpl.
  rewrite <- (dict_lookup_without_version d1 k Hk), <- (dict_lookup_without_version d2 k Hk), Hw.
  reflexivity.
Qed.

Lemma version_edit_same_dump (o1 o2 : obj) : version_edit o1 o2 -> same_dump o1 o2.
Proof.
  intros (d1 & d2 & -> & -> & Hw & H1 & H2). apply same_dump_of_iff.
  rewrite !recurse_repr_dict.
  assert (Hiff : forall d, (exists r, rbind (repr_items d []) (fun d' => Ok (ODict d')) = Ok r)
                           <-> Forall entry_ok d).
  { intros d. rewrite <- (repr_items_ok d []). split.
    - intros [r Hr]. destruct (repr_items d []) as [d'|]; [eauto | discriminate].
    - intros [d' ->]. simpl. eauto. }
  rewrite !Hiff, (entry_ok_without_version d1 H1), (entry_ok_without_version d2 H2), Hw.
  reflexivity.
Qed.

Lemma version_edit_header_compat (o1 o2 : obj) :
  o1 = o2 \/ version_edit o1 o2 -> header_compat o1 o2.
Proof.
  intros [->|H]; [repeat split; reflexivity|].
  split; [apply version_edit_same_dump; exact H|].
  split; apply version_edit_getitem; try exact H; discriminate.
Qed.

Lemma version_edit_chunk_compat (mac_key o1 o2 : obj) :
  o1 = o2 \/ version_edit o1 o2 -> chunk_compat mac_key o1 o2.
Proof.
  intros [->|H]; [split; reflexivity|].
  split; [apply version_edit_same_dump; exact H|].
  intros session_key mac_group nonce. unfold open_chunk, check_mac.
  rewrite (version_edit_getitem o1 o2 (OStr "chunk") H) by discriminate.
  rewrite (version_edit_getitem o1 o2 (OStr "macs") H) by discriminate.
  reflexivity.
Qed.

(** X16.  [decode] never looks at the [version] of the header.  Two streams
    whose header dictionaries differ only under [version] (another integer,
    or no [version] at all), followed by the same bytes, get the same answer
    from [decode], the same plaintext or the same exception, after the same
    calls. *)
Theorem X16_version_unread (header1 header2 : obj) (rest recipient_private : bytes)
    (g : Rng) :
  wf_obj header1 = true ->
  wf_obj header2 = true ->
  version_edit header1 header2 ->
  let s1 := frame header1 ++ rest in
  let s2 := frame header2 ++ rest in
  fst (run (decode s1 recipient_private) g) = fst (run (decode s2 recipient_private) g)
  /\ calls (snd (run (decode s1 recipient_private) g))
     = calls (snd (run (decode s2 recipient_private) g)).
Proof.
  intros H1 H2 He s1 s2.
  destruct (decode_rel (fun o1 o2 => o1 = o2 \/ version_edit o1 o2) recipient_private s1 s2 g)
    as (r & w1 & w2 & -> & -> & Hrel).
  - apply version_edit_header_compat.
  - intros keys w _ o1 o2 HQ. apply version_edit_chunk_compat. exact HQ.
  - unfold s1, s2. rewrite !frame_is_frame_with.
    constructor; auto; try reflexivity. constructor.
  - split; [reflexivity | apply Hrel].
Qed.

(** ** The tags of the other groups *)

Lemma seq_index_nth_error {A : Type} (l : list A) (j : nat) :
  seq_index l (Z.of_nat j)
  = match nth_error l j with
    | Some x => Ok x
    | None => Raise IndexError
    end.
Proof.
  destruct (nth_error l j) as [x|] eqn:E; [apply seq_index_nat; exact E|].
  apply nth_error_None in E. unfold seq_index.
  destruct (Z.ltb_spec (Z.of_nat j) 0); [lia|].
  destruct (Z.ltb_spec (Z.of_nat j) (Z.of_nat (length l))); [lia|].
  rewrite andb_false_r. reflexivity.
Qed.

Lemma other_tags_macs_edit (j : nat) (o1 o2 : obj) :
  wf_obj o1 = true -> wf_obj o2 = true -> other_tags_edit j o1 o2 -> macs_edit o1 o2.
Proof.
  intros W1 W2 (d1 & d2 & tags1 & tags2 & -> & -> & Hw & L1 & L2 & _).
  simpl in W1, W2. apply andb_true_iff in W1, W2. destruct W1 as [U1 _], W2 as [U2 _].
  exists d1, d2. repeat split; auto.
  - intros v Hin. rewrite (dict_lookup_of_in d1 _ _ U1 Hin) in L1. inversion L1.
    exists tags1. reflexivity.
  - intros v Hin. rewrite (dict_lookup_of_in d2 _ _ U2 Hin) in L2. inversion L2.
    exists tags2. reflexivity.
Qed.

Lemma other_tags_chunk_compat (j : nat) (mac_key o1 o2 : obj) :
  o1 = o2 \/ (wf_obj o1 = true /\ wf_obj o2 = true /\ other_tags_edit j o1 o2) ->
  chunk_compat_at mac_key (OInt (Z.of_nat j)) o1 o2.
Proof.
  intros [->|(W1 & W2 & H)]; [split; reflexivity|].
  pose proof (other_tags_macs_edit j o1 o2 W1 W2 H) as Hm.
  split; [apply macs_edit_same_dump; exact Hm|].
  intros session_key nonce. unfold open_chunk.
  rewrite (macs_edit_getitem o1 o2 (OStr "chunk") Hm) by discriminate.
  destruct (getitem o2 (OStr "chunk")) as [boxed|e]; [|reflexivity]. cbn [rbind].
  assert (Hcheck : check_mac mac_key (OInt (Z.of_nat j)) nonce o1 boxed
                   = check_mac mac_key (OInt (Z.of_nat j)) nonce o2 boxed).
  { destruct H as (d1 & d2 & tags1 & tags2 & -> & -> & _ & L1 & L2 & Hj).
    unfold check_mac. cbn [getitem hashable]. rewrite L1, L2. cbn [rbind getitem].
    rewrite !seq_index_nth_error, !nth_error_map, Hj. reflexivity. }
  rewrite Hcheck. reflexivity.
Qed.

Lemma decode_loop_rel_at (Q : obj -> obj -> Prop) (session_key mac_key mac_group : obj) :
  (forall o1 o2, Q o1 o2 -> chunk_compat_at mac_key mac_group o1 o2) ->
  forall (fuel : nat) (chunknum : N) (w1 w2 : world),
    world_rel Q w1 w2 ->
    exists r w1' w2',
      decode_loop fuel session_key mac_key mac_group chunknum w1 = (r, w1')
      /\ decode_loop fuel session_key mac_key mac_group chunknum w2 = (r, w2')
      /\ world_rel Q w1' w2'.
Proof.
  intros Hcompat. induction fuel as [|fuel IH]; intros chunknum w1 w2 Hrel.
  - simpl. unfold raise. rel_done.
  - rewrite !decode_loop_step.
    destruct (to_bytes chunknum 24) as [nonce|e]; [|rel_done].
    destruct (read_framed_msgpack_rel Q w1 w2 Hrel)
      as [->|(o1 & o2 & w1' & w2' & HQ & Hrel' & -> & ->)].
    { match goal with
      | |- exists r w1' w2', ?X = _ /\ _ => exists (fst X), (snd X), (snd X)
      end.
      repeat split; try (destruct (read_framed_msgpack w2) as [[?|?] ?]; reflexivity);
        try apply surjective_pairing; constructor. }
    destruct (Hcompat o1 o2 HQ) as [Hdump Hopen].
    destruct (same_dump_cases _ _ Hdump) as [(t1 & t2 & -> & ->)|(e & -> & ->)];
      cbn [rbind]; [|rel_done].
    rewrite Hopen.
    destruct (open_chunk session_key mac_key mac_group nonce o2) as [[ct key]|e]; [|rel_done].
    cbv zeta.
    assert (Hrec : world_rel Q (record (SecretboxOpen ct nonce key) w1')
                     (record (SecretboxOpen ct nonce key) w2')).
    { destruct Hrel' as (He & Ho & Hc & Hs). unfold record.
      repeat split; simpl; first [assumption | congruence]. }
    destruct (crypto_secretbox_open ct nonce key) as [chunk|]; [|rel_done].
    destruct (bytes_eqb chunk []); [rel_done|].
    apply IH. unfold record in Hrec. destruct Hrec as (He & Ho & Hc & Hs).
    simpl in He, Ho, Hc, Hs.
    repeat split; simpl; first [assumption | congruence].
Qed.

Lemma decode_rel_at (Q : obj -> obj -> Prop) (recipient_private s1 s2 : bytes) (g : Rng) :
  (forall o1 o2, Q o1 o2 -> header_compat o1 o2) ->
  (forall keys w,
      decode_header recipient_private (mkWorld g s1 [] []) = (Ok keys, w) ->
      forall o1 o2, Q o1 o2 -> chunk_compat_at (snd (fst keys)) (snd keys) o1 o2) ->
  stream_rel Q s1 s2 ->
  exists r w1 w2,
    run (decode s1 recipient_private) g = (r, w1)
    /\ run (decode s2 recipient_private) g = (r, w2)
    /\ world_rel Q w1 w2.
Proof.
  intros Hh Hc Hs. rewrite !decode_unfold.
  destruct (decode_header_rel Q recipient_private Hh (mkWorld g s1 [] []) (mkWorld g s2 [] []))
    as (r & w1 & w2 & H1 & H2 & Hrel).
  { repeat split. exact Hs. }
  pose proof (decode_header_length _ _ _ _ H1) as Hl1.
  pose proof (decode_header_length _ _ _ _ H2) as Hl2.
  cbn [stream] in Hl1, Hl2.
  rewrite H1, H2. destruct r as [keys|e]; [|rel_done].
  set (F := S (length s1 + length s2)).
  rewrite (decode_loop_fuel _ _ _ (S (length s1)) F) by (cbn [stream]; unfold F; lia).
  rewrite (decode_loop_fuel _ _ _ (S (length s2)) F) by (cbn [stream]; unfold F; lia).
  destruct (decode_loop_rel_at Q (fst (fst keys)) (snd (fst keys)) (snd keys)
              (Hc keys w1 H1) F 0
              (mkWorld (entropy w1) (stream w1) [] (calls w1))
              (mkWorld (entropy w2) (stream w2) [] (calls w2)))
    as (r & w1' & w2' & -> & -> & Hrel').
  { destruct Hrel as (He & Ho & Hcs & Hst). repeat split; simpl; assumption. }
  destruct r as [[]|e]; [|rel_done].
  destruct Hrel' as (He & Ho & Hcs & Hst).
  rewrite Ho. do 3 eexists. split; [reflexivity|]. split; [reflexivity|].
  repeat split; assumption.
Qed.

Lemma stream_rel_other_tags (j : nat) (chunks1 chunks2 : list obj) (rest : bytes) :
  Forall2 (other_tags_edit j) chunks1 chunks2 ->
  Forall (fun o => wf_obj o = true) chunks1 ->
  Forall (fun o => wf_obj o = true) chunks2 ->
  stream_rel (fun o1 o2 => o1 = o2
                           \/ (wf_obj o1 = true /\ wf_obj o2 = true /\ other_tags_edit j o1 o2))
    (concat (map frame chunks1) ++ rest) (concat (map frame chunks2) ++ rest).
Proof.
  induction 1 as [|o1 o2 l1 l2 He Hl IH]; intros H1 H2; simpl.
  - constructor.
  - inversion H1; inversion H2; subst. rewrite <- !app_assoc.
    rewrite !frame_is_frame_with. constructor; auto.
Qed.

(** X17.  A recipient of group [j] reads, of the tags of a chunk, the one at
    place [j] and no other.  Two streams with the same header whose chunk
    dictionaries differ only in the tags at the other places (other values,
    more or fewer of them), followed by the same bytes, get the same answer
    from [decode] when the header gives the recipient [mac_group = j]: a
    tag of another group that is wrong goes unnoticed. *)
Theorem X17_other_groups_tags_unread (header : obj) (chunks1 chunks2 : list obj)
    (j : nat) (rest recipient_private : bytes) (g : Rng) :
  wf_obj header = true ->
  Forall (fun o => wf_obj o = true) chunks1 ->
  Forall (fun o => wf_obj o = true) chunks2 ->
  Forall2 (other_tags_edit j) chunks1 chunks2 ->
  let s1 := frame header ++ concat (map frame chunks1) ++ rest in
  let s2 := frame header ++ concat (map frame chunks2) ++ rest in
  (forall keys w,
      decode_header recipient_private (mkWorld g s1 [] []) = (Ok keys, w) ->
      snd keys = OInt (Z.of_nat j)) ->
  fst (run (decode s1 recipient_private) g) = fst (run (decode s2 recipient_private) g)
  /\ calls (snd (run (decode s1 recipient_private) g))
     = calls (snd (run (decode s2 recipient_private) g)).
Proof.
  intros Hh H1 H2 He s1 s2 Hgroup.
  destruct (decode_rel_at
              (fun o1 o2 => o1 = o2
                            \/ (wf_obj o1 = true /\ wf_obj o2 = true /\ other_tags_edit j o1 o2))
              recipient_private s1 s2 g)
    as (r & w1 & w2 & -> & -> & Hrel).
  - intros o1 o2 [->|(W1 & W2 & H)]; [repeat split; reflexivity|].
    apply macs_edit_header_compat. right. apply (other_tags_macs_edit j); assumption.
  - intros keys w Hk o1 o2 HQ. rewrite (Hgroup keys w Hk).
    apply other_tags_chunk_compat. exact HQ.
  - unfold s1, s2. rewrite !frame_is_frame_with.
    constructor; auto; try reflexivity.
    apply stream_rel_other_tags; assumption.
  - split; [reflexivity | apply Hrel].
Qed.

(** ** [main] *)

(** [decode], in any world, on a header frame and chunk frames as [encode]
    writes them, whatever follows them. *)
Lemma decode_frames_world (sender_private recipient_private : bytes)
    (need_macs : bool) (session_key : bytes) (groupnum : nat) (mac_keys : list bytes)
    (recipients_map : dict) (chunks : list bytes) (rest : bytes) (w : world) :
  bytes_dict recipients_map ->
  unique_keys (map fst recipients_map) = true ->
  sealed_to recipients_map sender_private (crypto_scalarmult_base recipient_private)
    (payload need_macs session_key groupnum (nth groupnum mac_keys [])) ->
  (need_macs = true -> groupnum < length mac_keys) ->
  Forall (fun c => c <> []) chunks ->
  (N.of_nat (length chunks) < nonce_bound)%N ->
  fst (decode
         (frame (ODict (header_map (crypto_scalarmult_base sender_private) recipients_map))
          ++ chunk_frames need_macs mac_keys session_key 0 (chunks ++ [[]]) ++ rest)
         recipient_private w)
  = Ok (concat chunks).
Proof.
  intros Hb Hu Hseal Hg Hne Hbound. unfold decode.
  unfold bind at 1. unfold stream_open at 1. cbn [entropy stream output calls].
  unfold bind at 1.
  edestruct (decode_header_frame sender_private recipient_private need_macs session_key
               groupnum (nth groupnum mac_keys []) recipients_map) as [c Hhdr];
    [exact Hb | exact Hu | exact Hseal | | rewrite Hhdr].
  { cbn [stream]. reflexivity. }
  cbn [entropy stream output calls fst snd].
  unfold bind at 1. unfold output_open at 1. cbn [entropy stream output calls].
  unfold bind at 1.
  edestruct (decode_loop_frames need_macs mac_keys session_key
               (if need_macs then OBytes (nth groupnum mac_keys []) else ONone)
               (if need_macs then OInt (Z.of_nat groupnum) else ONone))
    as (cs & Hloop & _); [ | exact Hne | | | | rewrite Hloop].
  { unfold keys_of_group. destruct need_macs; [|reflexivity].
    exists groupnum, (nth groupnum mac_keys []). repeat split.
    apply nth_error_nth'. apply Hg. reflexivity. }
  { rewrite N.add_0_l. exact Hbound. }
  { cbn [stream]. reflexivity. }
  { cbn [stream]. rewrite !length_app. lia. }
  reflexivity.
Qed.

Lemma valid_bytes_message : valid_bytes Hardcoded.message.
Proof. unfold valid_bytes. vm_compute. discriminate. Qed.

(** X18.  [main] runs to its end whatever [os.urandom] answers: [encode]
    returns a stream, whose base64 text is the first value printed, and
    [decode] of that stream with Max's private key returns the 39 bytes of
    the message, the second value printed. *)
Theorem X18_main_prints_the_message (g : Rng) :
  exists out w,
    run (encode Hardcoded.jack_private
           [[crypto_scalarmult_base Hardcoded.max_private]] Hardcoded.message) g
    = (Ok out, w)
    /\ fst (run main g) = Ok (b64encode out, Hardcoded.message).
Proof.
  destruct (encode_spec Hardcoded.jack_private
              [[crypto_scalarmult_base Hardcoded.max_private]] Hardcoded.message g
              valid_bytes_message)
    as (session_key & mac_keys & rm & chunks & g1 & cs & Hrun & Hchunks & _ & _ & Hlen
        & _ & _ & _ & Hseal & _ & Hb & Hu).
  destruct (chunks_with_empty_total Hardcoded.message)
    as (cs0 & Hcs0 & Hcat & Hall & _ & _ & Hhi).
  rewrite Hcs0 in Hchunks. inversion Hchunks. subst chunks.
  eexists. eexists. split; [exact Hrun|].
  unfold run in *. unfold main. cbv zeta. unfold bind at 1. rewrite Hrun.
  unfold bind at 1.
  match goal with
  | |- fst (match ?X with _ => _ end) = _ =>
      assert (Hd : fst X = Ok Hardcoded.message);
        [|destruct X as [[m|e] w2]; simpl in Hd; [|discriminate];
          inversion Hd; reflexivity]
  end.
  rewrite <- Hcat.
  rewrite <- (app_nil_r (chunk_frames _ mac_keys session_key 0 (cs0 ++ [[]]))).
  apply (decode_frames_world Hardcoded.jack_private Hardcoded.max_private _ session_key 0
           mac_keys rm cs0 []).
  - exact Hb.
  - exact Hu.
  - apply (Hseal 0 [crypto_scalarmult_base Hardcoded.max_private]);
      [reflexivity | left; reflexivity |].
    intros [|j'] group' Hlt Hnth; [lia|]. destruct j'; discriminate.
  - simpl. discriminate.
  - eapply Forall_impl; [|exact Hall]. intros c [Hc _] ->. simpl in Hc. lia.
  - apply (valid_bytes_nonce_bound Hardcoded.message); [exact valid_bytes_message|].
    unfold chunk_size, bytes in *. lia.
Qed.

(** ** What follows a message, and a tag that is not the sender's *)

(** X19.  Bytes that follow a message do not change it: [decode] of what
    [encode] returns, followed by anything at all (garbage, another encoded
    message), returns the message of [encode] and nothing of what follows. *)
Theorem X19_bytes_after_the_message (sender_private recipient_private : bytes)
    (recipient_groups : list (list bytes)) (message : bytes) (g g' : Rng) :
  valid_bytes message ->
  (exists group,
      In group recipient_groups /\ In (crypto_scalarmult_base recipient_private) group) ->
  exists out w,
    run (encode sender_private recipient_groups message) g = (Ok out, w)
    /\ forall extra,
         fst (run (decode (out ++ extra) recipient_private) g') = Ok message.
Proof.
  intros Hv Hin.
  destruct (encode_spec sender_private recipient_groups message g Hv)
    as (session_key & mac_keys & rm & chunks & g1 & cs & Hrun & Hchunks & _ & _ & Hlen
        & _ & _ & _ & Hseal & _ & Hb & Hu).
  destruct (last_group _ _ Hin) as (j & group & Hj & Hr & Hlast).
  destruct (chunks_with_empty_total message) as (cs0 & Hcs0 & Hcat & Hall & _ & _ & Hhi).
  rewrite Hcs0 in Hchunks. inversion Hchunks. subst chunks.
  eexists. eexists. split; [exact Hrun|].
  intros extra. rewrite <- Hcat, <- app_assoc. unfold run.
  apply (decode_frames_world sender_private recipient_private _ session_key j mac_keys rm
           cs0 extra).
  - exact Hb.
  - exact Hu.
  - apply (Hseal j group); assumption.
  - intros Hnm. rewrite Hlen, Hnm. apply nth_error_Some. congruence.
  - eapply Forall_impl; [|exact Hall]. intros c [Hc _] ->. simpl in Hc. lia.
  - apply (valid_bytes_nonce_bound message); [exact Hv|].
    unfold chunk_size, bytes in *. lia.
Qed.

(** The loop on the frames of chunks that are not empty: it opens and
    writes them all and goes on with what follows. *)
Lemma decode_loop_through (need_macs : bool) (mac_keys : list bytes)
    (session_key : bytes) (mac_key mac_group : obj) :
  keys_of_group need_macs mac_keys mac_key mac_group ->
  forall (pre : list bytes) (chunknum : N) (fuel : nat) (tail : bytes) (w : world),
    Forall (fun c => c <> []) pre ->
    (chunknum + N.of_nat (length pre) <= nonce_bound)%N ->
    stream w = chunk_frames need_macs mac_keys session_key chunknum pre ++ tail ->
    exists cs,
      decode_loop (length pre + fuel) (OBytes session_key) mac_key mac_group chunknum w
      = decode_loop fuel (OBytes session_key) mac_key mac_group
          (chunknum + N.of_nat (length pre))
          (mkWorld (entropy w) tail (output w ++ concat pre) (calls w ++ cs)).
Proof.
  intros Hkeys. induction pre as [|chunk pre IH]; intros chunknum fuel tail w Hne Hb Hs.
  - exists []. simpl in *. rewrite N.add_0_r, !app_nil_r. rewrite <- Hs.
    destruct w; reflexivity.
  - inversion Hne as [|? ? Hc Hne']; subst.
    cbn [chunk_frames length] in *. rewrite <- app_assoc in Hs.
    cbn [Nat.add].
    rewrite (decode_loop_frame_step need_macs mac_keys session_key mac_key mac_group Hkeys
               chunk chunknum (length pre + fuel) _ w) by (try lia; exact Hs).
    cbv zeta. assert (bytes_eqb chunk [] = false) as ->.
    { destruct (bytes_eqb chunk []) eqn:E; [|reflexivity].
      apply bytes_eqb_nil in E. contradiction. }
    edestruct (IH (chunknum + 1)%N fuel tail) as [cs Hrun];
      [exact Hne' | | | rewrite Hrun].
    + lia.
    + cbn [stream]. reflexivity.
    + cbn [entropy stream output calls]. eexists.
      rewrite <- !app_assoc. cbn [concat].
      replace (chunknum + 1 + N.of_nat (length pre))%N
        with (chunknum + N.pos (Pos.of_succ_nat (length pre)))%N by lia.
      reflexivity.
Qed.

Lemma chunk_objs_firstn (need_macs : bool) (mac_keys : list bytes) (session_key : bytes) :
  forall (chunks : list bytes) (i : N) (k : nat),
    firstn k (chunk_objs need_macs mac_keys session_key i chunks)
    = chunk_objs need_macs mac_keys session_key i (firstn k chunks).
Proof.
  induction chunks as [|c chunks IH]; intros i [|k]; simpl; try reflexivity.
  rewrite IH. reflexivity.
Qed.

Lemma chunk_objs_nth_error (need_macs : bool) (mac_keys : list bytes) (session_key : bytes) :
  forall (chunks : list bytes) (i : N) (k : nat) (o : obj),
    nth_error (chunk_objs need_macs mac_keys session_key i chunks) k = Some o ->
    exists chunk,
      nth_error chunks k = Some chunk
      /\ o = ODict (chunk_map need_macs mac_keys (chunk_nonce (i + N.of_nat k))
                      (crypto_secretbox chunk (chunk_nonce (i + N.of_nat k)) session_key)).
Proof.
  induction chunks as [|c chunks IH]; intros i [|k] o; simpl; try discriminate.
  - intros H. inversion H. exists c. rewrite N.add_0_r. auto.
  - intros H. apply IH in H. destruct H as (chunk & Hn & ->). exists chunk.
    split; [exact Hn|].
    replace (i + 1 + N.of_nat k)%N with (i + N.pos (Pos.of_succ_nat k))%N by lia.
    reflexivity.
Qed.

Lemma map_OBytes_inj (a b : list bytes) : map OBytes a = map OBytes b -> a = b.
Proof.
  revert b. induction a as [|x a IH]; intros [|y b]; simpl; intros H;
    try discriminate; [reflexivity|].
  inversion H. f_equal. apply IH. assumption.
Qed.

(** X20.  A forged tag is found out.  Take the stream [encode] returns for
    several groups and a recipient whose entry in the header is that of
    group [j]; keep the header and the first [k] chunk frames, and put in
    the place of the next one a frame with the same ciphertext and with
    other tags, of which the one at place [j] is not the one [encode]
    wrote.  Then [decode] raises [RuntimeError('MAC mismatch!')], whatever
    follows that frame, and returns none of the chunks before it. *)
Theorem X20_forged_tag_in_the_stream (sender_private recipient_private : bytes)
    (recipient_groups : list (list bytes)) (message : bytes) (g g' : Rng)
    (j : nat) (group : list bytes) :
  valid_bytes message ->
  1 < length recipient_groups ->
  nth_error recipient_groups j = Some group ->
  In (crypto_scalarmult_base recipient_private) group ->
  (forall j' group', j < j' -> nth_error recipient_groups j' = Some group' ->
                     ~ In (crypto_scalarmult_base recipient_private) group') ->
  exists out w header chunk_dicts,
    run (encode sender_private recipient_groups message) g = (Ok out, w)
    /\ out = frame header ++ concat (map frame chunk_dicts)
    /\ forall (k : nat) (boxed_chunk : bytes) (tags tags' : list bytes) (tag' rest : bytes),
         nth_error chunk_dicts k
         = Some (ODict [(OStr "chunk", OBytes boxed_chunk);
                        (OStr "macs", OList (map OBytes tags))]) ->
         nth_error tags' j = Some tag' ->
         nth_error tags j <> Some tag' ->
         fst (run (decode
                     (frame header ++ concat (map frame (firstn k chunk_dicts))
                      ++ frame (ODict [(OStr "chunk", OBytes boxed_chunk);
                                       (OStr "macs", OList (map OBytes tags'))])
                      ++ rest)
                     recipient_private) g')
         = Raise (RuntimeError "MAC mismatch!").
Proof.
  intros Hv Hlt Hj Hr Hlast.
  destruct (encode_spec sender_private recipient_groups message g Hv)
    as (session_key & mac_keys & rm & chunks & g1 & cs & Hrun & Hchunks & _ & _ & Hlen
        & _ & _ & _ & Hseal & _ & Hb & Hu).
  destruct (chunks_with_empty_total message) as (cs0 & Hcs0 & Hcat & Hall & _ & _ & Hhi).
  rewrite Hcs0 in Hchunks. inversion Hchunks. subst chunks.
  assert (Hnm : (1 <? length recipient_groups) = true) by (apply Nat.ltb_lt; exact Hlt).
  rewrite Hnm in *.
  assert (Hjk : j < length mac_keys)
    by (rewrite Hlen; apply nth_error_Some; congruence).
  assert (Hne : Forall (fun c : bytes => c <> []) cs0).
  { eapply Forall_impl; [|exact Hall]. intros c [Hc _] ->. simpl in Hc. lia. }
  assert (Hbound : (N.of_nat (length cs0) + 1 < nonce_bound)%N).
  { apply (valid_bytes_nonce_bound message); [exact Hv|].
    unfold chunk_size, bytes in *. lia. }
  set (hdr := ODict (header_map (crypto_scalarmult_base sender_private) rm)).
  set (mk := nth j mac_keys []).
  assert (Hkeys : keys_of_group true mac_keys (OBytes mk) (OInt (Z.of_nat j))).
  { exists j, mk. repeat split. apply nth_error_nth'. exact Hjk. }
  eexists. eexists. exists hdr.
  exists (chunk_objs true mac_keys session_key 0 (cs0 ++ [[]])).
  split; [exact Hrun|].
  split; [rewrite chunk_frames_concat; reflexivity|].
  intros k boxed_chunk tags tags' tag' rest Hk Htag' Hdiff.
  (* the frame that is replaced, and the frames before it *)
  apply chunk_objs_nth_error in Hk. destruct Hk as (chunk & Hkc & Hobj).
  rewrite N.add_0_l, chunk_map_macs in Hobj. injection Hobj as Hboxed Htags.
  rewrite <- Hboxed in Htags.
  assert (Hklen : k <= length cs0).
  { assert (Hk1 : k < length (cs0 ++ [[]])).
    { apply nth_error_Some. intros E. unfold bytes in *. rewrite E in Hkc. discriminate. }
    rewrite length_app in Hk1. simpl in Hk1. lia. }
  assert (Htag : nth_error tags j
                 = Some (chunk_mac mk (chunk_nonce (N.of_nat k)) boxed_chunk)).
  { apply (f_equal (fun l => nth_error l j)) in Htags.
    rewrite !nth_error_map in Htags.
    rewrite (nth_error_nth' mac_keys [] Hjk) in Htags. fold mk in Htags.
    destruct (nth_error tags j) as [t|]; [|discriminate].
    simpl in Htags. inversion Htags. subst. reflexivity. }
  assert (Hneq : bytes_eqb tag' (chunk_mac mk (chunk_nonce (N.of_nat k)) boxed_chunk)
                 = false).
  { destruct (bytes_eqb tag' _) eqn:E; [|reflexivity].
    apply bytes_eqb_eq in E. subst tag'. contradiction. }
  rewrite chunk_objs_firstn, <- chunk_frames_concat.
  rewrite firstn_app. replace (k - length cs0) with 0 by lia.
  cbn [firstn]. rewrite app_nil_r.
  assert (Hpre : Forall (fun c : bytes => c <> []) (firstn k cs0)).
  { rewrite <- (firstn_skipn k cs0) in Hne. apply Forall_app in Hne. apply Hne. }
  assert (Hprelen : length (firstn k cs0) = k) by (rewrite length_firstn; lia).
  set (forged := ODict [(OStr "chunk", OBytes boxed_chunk);
                        (OStr "macs", OList (map OBytes tags'))]).
  set (input := frame hdr ++ chunk_frames true mac_keys session_key 0 (firstn k cs0)
                ++ frame forged ++ rest).
  (* the header *)
  rewrite decode_unfold.
  destruct (decode_header_frame sender_private recipient_private true session_key j mk rm
              (chunk_frames true mac_keys session_key 0 (firstn k cs0) ++ frame forged ++ rest)
              (mkWorld g' input [] []) Hb Hu (Hseal j group _ Hj Hr Hlast) eq_refl)
    as [c Hhdr].
  rewrite Hhdr. cbn [entropy stream output calls fst snd].
  (* the chunks before the forged one *)
  rewrite (decode_loop_fuel _ _ _ (S (length input))
             (length (firstn k cs0) + S (length input)))
    by (cbn [stream]; unfold input; rewrite !length_app; lia).
  edestruct (decode_loop_through true mac_keys session_key (OBytes mk) (OInt (Z.of_nat j))
               Hkeys (firstn k cs0) 0 (S (length input)) (frame forged ++ rest))
    as [cs1 Hthrough]; [exact Hpre | | | rewrite Hthrough].
  { unfold bytes in *. lia. }
  { cbn [stream]. reflexivity. }
  cbn [entropy stream output calls].
  match goal with
  | |- context [decode_loop _ _ _ _ ?n _] =>
      replace n with (N.of_nat k) by (unfold bytes in *; lia)
  end.
  (* the forged one *)
  rewrite decode_loop_step, to_bytes_ok by lia.
  assert (Hjson : json_ok forged).
  { assert (Hkh : keys_hashable forged = true).
    { unfold forged. cbn [keys_hashable forallb fst snd hashable andb].
      rewrite andb_true_r. apply forallb_forall. intros x Hx.
      apply in_map_iff in Hx. destruct Hx as (t & <- & _). reflexivity. }
    apply recurse_repr_keys_hashable in Hkh. destruct Hkh as [r Hr0].
    eapply json_ok_intro. exact Hr0. }
  assert (Hwf : wf_obj forged = true).
  { unfold forged. cbn [wf_obj map fst snd unique_keys existsb obj_eqb forallb hashable].
    cbn [String.eqb Ascii.eqb Bool.eqb andb orb negb].
    rewrite !andb_true_r. apply forallb_forall. intros x Hx.
    apply in_map_iff in Hx. destruct Hx as (t & <- & _). reflexivity. }
  match goal with
  | |- context [read_framed_msgpack ?w0] =>
      rewrite (read_framed_msgpack_ok (OInt (Z.of_nat (length (packb forged)))) forged rest
                 w0 (wf_int _) Hwf Hjson eq_refl)
  end.
  unfold open_chunk, forged, check_mac.
  cbn [getitem hashable dict_lookup obj_eqb].
  cbn [String.eqb Ascii.eqb Bool.eqb andb rbind]. cbn [getitem].
  rewrite seq_index_nth_error, nth_error_map, Htag'.
  cbn [option_map rbind as_bytes]. unfold compare_digest. cbn [as_bytes rbind].
  rewrite Hneq. reflexivity.
Qed.

(** ** The nonces of the boxes *)

Lemma box_nonces_app (a b : list call) : box_nonces (a ++ b) = box_nonces a ++ box_nonces b.
Proof.
  induction a as [|c a IH]; simpl; [reflexivity|].
  destruct c; simpl; rewrite ?IH; reflexivity.
Qed.

Lemma encode_recipients_nonces (sender_private : bytes) (need_macs : bool)
    (session_key : bytes) (groupnum : nat) (mac_key : bytes) :
  forall (group : list bytes) (recipients_map : dict) (w w' : world) (r : result dict),
    encode_recipients sender_private need_macs session_key groupnum mac_key group
      recipients_map w = (r, w') ->
    exists cs,
      calls w' = calls w ++ cs
      /\ box_nonces cs = urandom_outputs 24 cs
      /\ length (box_nonces cs) = length group
      /\ Forall (fun nonce => length nonce = 24) (box_nonces cs).
Proof.
  induction group as [|recipient group IH]; intros recipients_map w w' r.
  - simpl. unfold ret. intros H. inversion H. subst. exists []. rewrite app_nil_r.
    simpl. auto.
  - cbn [encode_recipients]. unfold bind at 1. unfold random_nonce, os_urandom.
    pose proof (urandom_length (entropy w) 24) as Hlen.
    destruct (urandom (entropy w) 24) as [nonce g1]. simpl in Hlen.
    unfold bind at 1. unfold nacl_crypto_box at 1. unfold record.
    cbn [entropy stream output calls].
    intros H. apply IH in H. destruct H as (cs & Hcs & Hn & Hl & Hall).
    cbn [calls] in Hcs. rewrite <- !app_assoc in Hcs.
    eexists. split; [exact Hcs|]. simpl.
    split; [rewrite Hn; reflexivity|].
    split; [rewrite Hl; reflexivity|].
    constructor; [exact Hlen | exact Hall].
Qed.

Lemma encode_groups_nonces (sender_private : bytes) (need_macs : bool) (session_key : bytes) :
  forall (recipient_groups : list (list bytes)) (groupnum : nat) (mac_keys : list bytes)
         (recipients_map : dict) (w w' : world) (r : result (list bytes * dict)),
    encode_groups sender_private need_macs session_key groupnum recipient_groups
      mac_keys recipients_map w = (r, w') ->
    exists cs,
      calls w' = calls w ++ cs
      /\ box_nonces cs = urandom_outputs 24 cs
      /\ length (box_nonces cs) = length (flat_recipients groupnum recipient_groups)
      /\ Forall (fun nonce => length nonce = 24) (box_nonces cs).
Proof.
  induction recipient_groups as [|group groups IH];
    intros groupnum mac_keys recipients_map w w' r.
  - simpl. unfold ret. intros H. inversion H. subst. exists []. rewrite app_nil_r.
    simpl. auto.
  - cbn [encode_groups flat_recipients]. unfold bind at 1.
    assert (Hkey : exists km w1 c1,
               (if need_macs
                then bind random_key (fun mac_key => ret (mac_key, mac_keys ++ [mac_key]))
                else ret ([], mac_keys)) w = (Ok km, w1)
               /\ calls w1 = calls w ++ c1
               /\ box_nonces c1 = [] /\ urandom_outputs 24 c1 = []).
    { destruct need_macs.
      - unfold bind, random_key, os_urandom, ret.
        destruct (urandom (entropy w) 32) as [mk g1].
        do 3 eexists. split; [reflexivity|]. cbn [calls]. split; [reflexivity|]. auto.
      - unfold ret. exists ([], mac_keys), w, []. rewrite app_nil_r. auto. }
    destruct Hkey as (km & w1 & c1 & -> & Hc1 & Hb1 & Hu1).
    unfold bind at 1.
    destruct (encode_recipients sender_private need_macs session_key groupnum (fst km)
                group recipients_map w1) as [[rm1|e] w2] eqn:Er.
    + destruct (encode_recipients_nonces _ _ _ _ _ _ _ _ _ _ Er)
        as (c2 & Hc2 & Hn2 & Hl2 & Ha2).
      intros H. apply IH in H. destruct H as (c3 & Hc3 & Hn3 & Hl3 & Ha3).
      exists (c1 ++ c2 ++ c3).
      split; [rewrite Hc3, Hc2, Hc1, <- !app_assoc; reflexivity|].
      rewrite !box_nonces_app, !urandom_outputs_app, Hb1, Hu1. cbn [app].
      split; [rewrite Hn2, Hn3; reflexivity|].
      split; [rewrite !length_app, length_map, Hl2, Hl3; reflexivity|].
      apply Forall_app. split; assumption.
    + pose proof (encode_recipients_spec sender_private need_macs session_key groupnum
                    (fst km) group recipients_map w1) as (rm' & g' & cs & Hok & _).
      rewrite Hok in Er. discriminate.
Qed.

(** X21.  Every box of the header is sealed under a nonce of its own draw:
    [encode] calls [os.urandom(24)] once for each recipient it visits (a key
    listed twice is visited twice), and the nonces of its [crypto_box] calls
    are, in order, the answers of those calls, 24 bytes each. *)
Theorem X21_box_nonces_are_drawn (sender_private : bytes)
    (recipient_groups : list (list bytes)) (message : bytes) (g : Rng) :
  valid_bytes message ->
  exists out w,
    run (encode sender_private recipient_groups message) g = (Ok out, w)
    /\ box_nonces (calls w) = urandom_outputs 24 (calls w)
    /\ length (box_nonces (calls w)) = length (flat_recipients 0 recipient_groups)
    /\ Forall (fun nonce => length nonce = 24) (box_nonces (calls w)).
Proof.
  intros Hv.
  destruct (chunks_with_empty_total message) as (cs0 & Hcs0 & _).
  pose proof (chunks_count_bound message _ Hv Hcs0) as Hbound.
  unfold run, encode.
  unfold bind at 1. unfold output_open at 1. cbn [entropy stream output calls].
  unfold bind at 1. unfold random_key at 1. unfold os_urandom.
  cbn [entropy stream output calls].
  destruct (urandom g 32) as [session_key g1].
  unfold bind at 1.
  destruct (encode_groups sender_private (1 <? length recipient_groups) session_key 0
              recipient_groups [] [] (mkWorld g1 [] [] ([] ++ [Urandom 32 session_key])))
    as [[km|e] w1] eqn:Eg.
  2:{ destruct (encode_groups_spec sender_private (1 <? length recipient_groups) session_key
                  recipient_groups 0 [] []
                  (mkWorld g1 [] [] ([] ++ [Urandom 32 session_key])))
        as (mac_keys & rm & g2 & cs & Hrun & _).
      { destruct (1 <? length recipient_groups); reflexivity. }
      rewrite Hrun in Eg. discriminate. }
  destruct (encode_groups_nonces _ _ _ _ _ _ _ _ _ _ Eg) as (cs & Hcs & Hn & Hl & Hall).
  cbn [calls app] in Hcs.
  unfold bind at 1. rewrite write_framed_msgpack_spec. cbn [entropy stream output calls].
  unfold bind at 1. unfold lift at 1. rewrite Hcs0.
  unfold bind at 1. rewrite encode_chunks_spec by exact Hbound.
  cbn [entropy stream output calls]. unfold output_getvalue. cbn [output].
  eexists. eexists. split; [reflexivity|]. cbn [calls].
  destruct (chunk_calls_other session_key (cs0 ++ [[]]) 0) as [Hcb Hcu].
  assert (Hbn : box_nonces (chunk_calls session_key 0 (cs0 ++ [[]])) = []).
  { generalize (cs0 ++ [[]]) 0%N. clear. intros l. induction l as [|c l IH]; intros i;
      simpl; [reflexivity | apply IH]. }
  rewrite Hcs, !box_nonces_app, !urandom_outputs_app, Hbn, (Hcu 24), !app_nil_r.
  cbn [box_nonces urandom_outputs Nat.eqb app].
  split; [exact Hn|]. split; [exact Hl | exact Hall].
Qed.

(** ** The chunk frames and the calls, one by one *)

Lemma chunk_objs_nth (need_macs : bool) (mac_keys : list bytes) (session_key : bytes) :
  forall (chunks : list bytes) (i : N) (k : nat) (chunk : bytes),
    nth_error chunks k = Some chunk ->
    nth_error (chunk_objs need_macs mac_keys session_key i chunks) k
    = Some (ODict (chunk_map need_macs mac_keys (chunk_nonce (i + N.of_nat k))
                     (crypto_secretbox chunk (chunk_nonce (i + N.of_nat k)) session_key))).
Proof.
  induction chunks as [|c chunks IH]; intros i [|k] chunk; simpl; try discriminate.
  - intros H. inversion H. rewrite N.add_0_r. reflexivity.
  - intros H. rewrite (IH (i + 1)%N k chunk H).
    replace (i + 1 + N.of_nat k)%N with (i + N.pos (Pos.of_succ_nat k))%N by lia.
    reflexivity.
Qed.

Lemma chunk_calls_nth (session_key : bytes) :
  forall (chunks : list bytes) (i : N) (k : nat) (chunk : bytes),
    nth_error chunks k = Some chunk ->
    nth_error (chunk_calls session_key i chunks) k
    = Some (Secretbox chunk (chunk_nonce (i + N.of_nat k)) session_key).
Proof.
  induction chunks as [|c chunks IH]; intros i [|k] chunk; simpl; try discriminate.
  - intros H. inversion H. rewrite N.add_0_r. reflexivity.
  - intros H. rewrite (IH (i + 1)%N k chunk H).
    replace (i + 1 + N.of_nat k)%N with (i + N.pos (Pos.of_succ_nat k))%N by lia.
    reflexivity.
Qed.

Lemma chunk_calls_filter (session_key : bytes) :
  forall (chunks : list bytes) (i : N),
    filter is_secretbox (chunk_calls session_key i chunks) = chunk_calls session_key i chunks
    /\ length (chunk_calls session_key i chunks) = length chunks.
Proof.
  induction chunks as [|c chunks IH]; intros i; simpl; [auto|].
  destruct (IH (i + 1)%N) as [-> ->]. auto.
Qed.

Lemma open_calls_nth (session_key : bytes) :
  forall (chunks : list bytes) (i : N) (k : nat) (chunk : bytes),
    nth_error chunks k = Some chunk ->
    nth_error (open_calls session_key i chunks) k
    = Some (SecretboxOpen
              (crypto_secretbox chunk (chunk_nonce (i + N.of_nat k)) session_key)
              (chunk_nonce (i + N.of_nat k)) session_key).
Proof.
  induction chunks as [|c chunks IH]; intros i [|k] chunk; simpl; try discriminate.
  - intros H. inversion H. rewrite N.add_0_r. reflexivity.
  - intros H. rewrite (IH (i + 1)%N k chunk H).
    replace (i + 1 + N.of_nat k)%N with (i + N.pos (Pos.of_succ_nat k))%N by lia.
    reflexivity.
Qed.

Lemma open_calls_filter (session_key : bytes) :
  forall (chunks : list bytes) (i : N),
    filter is_secretbox_open (open_calls session_key i chunks)
    = open_calls session_key i chunks
    /\ length (open_calls session_key i chunks) = length chunks.
Proof.
  induction chunks as [|c chunks IH]; intros i; simpl; [auto|].
  destruct (IH (i + 1)%N) as [-> ->]. auto.
Qed.

Lemma dict_lookup_chunk (need_macs : bool) (mac_keys : list bytes)
    (nonce boxed_chunk : bytes) :
  dict_lookup (chunk_map need_macs mac_keys nonce boxed_chunk) (OStr "chunk")
  = Some (OBytes boxed_chunk).
Proof. destruct need_macs; reflexivity. Qed.

(** The calls of [encode] that seal: those for the chunks, in order. *)
Lemma encode_secretbox_calls (session_key : bytes) (cs : list call) (chunks : list bytes)
    (c0 : call) :
  is_secretbox c0 = false ->
  filter is_secretbox cs = [] ->
  filter is_secretbox (c0 :: cs ++ chunk_calls session_key 0 chunks)
  = chunk_calls session_key 0 chunks.
Proof.
  intros H0 Hcs. simpl. rewrite H0, filter_app, Hcs.
  destruct (chunk_calls_filter session_key chunks 0) as [-> _]. reflexivity.
Qed.

(** C6.  [encode] splits the plaintext into consecutive segments of at most
    100 bytes (each a slice of 100 bytes of the message, the last one
    possibly shorter, none empty) and appends exactly one empty segment.  It
    seals the segments in that order under the session key, segment [i]
    under the nonce of [i], and writes, after the header frame, exactly one
    frame per segment, in that order: frame [i] is a dictionary whose [chunk]
    is the sealed segment [i], which opens to segment [i].  For a message of
    250 bytes these are four frames, for plaintexts of 100, 100, 50 and 0
    bytes. *)
Theorem C6_chunking (sender_private : bytes) (recipient_groups : list (list bytes))
    (message : bytes) (g : Rng) :
  valid_bytes message ->
  exists out w session_key recipients_map segments chunk_dicts,
    run (encode sender_private recipient_groups message) g = (Ok out, w)
    /\ chunks_with_empty message = Some (segments ++ [[]])
    /\ concat segments = message
    /\ Forall (fun c => 0 < length c <= 100) segments
    /\ (forall i, i < length segments ->
          nth_error segments i = Some (slice message (i * 100) (i * 100 + 100)))
    /\ secretbox_messages (calls w) = segments ++ [[]]
    /\ out = frame (ODict (header_map (crypto_scalarmult_base sender_private)
                             recipients_map))
             ++ concat (map frame chunk_dicts)
    /\ length chunk_dicts = length segments + 1
    /\ (forall i segment,
          nth_error (segments ++ [[]]) i = Some segment ->
          exists nonce chunk_map,
            to_bytes (N.of_nat i) 24 = Ok nonce
            /\ nth_error (filter is_secretbox (calls w)) i
               = Some (Secretbox segment nonce session_key)
            /\ nth_error chunk_dicts i = Some (ODict chunk_map)
            /\ dict_lookup chunk_map (OStr "chunk")
               = Some (OBytes (crypto_secretbox segment nonce session_key))
            /\ crypto_secretbox_open (crypto_secretbox segment nonce session_key)
                 nonce session_key
               = Some segment)
    /\ (length message = 250 ->
        length chunk_dicts = 4 /\ map (@length byte) (segments ++ [[]]) = [100; 100; 50; 0]).
Proof.
  intros Hv.
  destruct (encode_spec sender_private recipient_groups message g Hv)
    as (session_key & mac_keys & rm & chunks & g1 & cs & Hrun & Hchunks & _ & _ & _
        & _ & _ & Hsb & _).
  destruct (chunks_with_empty_total message) as (cs0 & Hcs0 & Hcat & Hall & Hnth & Hlo & Hhi).
  pose proof (chunks_count_bound message chunks Hv Hchunks) as Hbound.
  rewrite Hcs0 in Hchunks. inversion Hchunks. subst chunks.
  unfold chunk_size in *.
  eexists. eexists. exists session_key, rm, cs0.
  exists (chunk_objs (1 <? length recipient_groups) mac_keys session_key 0 (cs0 ++ [[]])).
  split; [exact Hrun|].
  split; [exact Hcs0|].
  split; [exact Hcat|].
  split; [exact Hall|].
  split; [exact Hnth|].
  split.
  { cbn [calls secretbox_messages]. rewrite secretbox_messages_app.
    destruct (secretbox_messages_none _ Hsb) as [-> _].
    destruct (chunk_calls_messages session_key (cs0 ++ [[]]) 0) as [-> _]. reflexivity. }
  split; [rewrite chunk_frames_concat; reflexivity|].
  split; [rewrite chunk_objs_length, length_app; reflexivity|].
  split.
  { intros i segment Hi.
    assert (Hib : (N.of_nat i < nonce_bound)%N).
    { assert (i < length (cs0 ++ [[]])).
      { apply nth_error_Some. intros E. unfold bytes in *. rewrite E in Hi. discriminate. }
      unfold bytes in *. lia. }
    exists (chunk_nonce (N.of_nat i)). eexists.
    split; [apply to_bytes_ok; exact Hib|].
    split.
    { cbn [calls]. rewrite (encode_secretbox_calls session_key cs (cs0 ++ [[]])
                 (Urandom 32 session_key) eq_refl Hsb).
      rewrite (chunk_calls_nth session_key _ 0 i segment Hi), N.add_0_l. reflexivity. }
    split.
    { rewrite (chunk_objs_nth _ _ _ _ 0 i segment Hi), N.add_0_l. reflexivity. }
    split; [apply dict_lookup_chunk | apply crypto_secretbox_open_secretbox]. }
  intros H250. rewrite chunk_objs_length, length_app, map_app. simpl.
  rewrite H250 in *.
  assert (length cs0 = 3) as Hn by lia.
  destruct cs0 as [|a [|b [|c [|d cs0]]]]; simpl in Hn; try lia.
  pose proof (Hnth 0 ltac:(simpl; lia)) as H0.
  pose proof (Hnth 1 ltac:(simpl; lia)) as H1.
  pose proof (Hnth 2 ltac:(simpl; lia)) as H2.
  simpl in H0, H1, H2. inversion H0. inversion H1. inversion H2.
  split; [reflexivity|]. simpl.
  rewrite !slice_length, H250. reflexivity.
Qed.

(** The keys of the header's [recipients] are the recipients listed. *)
Lemma recipients_map_keys (recipient_groups : list (list bytes)) (recipients_map : dict) :
  (forall k, (forall group r, In group recipient_groups -> In r group -> k <> OBytes r) ->
             dict_lookup recipients_map k = None) ->
  forall k v, dict_lookup recipients_map k = Some v ->
              exists r group, k = OBytes r /\ In group recipient_groups /\ In r group.
Proof.
  intros Hoth k v Hk.
  assert (Hno : forall r, k = OBytes r -> exists group, In group recipient_groups /\ In r group).
  { intros r ->. destruct (listed_dec r recipient_groups) as [H|H]; [exact H|].
    rewrite Hoth in Hk; [discriminate|].
    intros group r' Hg Hr' E. inversion E. subst r'. exact (H group Hg Hr'). }
  destruct k as [| | |r| |];
    try (rewrite Hoth in Hk; [discriminate | intros group r' _ _ E; discriminate E]).
  destruct (Hno r eq_refl) as (group & Hg & Hr). exists r, group. auto.
Qed.

(** C2.  [encode] writes the header frame and then one frame per chunk of
    the message (there is at least one), and the keys of the header's
    [recipients] are recipients listed.  With at most one recipient group it
    draws no MAC key (its only 32-byte draw is the session key), every
    sealed per-recipient payload, in the calls and in the header, is the
    dictionary with [session_key] alone, and the frame of chunk [i] is the
    dictionary with the sealed chunk [i] alone: no [macs].  With more groups
    it draws one MAC key per group, each by a call of its own; the payload
    sealed to a recipient of group [j] holds [mac_group = j] and [mac_key] =
    the key of group [j], in the calls and in the header; and the frame of
    chunk [i] holds the sealed chunk [i] and, under [macs], one 32-byte tag
    per group, in the order of the groups, each the first 32 bytes of
    HMAC-SHA-512 of the nonce of [i] and the sealed chunk under that
    group's key. *)
Theorem C2_macs_only_with_several_groups (sender_private : bytes)
    (recipient_groups : list (list bytes)) (message : bytes) (g : Rng) :
  valid_bytes message ->
  exists out w session_key mac_keys recipients_map chunks chunk_dicts,
    run (encode sender_private recipient_groups message) g = (Ok out, w)
    /\ urandom_outputs 32 (calls w) = session_key :: mac_keys
    /\ chunks_with_empty message = Some chunks
    /\ 0 < length chunks
    /\ out = frame (ODict (header_map (crypto_scalarmult_base sender_private)
                             recipients_map))
             ++ concat (map frame chunk_dicts)
    /\ length chunk_dicts = length chunks
    /\ (forall k v, dict_lookup recipients_map k = Some v ->
          exists r group, k = OBytes r /\ In group recipient_groups /\ In r group)
    /\ (length recipient_groups <= 1 ->
        mac_keys = []
        /\ Forall2 (fun c gr => exists nonce,
                      c = Box (packb (ODict [(OStr "session_key", OBytes session_key)]))
                            nonce sender_private (snd gr))
             (filter is_box (calls w)) (flat_recipients 0 recipient_groups)
        /\ (forall group r, In group recipient_groups -> In r group ->
              sealed_to recipients_map sender_private r
                (packb (ODict [(OStr "session_key", OBytes session_key)])))
        /\ (forall i chunk,
              nth_error chunks i = Some chunk ->
              exists nonce,
                to_bytes (N.of_nat i) 24 = Ok nonce
                /\ nth_error chunk_dicts i
                   = Some (ODict [(OStr "chunk",
                                   OBytes (crypto_secretbox chunk nonce session_key))])))
    /\ (1 < length recipient_groups ->
        length mac_keys = length recipient_groups
        /\ Forall (fun k => length k = 32) mac_keys
        /\ Forall2 (fun c gr => exists nonce,
                      c = Box (packb (ODict [(OStr "session_key", OBytes session_key);
                                             (OStr "mac_group", OInt (Z.of_nat (fst gr)));
                                             (OStr "mac_key",
                                              OBytes (nth (fst gr) mac_keys []))]))
                            nonce sender_private (snd gr))
             (filter is_box (calls w)) (flat_recipients 0 recipient_groups)
        /\ (forall group r, In group recipient_groups -> In r group ->
              exists j group',
                nth_error recipient_groups j = Some group' /\ In r group'
                /\ sealed_to recipients_map sender_private r
                     (packb (ODict [(OStr "session_key", OBytes session_key);
                                    (OStr "mac_group", OInt (Z.of_nat j));
                                    (OStr "mac_key", OBytes (nth j mac_keys []))])))
        /\ (forall i chunk,
              nth_error chunks i = Some chunk ->
              exists nonce tags,
                to_bytes (N.of_nat i) 24 = Ok nonce
                /\ nth_error chunk_dicts i
                   = Some (ODict [(OStr "chunk",
                                   OBytes (crypto_secretbox chunk nonce session_key));
                                  (OStr "macs", OList (map OBytes tags))])
                /\ tags = map (fun mac_key =>
                                 firstn 32
                                   (hmac_sha512 mac_key
                                      (nonce ++ crypto_secretbox chunk nonce session_key)))
                             mac_keys
                /\ length tags = length recipient_groups
                /\ Forall (fun tag => length tag = 32) tags)).
Proof.
  intros Hv.
  destruct (encode_spec sender_private recipient_groups message g Hv)
    as (session_key & mac_keys & rm & chunks & g1 & cs & Hrun & Hchunks & _ & Hur & Hlen
        & Hl32 & Hbox & _ & Hseal & Hoth & _).
  destruct (chunk_calls_other session_key chunks 0) as [Hcb Hcu].
  pose proof (chunks_count_bound message chunks Hv Hchunks) as Hbound.
  assert (Hnonce : forall i chunk, nth_error chunks i = Some chunk ->
                                   to_bytes (N.of_nat i) 24 = Ok (chunk_nonce (N.of_nat i))).
  { intros i chunk Hi. apply to_bytes_ok.
    assert (i < length chunks).
    { apply nth_error_Some. intros E. unfold bytes in *. rewrite E in Hi. discriminate. }
    unfold bytes in *. lia. }
  eexists. eexists. exists session_key, mac_keys, rm, chunks.
  exists (chunk_objs (1 <? length recipient_groups) mac_keys session_key 0 chunks).
  split; [exact Hrun|].
  split.
  { cbn [calls urandom_outputs Nat.eqb]. rewrite urandom_outputs_app, Hur, Hcu, app_nil_r.
    reflexivity. }
  split; [exact Hchunks|].
  split.
  { destruct (chunks_with_empty_total message) as (cs0 & Hcs0 & _).
    rewrite Hcs0 in Hchunks. inversion Hchunks. rewrite length_app. simpl. lia. }
  split; [rewrite chunk_frames_concat; reflexivity|].
  split; [apply chunk_objs_length|].
  split; [exact (recipients_map_keys recipient_groups rm Hoth)|].
  assert (Hfb : filter is_box (Urandom 32 session_key :: cs ++ chunk_calls session_key 0 chunks)
                = filter is_box cs).
  { simpl. rewrite filter_app, Hcb, app_nil_r. reflexivity. }
  cbn [calls]. rewrite Hfb.
  split.
  - intros Hle. destruct (Nat.ltb_spec 1 (length recipient_groups)) as [|_]; [lia|].
    split; [destruct mac_keys; [reflexivity | discriminate]|].
    split.
    { eapply Forall2_impl; [|exact Hbox]. intros c gr (nonce & _ & ->).
      exists nonce. reflexivity. }
    split.
    { intros group r Hg Hr.
      destruct (last_group r recipient_groups (ex_intro _ group (conj Hg Hr)))
        as (j & group' & Hj & Hr' & Hlast).
      exact (Hseal j group' r Hj Hr' Hlast). }
    intros i chunk Hi. exists (chunk_nonce (N.of_nat i)).
    split; [exact (Hnonce i chunk Hi)|].
    rewrite (chunk_objs_nth _ _ _ _ 0 i chunk Hi), N.add_0_l. reflexivity.
  - intros Hlt. destruct (Nat.ltb_spec 1 (length recipient_groups)) as [_|]; [|lia].
    split; [exact Hlen|]. split; [exact Hl32|].
    split.
    { eapply Forall2_impl; [|exact Hbox]. intros c gr (nonce & _ & ->).
      exists nonce. reflexivity. }
    split.
    { intros group r Hg Hr.
      destruct (last_group r recipient_groups (ex_intro _ group (conj Hg Hr)))
        as (j & group' & Hj & Hr' & Hlast).
      exists j, group'. split; [exact Hj|]. split; [exact Hr'|].
      exact (Hseal j group' r Hj Hr' Hlast). }
    intros i chunk Hi. exists (chunk_nonce (N.of_nat i)).
    exists (map (fun mac_key =>
                   chunk_mac mac_key (chunk_nonce (N.of_nat i))
                     (crypto_secretbox chunk (chunk_nonce (N.of_nat i)) session_key))
              mac_keys).
    split; [exact (Hnonce i chunk Hi)|].
    split.
    { rewrite (chunk_objs_nth _ _ _ _ 0 i chunk Hi), N.add_0_l, chunk_map_macs, map_map.
      reflexivity. }
    split; [reflexivity|].
    split; [rewrite length_map; exact Hlen|].
    apply Forall_forall. intros t Ht. apply in_map_iff in Ht.
    destruct Ht as (k & <- & _). apply chunk_mac_length.
Qed.

(** ** The frames [decode] reads and the calls it makes, one by one *)

Lemma as_bytes_inv (o : obj) (b : bytes) : as_bytes o = Ok b -> o = OBytes b.
Proof. destruct o; simpl; intros H; inversion H; reflexivity. Qed.

Lemma open_chunk_inv (session_key mac_key mac_group : obj) (nonce : bytes)
    (chunk_map : obj) (ciphertext key : bytes) :
  open_chunk session_key mac_key mac_group nonce chunk_map = Ok (ciphertext, key) ->
  getitem chunk_map (OStr "chunk") = Ok (OBytes ciphertext)
  /\ as_bytes session_key = Ok key.
Proof.
  unfold open_chunk.
  destruct (getitem chunk_map (OStr "chunk")) as [bc|e]; simpl; [|discriminate].
  destruct (check_mac mac_key mac_group nonce chunk_map bc); simpl; [|discriminate].
  destruct (as_bytes bc) as [ct|e] eqn:E; simpl; [|discriminate].
  destruct (as_bytes session_key) as [k|e]; simpl; [|discriminate].
  intros H. inversion H. subst. apply as_bytes_inv in E. subst bc. auto.
Qed.

Lemma read_framed_msgpack_unpack (w w1 : world) (o : obj) :
  read_framed_msgpack w = (Ok o, w1) ->
  exists len s1, unpack (stream w) = Some (len, s1) /\ unpack s1 = Some (o, stream w1).
Proof.
  unfold read_framed_msgpack. unfold bind at 1. unfold stream_unpack at 1.
  destruct (unpack (stream w)) as [[len s1]|] eqn:E1; [|discriminate].
  unfold bind at 1. unfold stream_unpack at 1. cbn [entropy stream output calls].
  destruct (unpack s1) as [[o' s2]|] eqn:E2; [|discriminate].
  unfold bind, lift, ret. cbn [entropy stream output calls].
  intros H. exists len, s1. split; [reflexivity|].
  destruct (json_repr o'); inversion H; subst. cbn [stream]. exact E2.
Qed.

(** A frame that [read_framed_msgpack] takes is the first of the frames of
    the stream, whatever follows it. *)
Lemma read_framed_msgpack_first (w w1 : world) (o : obj) :
  read_framed_msgpack w = (Ok o, w1) ->
  exists pre,
    pre <> [] /\ stream w = pre ++ stream w1
    /\ (forall extra,
          read_framed_msgpack (with_stream w (pre ++ extra)) = (Ok o, with_stream w1 extra))
    /\ (forall n extra os rest,
          read_n_frames n extra = Some (os, rest) ->
          read_n_frames (S n) (pre ++ extra) = Some (o :: os, rest)).
Proof.
  intros Er. destruct (read_framed_msgpack_extend _ _ _ Er) as (pre & Hne & Hs & Hread).
  exists pre. split; [exact Hne|]. split; [exact Hs|]. split; [exact Hread|].
  intros n extra os rest Hn.
  destruct (read_framed_msgpack_unpack _ _ _ (Hread extra)) as (len & s1 & H1 & H2).
  unfold with_stream in H1, H2. cbn [stream] in H1, H2.
  cbn [read_n_frames]. rewrite H1, H2, Hn. reflexivity.
Qed.

(** The loop of [decode], when it returns: the frames it took, the chunks
    they opened to and the calls that opened them. *)
Lemma decode_loop_opened (session_key mac_key mac_group : obj) :
  forall (fuel : nat) (chunknum : N) (w w' : world),
    decode_loop fuel session_key mac_key mac_group chunknum w = (Ok tt, w') ->
    exists pre frames chunks key cs,
      stream w = pre ++ stream w'
      /\ length frames = length chunks + 1
      /\ (forall extra, read_n_frames (length frames) (pre ++ extra) = Some (frames, extra))
      /\ as_bytes session_key = Ok key
      /\ calls w' = calls w ++ cs
      /\ Forall (fun c => is_secretbox_open c = true) cs
      /\ length cs = length chunks + 1
      /\ (forall j chunk,
            nth_error (chunks ++ [[]]) j = Some chunk ->
            exists chunk_map ciphertext nonce,
              nth_error frames j = Some chunk_map
              /\ getitem chunk_map (OStr "chunk") = Ok (OBytes ciphertext)
              /\ to_bytes (chunknum + N.of_nat j) 24 = Ok nonce
              /\ nth_error cs j = Some (SecretboxOpen ciphertext nonce key)
              /\ crypto_secretbox_open ciphertext nonce key = Some chunk)
      /\ Forall (fun c => c <> []) chunks
      /\ output w' = output w ++ concat chunks
      /\ entropy w' = entropy w.
Proof.
  induction fuel as [|fuel IH]; intros chunknum w w'; [discriminate|].
  rewrite decode_loop_step.
  destruct (to_bytes chunknum 24) as [nonce|e] eqn:Et; [|discriminate].
  destruct (read_framed_msgpack w) as [[cm|e] w1] eqn:Er; [|discriminate].
  destruct (read_framed_msgpack_first _ _ _ Er) as (pre1 & Hne1 & Hs1 & _ & Hfr).
  destruct (read_framed_msgpack_world _ _ _ Er) as (Hen1 & Hout1 & Hc1).
  destruct (open_chunk session_key mac_key mac_group nonce cm) as [[ct key]|e] eqn:Eo;
    [|discriminate].
  destruct (open_chunk_inv _ _ _ _ _ _ _ Eo) as [Hget Hkey].
  cbv zeta.
  destruct (crypto_secretbox_open ct nonce key) as [chunk|] eqn:Ec; [|discriminate].
  destruct (bytes_eqb chunk []) eqn:Ee.
  - intros H. inversion H. subst w'. unfold record. cbn [entropy stream output calls].
    apply bytes_eqb_nil in Ee. subst chunk.
    exists pre1, [cm], [], key, [SecretboxOpen ct nonce key].
    split; [exact Hs1|]. split; [reflexivity|].
    split; [intros extra; apply (Hfr 0 extra [] extra); reflexivity|].
    split; [exact Hkey|]. split; [rewrite Hc1; reflexivity|].
    split; [repeat constructor|]. split; [reflexivity|].
    split.
    { intros [|[|j]] chunk Hj; simpl in Hj; try discriminate. inversion Hj. subst chunk.
      exists cm, ct, nonce. rewrite N.add_0_r. repeat split; auto. }
    split; [constructor|]. split; [simpl; rewrite app_nil_r; exact Hout1 | exact Hen1].
  - intros H. apply IH in H.
    destruct H as (pre2 & frames & chunks & key' & cs & Hs2 & Hlen & Hfr2 & Hkey' & Hcs
                   & Hall & Hlcs & Hnth & Hne & Hout & Hen).
    unfold record in *. cbn [entropy stream output calls] in *.
    assert (key' = key) by congruence. subst key'.
    exists (pre1 ++ pre2), (cm :: frames), (chunk :: chunks), key,
      (SecretboxOpen ct nonce key :: cs).
    split; [rewrite Hs1, Hs2, app_assoc; reflexivity|].
    split; [simpl; rewrite Hlen; reflexivity|].
    split.
    { intros extra. rewrite <- app_assoc. cbn [length].
      apply (Hfr (length frames) (pre2 ++ extra) frames extra). apply Hfr2. }
    split; [exact Hkey|].
    split; [rewrite Hcs, Hc1, <- app_assoc; reflexivity|].
    split; [constructor; [reflexivity | exact Hall]|].
    split; [simpl; rewrite Hlcs; reflexivity|].
    split.
    { intros [|j] c Hj; simpl in Hj.
      - inversion Hj. subst c. exists cm, ct, nonce. rewrite N.add_0_r.
        repeat split; auto.
      - destruct (Hnth j c Hj) as (cm' & ct' & nonce' & H1 & H2 & H3 & H4 & H5).
        exists cm', ct', nonce'. simpl.
        replace (chunknum + N.pos (Pos.of_succ_nat j))%N
          with (chunknum + 1 + N.of_nat j)%N by lia.
        repeat split; auto. }
    split.
    { constructor; [|exact Hne]. intros E. subst chunk. discriminate. }
    split; [rewrite Hout, Hout1; simpl; rewrite <- app_assoc; reflexivity|].
    rewrite Hen. exact Hen1.
Qed.

(** The loop of [decode], however it ends: each call it makes opens the
    [chunk] of the frame of its number, under the nonce of that number. *)
Lemma decode_loop_trace (session_key mac_key mac_group : obj) :
  forall (fuel : nat) (chunknum : N) (w w' : world) (r : result unit),
    decode_loop fuel session_key mac_key mac_group chunknum w = (r, w') ->
    exists cs frames rest,
      calls w' = calls w ++ cs
      /\ Forall (fun c => is_secretbox_open c = true) cs
      /\ read_n_frames (length frames) (stream w) = Some (frames, rest)
      /\ length cs = length frames
      /\ forall j c,
           nth_error cs j = Some c ->
           exists chunk_map ciphertext nonce key,
             nth_error frames j = Some chunk_map
             /\ getitem chunk_map (OStr "chunk") = Ok (OBytes ciphertext)
             /\ to_bytes (chunknum + N.of_nat j) 24 = Ok nonce
             /\ as_bytes session_key = Ok key
             /\ c = SecretboxOpen ciphertext nonce key.
Proof.
  assert (Hnone' : forall chunknum (w w' : world),
             calls w' = calls w ->
             exists cs frames rest,
               calls w' = calls w ++ cs
               /\ Forall (fun c => is_secretbox_open c = true) cs
               /\ read_n_frames (length frames) (stream w) = Some (frames, rest)
               /\ length cs = length frames
               /\ forall j c,
                    nth_error cs j = Some c ->
                    exists chunk_map ciphertext nonce key,
                      nth_error frames j = Some chunk_map
                      /\ getitem chunk_map (OStr "chunk") = Ok (OBytes ciphertext)
                      /\ to_bytes (chunknum + N.of_nat j) 24 = Ok nonce
                      /\ as_bytes session_key = Ok key
                      /\ c = SecretboxOpen ciphertext nonce key).
  { intros chunknum w w' Hc. exists [], [], (stream w).
    split; [rewrite app_nil_r; exact Hc|]. split; [constructor|].
    split; [reflexivity|]. split; [reflexivity|].
    intros [|j] c Hj; discriminate. }
  induction fuel as [|fuel IH]; intros chunknum w w' r.
  { intros H. inversion H. subst. apply Hnone'. reflexivity. }
  rewrite decode_loop_step.
  destruct (to_bytes chunknum 24) as [nonce|e] eqn:Et.
  2:{ intros H. inversion H. subst. apply Hnone'. reflexivity. }
  destruct (read_framed_msgpack w) as [[cm|e] w1] eqn:Er.
  2:{ intros H. inversion H. subst. apply Hnone'.
      apply (read_framed_msgpack_world _ _ _ Er). }
  destruct (read_framed_msgpack_first _ _ _ Er) as (pre1 & Hne1 & Hs1 & _ & Hfr).
  destruct (read_framed_msgpack_world _ _ _ Er) as (Hen1 & Hout1 & Hc1).
  destruct (open_chunk session_key mac_key mac_group nonce cm) as [[ct key]|e] eqn:Eo.
  2:{ intros H. inversion H. subst. apply Hnone'. exact Hc1. }
  destruct (open_chunk_inv _ _ _ _ _ _ _ Eo) as [Hget Hkey].
  cbv zeta.
  assert (Hone : forall r0,
             (r0, record (SecretboxOpen ct nonce key) w1) = (r, w') ->
             exists cs frames rest,
               calls w' = calls w ++ cs
               /\ Forall (fun c => is_secretbox_open c = true) cs
               /\ read_n_frames (length frames) (stream w) = Some (frames, rest)
               /\ length cs = length frames
               /\ forall j c,
                    nth_error cs j = Some c ->
                    exists chunk_map ciphertext nonce key,
                      nth_error frames j = Some chunk_map
                      /\ getitem chunk_map (OStr "chunk") = Ok (OBytes ciphertext)
                      /\ to_bytes (chunknum + N.of_nat j) 24 = Ok nonce
                      /\ as_bytes session_key = Ok key
                      /\ c = SecretboxOpen ciphertext nonce key).
  { intros r0 H. inversion H. subst w'. unfold record. cbn [calls].
    exists [SecretboxOpen ct nonce key], [cm], (stream w1).
    split; [rewrite Hc1; reflexivity|]. split; [repeat constructor|].
    split; [rewrite Hs1; apply (Hfr 0 (stream w1) [] (stream w1)); reflexivity|].
    split; [reflexivity|].
    intros [|[|j]] c Hj; simpl in Hj; try discriminate. inversion Hj. subst c.
    exists cm, ct, nonce, key. rewrite N.add_0_r. repeat split; auto. }
  destruct (crypto_secretbox_open ct nonce key) as [chunk|] eqn:Ec; [|apply Hone].
  destruct (bytes_eqb chunk []) eqn:Ee; [apply Hone|].
  clear Hone. intros H. apply IH in H.
  destruct H as (cs & frames & rest & Hcs & Hall & Hfr2 & Hlen & Hnth).
  unfold record in *. cbn [entropy stream output calls] in *.
  exists (SecretboxOpen ct nonce key :: cs), (cm :: frames), rest.
  split; [rewrite Hcs, Hc1, <- app_assoc; reflexivity|].
  split; [constructor; [reflexivity | exact Hall]|].
  split; [rewrite Hs1; apply (Hfr (length frames) (stream w1) frames rest Hfr2)|].
  split; [simpl; rewrite Hlen; reflexivity|].
  intros [|j] c Hj; simpl in Hj.
  - inversion Hj. subst c. exists cm, ct, nonce, key. rewrite N.add_0_r.
    repeat split; auto.
  - destruct (Hnth j c Hj) as (cm' & ct' & nonce' & key' & H1 & H2 & H3 & H4 & H5).
    exists cm', ct', nonce', key'. simpl.
    replace (chunknum + N.pos (Pos.of_succ_nat j))%N
      with (chunknum + 1 + N.of_nat j)%N by lia.
    repeat split; auto.
Qed.

Lemma filter_all {A : Type} (p : A -> bool) (l : list A) :
  Forall (fun x => p x = true) l -> filter p l = l.
Proof.
  induction 1 as [|x l Hx Hl IH]; simpl; [reflexivity|]. rewrite Hx, IH. reflexivity.
Qed.

(** The header frame: [decode_header] takes the first frame of the stream
    and nothing more. *)
Lemma decode_header_first (recipient_private : bytes) (w w1 : world)
    (r : result (obj * obj * obj)) :
  decode_header recipient_private w = (r, w1) ->
  (exists e, r = Raise e /\ read_framed_msgpack w = (Raise e, w1))
  \/ exists header_map w0,
       read_framed_msgpack w = (Ok header_map, w0) /\ stream w1 = stream w0.
Proof.
  rewrite decode_header_unfold. unfold bind.
  destruct (read_framed_msgpack w) as [[hm|e] w0] eqn:Er.
  - intros H. right. exists hm, w0. split; [reflexivity|].
    pose proof (oblivious_stream _ w0 (oblivious_decode_header_rest recipient_private hm))
      as Hst.
    rewrite H in Hst. exact Hst.
  - intros H. inversion H. subst. left. exists e. auto.
Qed.

(** C7.  [decode] returns at the first chunk that opens to the empty
    plaintext.  When it returns a message for an input, it has read a prefix
    [consumed] of the input that is exactly the header frame and
    [length chunks + 1] chunk frames; it has opened the [chunk] of each
    of them, in order, frame [i] under the nonce of [i]; the first
    [length chunks] opened to non-empty plaintexts, whose concatenation is
    the message returned, and the last one, where [consumed] ends, to the
    empty plaintext.  Whatever bytes follow that prefix (none, garbage, more
    chunk frames), [decode] returns the same message, makes the same calls
    and leaves those bytes unread. *)
Theorem C7_stops_at_first_empty_chunk (input recipient_private P : bytes) (g : Rng)
    (w : world) :
  run (decode input recipient_private) g = (Ok P, w) ->
  exists consumed frames chunks key,
    input = consumed ++ stream w
    /\ length frames = length chunks + 2
    /\ (forall extra,
          read_n_frames (length frames) (consumed ++ extra) = Some (frames, extra))
    /\ length (filter is_secretbox_open (calls w)) = length chunks + 1
    /\ (forall i chunk,
          nth_error (chunks ++ [[]]) i = Some chunk ->
          exists chunk_map ciphertext nonce,
            nth_error frames (S i) = Some chunk_map
            /\ getitem chunk_map (OStr "chunk") = Ok (OBytes ciphertext)
            /\ to_bytes (N.of_nat i) 24 = Ok nonce
            /\ nth_error (filter is_secretbox_open (calls w)) i
               = Some (SecretboxOpen ciphertext nonce key)
            /\ crypto_secretbox_open ciphertext nonce key = Some chunk)
    /\ Forall (fun c => c <> []) chunks
    /\ P = concat chunks
    /\ forall extra,
         run (decode (consumed ++ extra) recipient_private) g
         = (Ok P, with_stream w extra).
Proof.
  unfold run, decode.
  unfold bind at 1. unfold stream_open at 1. cbn [entropy stream output calls].
  unfold bind at 1.
  destruct (decode_header recipient_private (mkWorld g input [] []))
    as [[keys|e] w1] eqn:Eh; [|discriminate].
  unfold bind at 1. unfold output_open at 1.
  unfold bind at 1.
  destruct (decode_loop _ _ _ _ _ _) as [[[]|e] w2] eqn:El; [|discriminate].
  unfold output_getvalue. intros H. inversion H. subst.
  destruct (decode_header_extend _ _ _ _ Eh) as (pre1 & Hs1 & Hhdr).
  destruct (decode_header_calls _ _ _ _ Eh) as (_ & _ & cs0 & Hc0 & Hf0 & _).
  destruct (decode_header_first _ _ _ _ Eh)
    as [(e & He & _)|(hm & w0 & Er & Hst)]; [discriminate|].
  destruct (read_framed_msgpack_first _ _ _ Er) as (pre0 & _ & Hs0 & _ & Hfr0).
  assert (pre0 = pre1).
  { rewrite <- Hst, Hs1 in Hs0. apply app_inv_tail in Hs0. symmetry. exact Hs0. }
  subst pre0.
  destruct (decode_loop_extend _ _ _ _ _ _ _ El) as (pre2 & Hs2 & Hloop).
  destruct (decode_loop_opened _ _ _ _ _ _ _ El)
    as (pre2' & frames & chunks & key & cs & Hs2' & Hlen & Hfr & _ & Hcs & Hall & Hlcs
        & Hnth & Hne & Hout & _).
  assert (pre2' = pre2).
  { rewrite Hs2 in Hs2'. apply app_inv_tail in Hs2'. symmetry. exact Hs2'. }
  subst pre2'.
  cbn [entropy stream output calls] in *. simpl in Hc0.
  assert (Hfilter : filter is_secretbox_open (calls w) = cs).
  { rewrite Hcs, Hc0, filter_app, Hf0. simpl. apply filter_all. exact Hall. }
  exists (pre1 ++ pre2), (hm :: frames), chunks, key.
  split; [rewrite Hs1, Hs2, app_assoc; reflexivity|].
  split; [simpl; rewrite Hlen; lia|].
  split.
  { intros extra. rewrite <- app_assoc. cbn [length].
    apply (Hfr0 (length frames) (pre2 ++ extra) frames extra). apply Hfr. }
  split; [rewrite Hfilter; exact Hlcs|].
  split.
  { intros i chunk Hi. rewrite Hfilter.
    destruct (Hnth i chunk Hi) as (cm & ct & nonce & H1 & H2 & H3 & H4 & H5).
    exists cm, ct, nonce. rewrite N.add_0_l in H3. repeat split; auto. }
  split; [exact Hne|]. split; [exact Hout|].
  intros extra.
  unfold bind at 1. unfold stream_open at 1. cbn [entropy stream output calls].
  unfold bind at 1.
  specialize (Hhdr (pre2 ++ extra)). unfold with_stream in Hhdr.
  cbn [entropy stream output calls] in Hhdr.
  rewrite <- app_assoc, Hhdr.
  unfold bind at 1. unfold output_open at 1. cbn [entropy stream output calls].
  unfold bind at 1.
  specialize (Hloop extra (S (length (pre1 ++ pre2 ++ extra)))).
  unfold with_stream in Hloop. cbn [entropy stream output calls] in Hloop.
  rewrite Hloop by (rewrite !length_app; lia).
  reflexivity.
Qed.

(** [decode] on a header frame and chunk frames as [encode] writes them:
    the message, and the calls made. *)
Lemma decode_frames_calls (sender_private recipient_private : bytes)
    (need_macs : bool) (session_key : bytes) (groupnum : nat) (mac_keys : list bytes)
    (recipients_map : dict) (chunks : list bytes) (rest : bytes) (g : Rng) :
  bytes_dict recipients_map ->
  unique_keys (map fst recipients_map) = true ->
  sealed_to recipients_map sender_private (crypto_scalarmult_base recipient_private)
    (payload need_macs session_key groupnum (nth groupnum mac_keys [])) ->
  (need_macs = true -> groupnum < length mac_keys) ->
  Forall (fun c => c <> []) chunks ->
  (N.of_nat (length chunks) < nonce_bound)%N ->
  exists c,
    run (decode
           (frame (ODict (header_map (crypto_scalarmult_base sender_private) recipients_map))
            ++ chunk_frames need_macs mac_keys session_key 0 (chunks ++ [[]]) ++ rest)
           recipient_private) g
    = (Ok (concat chunks),
       mkWorld g rest (concat chunks) (c :: open_calls session_key 0 (chunks ++ [[]])))
    /\ is_secretbox_open c = false.
Proof.
  intros Hb Hu Hseal Hg Hne Hbound. unfold run, decode.
  unfold bind at 1. unfold stream_open at 1. cbn [entropy stream output calls].
  unfold bind at 1.
  destruct (decode_header_frame sender_private recipient_private need_macs session_key
              groupnum (nth groupnum mac_keys []) recipients_map
              (chunk_frames need_macs mac_keys session_key 0 (chunks ++ [[]]) ++ rest)
              (mkWorld g
                 (frame (ODict (header_map (crypto_scalarmult_base sender_private)
                                  recipients_map))
                  ++ chunk_frames need_macs mac_keys session_key 0 (chunks ++ [[]]) ++ rest)
                 [] []) Hb Hu Hseal eq_refl) as [c Hhdr].
  assert (Hc : is_secretbox_open c = false).
  { destruct (decode_header_calls _ _ _ _ Hhdr) as (_ & _ & cs & Hcs & Hf & _).
    cbn [calls] in Hcs. apply app_inv_head in Hcs. subst cs. simpl in Hf.
    destruct (is_secretbox_open c); [discriminate | reflexivity]. }
  exists c. split; [|exact Hc].
  rewrite Hhdr.
  cbn [entropy stream output calls fst snd].
  unfold bind at 1. unfold output_open at 1. cbn [entropy stream output calls].
  unfold bind at 1.
  rewrite (decode_loop_frames_calls need_macs mac_keys session_key
             (if need_macs then OBytes (nth groupnum mac_keys []) else ONone)
             (if need_macs then OInt (Z.of_nat groupnum) else ONone)
             ltac:(unfold keys_of_group; destruct need_macs; [|reflexivity];
                   exists groupnum, (nth groupnum mac_keys []); repeat split;
                   apply nth_error_nth'; apply Hg; reflexivity)
             chunks 0 _ rest _ Hne).
  - reflexivity.
  - rewrite N.add_0_l. exact Hbound.
  - cbn [stream]. reflexivity.
  - cbn [stream]. rewrite !length_app. lia.
Qed.

(** [decode] on any input, however it ends: its [i]-th call of
    [crypto_secretbox_open] opens the [chunk] of the [i]-th frame after the
    header frame, under the nonce of [i]. *)
Lemma decode_trace (input recipient_private : bytes) (g : Rng) :
  exists frames rest,
    read_n_frames (length frames) input = Some (frames, rest)
    /\ forall i c,
         nth_error (filter is_secretbox_open
                      (calls (snd (run (decode input recipient_private) g)))) i
         = Some c ->
         exists chunk_map ciphertext nonce key,
           nth_error frames (S i) = Some chunk_map
           /\ getitem chunk_map (OStr "chunk") = Ok (OBytes ciphertext)
           /\ to_bytes (N.of_nat i) 24 = Ok nonce
           /\ c = SecretboxOpen ciphertext nonce key.
Proof.
  unfold run, decode.
  unfold bind at 1. unfold stream_open at 1. cbn [entropy stream output calls].
  unfold bind at 1.
  destruct (decode_header recipient_private (mkWorld g input [] []))
    as [[keys|e] w1] eqn:Eh.
  2:{ exists [], input. split; [reflexivity|]. cbn [snd].
      destruct (decode_header_calls _ _ _ _ Eh) as (_ & _ & cs & Hc & Hf & _).
      simpl in Hc. rewrite Hc, Hf. intros [|i] c; discriminate. }
  destruct (decode_header_calls _ _ _ _ Eh) as (_ & _ & cs0 & Hc0 & Hf0 & _).
  destruct (decode_header_first _ _ _ _ Eh)
    as [(e & He & _)|(hm & w0 & Er & Hst)]; [discriminate|].
  destruct (read_framed_msgpack_first _ _ _ Er) as (pre0 & _ & Hs0 & _ & Hfr0).
  unfold bind at 1. unfold output_open at 1. cbn [entropy stream output calls].
  unfold bind at 1.
  destruct (decode_loop _ _ _ _ _ _) as [r w2] eqn:El.
  destruct (decode_loop_trace _ _ _ _ _ _ _ _ El)
    as (cs & frames & rest & Hcs & Hall & Hfr & Hlen & Hnth).
  cbn [entropy stream output calls] in *. simpl in Hc0.
  exists (hm :: frames), rest.
  split.
  { rewrite Hs0. cbn [length]. apply Hfr0. rewrite <- Hst. exact Hfr. }
  assert (Hw : calls (snd (match r with
                           | Ok _ => output_getvalue w2
                           | Raise e => (@Raise bytes e, w2)
                           end)) = calls w2)
    by (destruct r; reflexivity).
  rewrite Hw, Hcs, Hc0, filter_app, Hf0. simpl. rewrite (filter_all _ _ Hall).
  intros i c Hi.
  destruct (Hnth i c Hi) as (cm & ct & nonce & key & H1 & H2 & H3 & _ & H5).
  exists cm, ct, nonce, key. rewrite N.add_0_l in H3. repeat split; auto.
Qed.

(** C5.  The nonce of chunk [i] is the big-endian encoding of [i] in 24
    bytes: [to_bytes i 24] exists for every [i] below [2 ^ 192], has 24
    bytes and reads back as [i].  [encode] makes one sealing call per
    chunk of the message, the [i]-th of them on chunk [i] under that nonce.
    [decode] of what [encode] returned, by a recipient listed, makes one
    opening call per chunk, the [i]-th of them on the sealed chunk [i] under
    the same nonce.  And on any input at all, the [i]-th opening call of
    [decode] is on the [chunk] of the [i]-th frame after the header frame
    (counting from 0), under that nonce. *)
Theorem C5_chunk_nonce (sender_private recipient_private : bytes)
    (recipient_groups : list (list bytes)) (message input : bytes) (g g' : Rng) :
  valid_bytes message ->
  (forall i, (i < nonce_bound)%N -> exists nonce, to_bytes i 24 = Ok nonce)
  /\ (forall i nonce,
        to_bytes i 24 = Ok nonce -> length nonce = 24 /\ from_bytes nonce = i)
  /\ (exists out w session_key chunks,
        run (encode sender_private recipient_groups message) g = (Ok out, w)
        /\ chunks_with_empty message = Some chunks
        /\ length (filter is_secretbox (calls w)) = length chunks
        /\ (forall i chunk,
              nth_error chunks i = Some chunk ->
              exists nonce,
                to_bytes (N.of_nat i) 24 = Ok nonce
                /\ nth_error (filter is_secretbox (calls w)) i
                   = Some (Secretbox chunk nonce session_key))
        /\ ((exists group,
                In group recipient_groups
                /\ In (crypto_scalarmult_base recipient_private) group) ->
            exists w',
              run (decode out recipient_private) g' = (Ok message, w')
              /\ length (filter is_secretbox_open (calls w')) = length chunks
              /\ forall i chunk,
                   nth_error chunks i = Some chunk ->
                   exists nonce,
                     to_bytes (N.of_nat i) 24 = Ok nonce
                     /\ nth_error (filter is_secretbox_open (calls w')) i
                        = Some (SecretboxOpen (crypto_secretbox chunk nonce session_key)
                                  nonce session_key)))
  /\ (exists frames rest,
        read_n_frames (length frames) input = Some (frames, rest)
        /\ forall i c,
             nth_error (filter is_secretbox_open
                          (calls (snd (run (decode input recipient_private) g')))) i
             = Some c ->
             exists chunk_map ciphertext nonce key,
               nth_error frames (S i) = Some chunk_map
               /\ getitem chunk_map (OStr "chunk") = Ok (OBytes ciphertext)
               /\ to_bytes (N.of_nat i) 24 = Ok nonce
               /\ c = SecretboxOpen ciphertext nonce key).
Proof.
  intros Hv. split; [|split; [|split]].
  - intros i Hi. exists (chunk_nonce i). apply to_bytes_ok. exact Hi.
  - intros i nonce H. apply to_bytes_inv in H. destruct H as [-> Hi].
    split; [apply chunk_nonce_length | apply from_bytes_chunk_nonce; exact Hi].
  - destruct (encode_spec sender_private recipient_groups message g Hv)
      as (session_key & mac_keys & rm & chunks & g1 & cs & Hrun & Hchunks & _ & _ & Hlen
          & _ & _ & Hsb & Hseal & _ & Hb & Hu).
    pose proof (chunks_count_bound message chunks Hv Hchunks) as Hbound.
    assert (Hnonce : forall i chunk, nth_error chunks i = Some chunk ->
                                     to_bytes (N.of_nat i) 24 = Ok (chunk_nonce (N.of_nat i))).
    { intros i chunk Hi. apply to_bytes_ok.
      assert (i < length chunks).
      { apply nth_error_Some. intros E. unfold bytes in *. rewrite E in Hi. discriminate. }
      unfold bytes in *. lia. }
    eexists. eexists. exists session_key, chunks.
    split; [exact Hrun|]. split; [exact Hchunks|].
    cbn [calls].
    rewrite (encode_secretbox_calls session_key cs chunks (Urandom 32 session_key)
               eq_refl Hsb).
    split; [apply chunk_calls_filter|].
    split.
    { intros i chunk Hi. exists (chunk_nonce (N.of_nat i)).
      split; [exact (Hnonce i chunk Hi)|].
      rewrite (chunk_calls_nth session_key _ 0 i chunk Hi), N.add_0_l. reflexivity. }
    intros Hin.
    destruct (last_group _ _ Hin) as (j & group & Hj & Hr & Hlast).
    destruct (chunks_with_empty_total message)
      as (cs0 & Hcs0 & Hcat & Hall & _ & _ & Hhi).
    rewrite Hcs0 in Hchunks. inversion Hchunks. subst chunks.
    destruct (decode_frames_calls sender_private recipient_private
                (1 <? length recipient_groups) session_key j mac_keys rm cs0 [] g')
      as (c & Hdec & Hc).
    + exact Hb.
    + exact Hu.
    + apply (Hseal j group); assumption.
    + intros Hnm. rewrite Hlen, Hnm. apply nth_error_Some. congruence.
    + eapply Forall_impl; [|exact Hall]. intros c [Hc _] ->. simpl in Hc. lia.
    + apply (valid_bytes_nonce_bound message); [exact Hv|].
      unfold chunk_size, bytes in *. lia.
    + rewrite app_nil_r, Hcat in Hdec.
      eexists. split; [exact Hdec|]. cbn [calls filter]. rewrite Hc.
      destruct (open_calls_filter session_key (cs0 ++ [[]]) 0) as [Hf Hl].
      unfold bytes in *. rewrite Hf.
      split; [exact Hl|].
      intros i chunk Hi. exists (chunk_nonce (N.of_nat i)).
      split; [exact (Hnonce i chunk Hi)|].
      rewrite (open_calls_nth session_key _ 0 i chunk Hi), N.add_0_l. reflexivity.
  - apply decode_trace.
Qed.

(** ** Objects that can be printed *)

Lemma text_keys_hashable (o : obj) : text_keys o = true -> keys_hashable o = true.
Proof.
  induction o using obj_ind'; try reflexivity.
  - cbn [text_keys keys_hashable]. rewrite !forallb_forall.
    rewrite Forall_forall in H. intros Ht x Hx. apply (H x Hx). apply Ht. exact Hx.
  - cbn [text_keys keys_hashable]. rewrite !forallb_forall.
    rewrite Forall_forall in H. intros Ht [k v] Hin.
    specialize (Ht _ Hin). cbn [fst snd] in *.
    destruct k; try discriminate; simpl; apply (H _ Hin); exact Ht.
Qed.

Lemma text_keys_json_ok (o : obj) : text_keys o = true -> json_ok o.
Proof.
  intros Ht. apply text_keys_hashable, recurse_repr_keys_hashable in Ht.
  destruct Ht as [r Hr]. unfold json_ok, json_repr. rewrite Hr. simpl. eauto.
Qed.

Lemma framed_obj_inv (o : obj) :
  framed_obj o = true -> wf_obj o = true /\ json_ok o.
Proof.
  unfold framed_obj. rewrite !andb_true_iff. intros [[Hwf _] Ht].
  split; [exact Hwf | apply text_keys_json_ok; exact Ht].
Qed.







(** X6.  What [write_framed_msgpack] writes for an object that can be
    framed and printed, [read_framed_msgpack] reads back as that object, and
    it leaves what follows in the stream. *)
Theorem X6_frame_read_back (o : obj) (w w' : world) (rest : bytes) :
  framed_obj o = true ->
  output w = [] ->
  read_framed_msgpack (with_stream w' (output (snd (write_framed_msgpack o w)) ++ rest))
  = (Ok o, with_stream w' rest).
Proof.
  intros Hf Hout. destruct (framed_obj_inv _ Hf) as [Hwf [text Ht]].
  rewrite write_framed_msgpack_spec. cbn [snd output]. rewrite Hout.
  cbn [app]. rewrite frame_is_frame_with.
  rewrite (read_framed_msgpack_frame (OInt (Z.of_nat (length (packb o)))) o rest);
    [rewrite Ht; reflexivity | apply wf_int | exact Hwf | reflexivity].
Qed.

(** X15.  On an object within what [umsgpack] reads, [json_repr] returns a
    text when the dictionaries in it have only text and byte strings for
    keys, and raises [TypeError] when one of them has an array for a key (a
    tuple once read, a list once [json_repr] has rebuilt it).  So does the
    [print] of [read_framed_msgpack]: a frame that holds such a key is taken
    from the stream and then refused. *)
Theorem X15_json_repr_raises_on_array_keys (o : obj) :
  msgpack_obj 100 o = true ->
  (text_keys o = true -> exists text, json_repr o = Ok text)
  /\ (keys_hashable o = false -> json_repr o = Raise TypeError)
  /\ forall (len : obj) (s1 rest : bytes) (w : world),
       unpack (stream w) = Some (len, s1) ->
       unpack s1 = Some (o, rest) ->
       keys_hashable o = false ->
       read_framed_msgpack w
       = (Raise TypeError, mkWorld (entropy w) rest (output w) (calls w)).
Proof.
  intros _.
  assert (Hfalse : keys_hashable o = false -> json_repr o = Raise TypeError).
  { intros Hk. unfold json_repr. destruct (recurse_repr o) as [r|e] eqn:E.
    - assert (keys_hashable o = true) by (apply recurse_repr_keys_hashable; eauto).
      congruence.
    - apply recurse_repr_exn in E. subst e. reflexivity. }
  split; [|split; [exact Hfalse|]].
  - apply text_keys_json_ok.
  - intros len s1 rest w H1 H2 Hk.
    unfold read_framed_msgpack. unfold bind at 1. unfold stream_unpack at 1. rewrite H1.
    unfold bind at 1. unfold stream_unpack at 1. cbn [entropy stream output calls].
    rewrite H2. unfold bind, lift. rewrite (Hfalse Hk). reflexivity.
Qed.

End Codec.

(** * The model obeys the laws *)

Lemma model_urandom_length (g : Model.Rng) (n : nat) :
  length (fst (Model.urandom g n)) = n.
Proof. apply repeat_length. Qed.

Lemma model_starts_with_app (key m : bytes) : Model.starts_with key (key ++ m) = true.
Proof.
  induction key as [|x key IH]; simpl; [reflexivity|].
  rewrite IH, andb_true_r. apply Byte.byte_dec_lb. reflexivity.
Qed.

Lemma model_unseal_seal (key m : bytes) : Model.unseal key (Model.seal key m) = Some m.
Proof.
  unfold Model.unseal, Model.seal. rewrite model_starts_with_app.
  rewrite (skipn_exact key m (length key) eq_refl). reflexivity.
Qed.

Lemma model_crypto_box_open_box (message nonce a b : bytes) :
  Model.crypto_box_open
    (Model.crypto_box message nonce a (Model.crypto_scalarmult_base b)) nonce b
    (Model.crypto_scalarmult_base a)
  = Some message.
Proof.
  unfold Model.crypto_box_open, Model.crypto_box, Model.crypto_scalarmult_base.
  rewrite !rev_involutive. apply model_unseal_seal.
Qed.

Lemma model_crypto_secretbox_open_secretbox (message nonce key : bytes) :
  Model.crypto_secretbox_open (Model.crypto_secretbox message nonce key) nonce key
  = Some message.
Proof. apply model_unseal_seal. Qed.

Lemma model_hmac_sha512_length (key data : bytes) :
  length (Model.hmac_sha512 key data) = 64.
Proof.
  unfold Model.hmac_sha512. rewrite length_firstn, !length_app, repeat_length. lia.
Qed.

Lemma model_read_write_nat (n : nat) (rest : bytes) :
  Model.read_nat (Model.write_nat n ++ rest) = Some (n, rest).
Proof.
  unfold Model.write_nat. induction n as [|n IH]; simpl; [reflexivity|].
  rewrite IH. reflexivity.
Qed.

Lemma model_read_nat_inv (s : bytes) :
  forall n r, Model.read_nat s = Some (n, r) -> s = Model.write_nat n ++ r.
Proof.
  induction s as [|b s IH]; intros n r; simpl; [discriminate|].
  destruct (Byte.eqb b x00) eqn:E0.
  - intros H. inversion H. subst. apply Byte.byte_dec_bl in E0. subst. reflexivity.
  - destruct (Byte.eqb b x01) eqn:E1; [|discriminate].
    apply Byte.byte_dec_bl in E1. subst b.
    destruct (Model.read_nat s) as [[n' r']|] eqn:Er; [|discriminate].
    intros H. inversion H. subst. rewrite (IH n' r eq_refl). reflexivity.
Qed.

Lemma model_write_nat_length (n : nat) : length (Model.write_nat n) = S n.
Proof. unfold Model.write_nat. rewrite length_app, repeat_length. simpl. lia. Qed.

Lemma model_flat_map_length_le {A : Type} (f : A -> bytes) (l : list A) (x : A) :
  In x l -> length (f x) <= length (flat_map f l).
Proof.
  induction l as [|y l IH]; simpl; [intros []|].
  rewrite length_app. intros [->|H]; [lia | specialize (IH H); lia].
Qed.

(** Reading back what was written, with any fuel that covers its length. *)
Lemma model_unpack_fuel_packb (o : obj) :
  forall fuel rest,
    length (Model.packb o) <= fuel ->
    Model.unpack_fuel fuel (Model.packb o ++ rest) = Some (o, rest).
Proof.
  induction o using obj_ind'; intros fuel rest Hf;
    (destruct fuel as [|fuel]; [simpl in Hf; lia|]).
  - reflexivity.
  - cbn [Model.packb Model.unpack_fuel app]. cbn [Byte.eqb Bool.eqb andb Byte.to_bits].
    rewrite model_read_write_nat.
    destruct (Z.ltb_spec z 0).
    + cbn [Byte.eqb Bool.eqb andb Byte.to_bits]. do 2 f_equal. f_equal. lia.
    + cbn [Byte.eqb Bool.eqb andb Byte.to_bits]. do 2 f_equal. f_equal. lia.
  - cbn [Model.packb Model.unpack_fuel app]. cbn [Byte.eqb Bool.eqb andb Byte.to_bits].
    rewrite <- app_assoc, model_read_write_nat.
    rewrite length_app. destruct (Nat.leb_spec (length (list_byte_of_string s))
                                    (length (list_byte_of_string s) + length rest)); [|lia].
    rewrite (firstn_exact _ rest _ eq_refl), (skipn_exact _ rest _ eq_refl).
    rewrite string_of_list_byte_of_string. reflexivity.
  - cbn [Model.packb Model.unpack_fuel app]. cbn [Byte.eqb Bool.eqb andb Byte.to_bits].
    rewrite <- app_assoc, model_read_write_nat.
    rewrite length_app. destruct (Nat.leb_spec (length b) (length b + length rest)); [|lia].
    rewrite (firstn_exact _ rest _ eq_refl), (skipn_exact _ rest _ eq_refl). reflexivity.
  - cbn [Model.packb Model.unpack_fuel app]. cbn [Byte.eqb Bool.eqb andb Byte.to_bits].
    rewrite <- app_assoc, model_read_write_nat.
    cbn [Model.packb length] in Hf. rewrite length_app, model_write_nat_length in Hf.
    assert (Hitems : forall rest',
               length (flat_map Model.packb l) <= fuel ->
               Model.read_items (Model.unpack_fuel fuel) (length l)
                 (flat_map Model.packb l ++ rest') = Some (l, rest')).
    { clear Hf. induction H as [|x l Hx Hl IH]; intros rest' Hle; simpl; [reflexivity|].
      simpl in Hle. rewrite length_app in Hle.
      rewrite <- app_assoc, Hx by lia. rewrite IH by lia. reflexivity. }
    rewrite Hitems by lia. reflexivity.
  - cbn [Model.packb Model.unpack_fuel app]. cbn [Byte.eqb Bool.eqb andb Byte.to_bits].
    rewrite <- app_assoc, model_read_write_nat.
    cbn [Model.packb length] in Hf. rewrite length_app, model_write_nat_length in Hf.
    assert (Hpairs : forall rest',
               length (flat_map (fun kv => Model.packb (fst kv) ++ Model.packb (snd kv)) d)
               <= fuel ->
               Model.read_pairs (Model.unpack_fuel fuel) (length d)
                 (flat_map (fun kv => Model.packb (fst kv) ++ Model.packb (snd kv)) d ++ rest')
               = Some (d, rest')).
    { clear Hf. induction H as [|[k v] d [Hk Hv] Hd IH]; intros rest' Hle; simpl;
        [reflexivity|].
      simpl in Hle, Hk, Hv. rewrite !length_app in Hle.
      rewrite <- !app_assoc, Hk by lia. rewrite Hv by lia. rewrite IH by lia. reflexivity. }
    rewrite Hpairs by lia. reflexivity.
Qed.

Lemma model_unpack_packb (o : obj) (rest : bytes) :
  wf_obj o = true -> Model.unpack (Model.packb o ++ rest) = Some (o, rest).
Proof.
  intros _. unfold Model.unpack. apply model_unpack_fuel_packb.
  rewrite length_app. lia.
Qed.

(** What a successful read took from the stream, and that it depends on
    nothing else. *)
Definition model_prefix_ok (fuel : nat) : Prop :=
  forall s o r,
    Model.unpack_fuel fuel s = Some (o, r) ->
    exists pre,
      pre <> [] /\ s = pre ++ r
      /\ forall fuel' r', length pre <= fuel' ->
                          Model.unpack_fuel fuel' (pre ++ r') = Some (o, r').

Lemma model_read_items_prefix (fuel : nat) :
  model_prefix_ok fuel ->
  forall n s xs r,
    Model.read_items (Model.unpack_fuel fuel) n s = Some (xs, r) ->
    exists pre,
      s = pre ++ r
      /\ forall fuel' r', length pre <= fuel' ->
                          Model.read_items (Model.unpack_fuel fuel') n (pre ++ r')
                          = Some (xs, r').
Proof.
  intros Hok. induction n as [|n IH]; intros s xs r; simpl.
  - intros H. inversion H. subst. exists []. split; [reflexivity|]. reflexivity.
  - destruct (Model.unpack_fuel fuel s) as [[x r1]|] eqn:E1; [|discriminate].
    destruct (Model.read_items (Model.unpack_fuel fuel) n r1) as [[xs' r2]|] eqn:E2;
      [|discriminate].
    intros H. inversion H. subst.
    destruct (Hok _ _ _ E1) as (pre1 & _ & Hs1 & Hp1).
    destruct (IH _ _ _ E2) as (pre2 & Hs2 & Hp2).
    exists (pre1 ++ pre2). split; [rewrite Hs1, Hs2, app_assoc; reflexivity|].
    intros fuel' r' Hle. rewrite length_app in Hle.
    rewrite <- app_assoc, Hp1 by lia. rewrite Hp2 by lia. reflexivity.
Qed.

Lemma model_read_pairs_prefix (fuel : nat) :
  model_prefix_ok fuel ->
  forall n s kvs r,
    Model.read_pairs (Model.unpack_fuel fuel) n s = Some (kvs, r) ->
    exists pre,
      s = pre ++ r
      /\ forall fuel' r', length pre <= fuel' ->
                          Model.read_pairs (Model.unpack_fuel fuel') n (pre ++ r')
                          = Some (kvs, r').
Proof.
  intros Hok. induction n as [|n IH]; intros s kvs r; simpl.
  - intros H. inversion H. subst. exists []. split; [reflexivity|]. reflexivity.
  - destruct (Model.unpack_fuel fuel s) as [[k r1]|] eqn:E1; [|discriminate].
    destruct (Model.unpack_fuel fuel r1) as [[v r2]|] eqn:E2; [|discriminate].
    destruct (Model.read_pairs (Model.unpack_fuel fuel) n r2) as [[kvs' r3]|] eqn:E3;
      [|discriminate].
    intros H. inversion H. subst.
    destruct (Hok _ _ _ E1) as (pre1 & _ & Hs1 & Hp1).
    destruct (Hok _ _ _ E2) as (pre2 & _ & Hs2 & Hp2).
    destruct (IH _ _ _ E3) as (pre3 & Hs3 & Hp3).
    exists (pre1 ++ pre2 ++ pre3).
    split; [rewrite Hs1, Hs2, Hs3, <- !app_assoc; reflexivity|].
    intros fuel' r' Hle. rewrite !length_app in Hle.
    rewrite <- !app_assoc, Hp1 by lia. rewrite Hp2 by lia. rewrite Hp3 by lia. reflexivity.
Qed.

Lemma model_unpack_fuel_prefix (fuel : nat) : model_prefix_ok fuel.
Proof.
  induction fuel as [|fuel IH]; intros s o r; [discriminate|].
  destruct s as [|tag r0]; [discriminate|]. cbn [Model.unpack_fuel].
  destruct (Byte.eqb tag x00) eqn:E0.
  { apply Byte.byte_dec_bl in E0. subst tag. intros H. inversion H. subst.
    exists [x00]. split; [discriminate|]. split; [reflexivity|].
    intros [|fuel'] r' Hle; [simpl in Hle; lia | reflexivity]. }
  destruct (Byte.eqb tag x01) eqn:E1.
  { apply Byte.byte_dec_bl in E1. subst tag.
    destruct r0 as [|sign r1]; [discriminate|].
    destruct (Model.read_nat r1) as [[n r2]|] eqn:Er; [|discriminate].
    apply model_read_nat_inv in Er. subst r1.
    destruct (Byte.eqb sign x00) eqn:S0.
    - apply Byte.byte_dec_bl in S0. subst sign. intros H. inversion H. subst.
      exists (x01 :: x00 :: Model.write_nat n).
      split; [discriminate|]. split; [reflexivity|].
      intros [|fuel'] r' Hle; [simpl in Hle; lia|].
      cbn [Model.unpack_fuel app]. cbn [Byte.eqb Bool.eqb andb Byte.to_bits].
      rewrite model_read_write_nat. reflexivity.
    - destruct (Byte.eqb sign x01) eqn:S1; [|discriminate].
      apply Byte.byte_dec_bl in S1. subst sign. intros H. inversion H. subst.
      exists (x01 :: x01 :: Model.write_nat n).
      split; [discriminate|]. split; [reflexivity|].
      intros [|fuel'] r' Hle; [simpl in Hle; lia|].
      cbn [Model.unpack_fuel app]. cbn [Byte.eqb Bool.eqb andb Byte.to_bits].
      rewrite model_read_write_nat. reflexivity. }
  destruct (Byte.eqb tag x02) eqn:E2.
  { apply Byte.byte_dec_bl in E2. subst tag.
    destruct (Model.read_nat r0) as [[n r1]|] eqn:Er; [|discriminate].
    apply model_read_nat_inv in Er. subst r0.
    destruct (Nat.leb_spec n (length r1)) as [Hn|]; [|discriminate].
    intros H. inversion H. subst.
    exists (x02 :: Model.write_nat n ++ firstn n r1).
    split; [discriminate|].
    split; [simpl; rewrite <- app_assoc, firstn_skipn; reflexivity|].
    intros [|fuel'] r' Hle; [simpl in Hle; lia|].
    cbn [Model.unpack_fuel app]. cbn [Byte.eqb Bool.eqb andb Byte.to_bits].
    rewrite <- app_assoc, model_read_write_nat.
    assert (Hl : length (firstn n r1) = n) by (rewrite length_firstn; lia).
    rewrite length_app, Hl.
    destruct (Nat.leb_spec n (n + length r')); [|lia].
    rewrite (firstn_exact _ r' n Hl), (skipn_exact _ r' n Hl). reflexivity. }
  destruct (Byte.eqb tag x03) eqn:E3.
  { apply Byte.byte_dec_bl in E3. subst tag.
    destruct (Model.read_nat r0) as [[n r1]|] eqn:Er; [|discriminate].
    apply model_read_nat_inv in Er. subst r0.
    destruct (Nat.leb_spec n (length r1)) as [Hn|]; [|discriminate].
    intros H. inversion H. subst.
    exists (x03 :: Model.write_nat n ++ firstn n r1).
    split; [discriminate|].
    split; [simpl; rewrite <- app_assoc, firstn_skipn; reflexivity|].
    intros [|fuel'] r' Hle; [simpl in Hle; lia|].
    cbn [Model.unpack_fuel app]. cbn [Byte.eqb Bool.eqb andb Byte.to_bits].
    rewrite <- app_assoc, model_read_write_nat.
    assert (Hl : length (firstn n r1) = n) by (rewrite length_firstn; lia).
    rewrite length_app, Hl.
    destruct (Nat.leb_spec n (n + length r')); [|lia].
    rewrite (firstn_exact _ r' n Hl), (skipn_exact _ r' n Hl). reflexivity. }
  destruct (Byte.eqb tag x04) eqn:E4.
  { apply Byte.byte_dec_bl in E4. subst tag.
    destruct (Model.read_nat r0) as [[n r1]|] eqn:Er; [|discriminate].
    apply model_read_nat_inv in Er. subst r0.
    destruct (Model.read_items (Model.unpack_fuel fuel) n r1) as [[xs r2]|] eqn:Ei;
      [|discriminate].
    intros H. inversion H. subst.
    destruct (model_read_items_prefix fuel IH _ _ _ _ Ei) as (pre & Hs & Hp).
    exists (x04 :: Model.write_nat n ++ pre).
    split; [discriminate|].
    split; [simpl; rewrite <- app_assoc, Hs; reflexivity|].
    intros [|fuel'] r' Hle; [simpl in Hle; lia|].
    cbn [Model.unpack_fuel app]. cbn [Byte.eqb Bool.eqb andb Byte.to_bits].
    rewrite <- app_assoc, model_read_write_nat.
    simpl in Hle. rewrite length_app in Hle.
    rewrite Hp by lia. reflexivity. }
  destruct (Byte.eqb tag x05) eqn:E5; [|discriminate].
  apply Byte.byte_dec_bl in E5. subst tag.
  destruct (Model.read_nat r0) as [[n r1]|] eqn:Er; [|discriminate].
  apply model_read_nat_inv in Er. subst r0.
  destruct (Model.read_pairs (Model.unpack_fuel fuel) n r1) as [[kvs r2]|] eqn:Ei;
    [|discriminate].
  intros H. inversion H. subst.
  destruct (model_read_pairs_prefix fuel IH _ _ _ _ Ei) as (pre & Hs & Hp).
  exists (x05 :: Model.write_nat n ++ pre).
  split; [discriminate|].
  split; [simpl; rewrite <- app_assoc, Hs; reflexivity|].
  intros [|fuel'] r' Hle; [simpl in Hle; lia|].
  cbn [Model.unpack_fuel app]. cbn [Byte.eqb Bool.eqb andb Byte.to_bits].
  rewrite <- app_assoc, model_read_write_nat.
  simpl in Hle. rewrite length_app in Hle.
  rewrite Hp by lia. reflexivity.
Qed.

Lemma model_unpack_prefix (s : bytes) (o : obj) (rest : bytes) :
  Model.unpack s = Some (o, rest) ->
  exists pre,
    pre <> [] /\ s = pre ++ rest
    /\ forall rest', Model.unpack (pre ++ rest') = Some (o, rest').
Proof.
  unfold Model.unpack. intros H.
  destruct (model_unpack_fuel_prefix _ _ _ _ H) as (pre & Hne & Hs & Hp).
  exists pre. repeat split; auto. intros rest'. apply Hp. rewrite length_app. lia.
Qed.

(** * The theorems on the model *)

Definition model_encode : bytes -> list (list bytes) -> bytes -> M Model.Rng bytes :=
  encode Model.Rng Model.urandom Model.crypto_scalarmult_base Model.crypto_box
    Model.crypto_secretbox Model.hmac_sha512 Model.packb.

Definition model_decode : bytes -> bytes -> M Model.Rng bytes :=
  decode Model.Rng Model.crypto_scalarmult_base Model.crypto_box_open
    Model.crypto_secretbox_open Model.hmac_sha512 Model.unpack Model.b64encode
    Model.json_dumps.

Definition model_read_framed_msgpack : M Model.Rng obj :=
  read_framed_msgpack Model.Rng Model.unpack Model.b64encode Model.json_dumps.

Definition model_decode_loop : nat -> obj -> obj -> obj -> N -> M Model.Rng unit :=
  decode_loop Model.Rng Model.crypto_secretbox_open Model.hmac_sha512 Model.unpack
    Model.b64encode Model.json_dumps.

(** The stream a call of [encode] returns, or nothing when it raises. *)
Definition encoded (r : result bytes * world Model.Rng) : bytes :=
  match fst r with
  | Ok out => out
  | Raise _ => []
  end.

(** Two keys and a few messages. *)
Definition jack_private : bytes := [xaa; xaa].
Definition max_private : bytes := [xbb; xbb; xbb].
Definition chris_private : bytes := [xcc].
Definition max_public : bytes := Model.crypto_scalarmult_base max_private.
Definition chris_public : bytes := Model.crypto_scalarmult_base chris_private.
Definition hello : bytes := ["h"%byte; "i"%byte].

Example model_roundtrip_empty :
  fst (run Model.Rng
         (model_decode (encoded (run Model.Rng (model_encode jack_private [[max_public]] []) 0))
            max_private) 1)
  = Ok [].
Proof. vm_compute. reflexivity. Qed.

Example model_roundtrip_100 :
  fst (run Model.Rng
         (model_decode
            (encoded (run Model.Rng
                        (model_encode jack_private [[max_public]] (repeat x41 100)) 0))
            max_private) 1)
  = Ok (repeat x41 100).
Proof. vm_compute. reflexivity. Qed.

Example model_roundtrip_250_two_groups :
  fst (run Model.Rng
         (model_decode
            (encoded (run Model.Rng
                        (model_encode jack_private [[max_public]; [chris_public]]
                           (repeat x41 250)) 0))
            chris_private) 1)
  = Ok (repeat x41 250).
Proof. vm_compute. reflexivity. Qed.

Example model_secretbox_messages_250 :
  map (@length byte)
    (secretbox_messages
       (calls Model.Rng
          (snd (run Model.Rng (model_encode jack_private [[max_public]] (repeat x41 250)) 0))))
  = [100; 100; 50; 0].
Proof. vm_compute. reflexivity. Qed.

Example model_unknown_recipient :
  fst (run Model.Rng
         (model_decode (encoded (run Model.Rng (model_encode jack_private [[max_public]] hello) 0))
            chris_private) 1)
  = Raise (KeyError (OBytes chris_public)).
Proof. vm_compute. reflexivity. Qed.

Lemma valid_bytes_hello : valid_bytes hello.
Proof. unfold valid_bytes. vm_compute. discriminate. Qed.

Lemma C1_witness :
  exists out w,
    run Model.Rng (model_encode jack_private [[max_public]] hello) 0 = (Ok out, w)
    /\ fst (run Model.Rng (model_decode out max_private) 1) = Ok hello.
Proof.
  unfold model_encode, model_decode, max_public.
  apply C1_roundtrip_single_group.
  - exact model_urandom_length.
  - exact model_crypto_box_open_box.
  - exact model_crypto_secretbox_open_secretbox.
  - exact model_unpack_packb.
  - exact valid_bytes_hello.
Defined.


(** A chunk frame whose tag for group 0 is not the tag of its ciphertext. *)
Definition forged_chunk : obj :=
  ODict [(OStr "chunk", OBytes [x61]); (OStr "macs", OList [OBytes [x00]])].

Definition forged_world : world Model.Rng :=
  mkWorld Model.Rng 0 (frame Model.packb forged_chunk) [] [].

Lemma C3_witness :
  model_decode_loop 1 (OBytes [x07]) (OBytes [x09]) (OInt 0) 0 forged_world
  = (Raise (RuntimeError "MAC mismatch!"), mkWorld Model.Rng 0 [] [] []).
Proof.
  refine (proj1 (proj2 (C3_mac_mismatch_is_fatal Model.Rng Model.crypto_secretbox_open
                          Model.hmac_sha512 Model.unpack Model.b64encode Model.json_dumps
                          0 (OBytes [x07]) [x09] (OInt 0) 0%N forged_world
                          (mkWorld Model.Rng 0 [] [] []) (repeat x00 24) forged_chunk
                          (OList [OBytes [x00]]) [x61] [x00] _ _ _ _ _) _)).
  - vm_compute. reflexivity.
  - vm_compute. reflexivity.
  - reflexivity.
  - reflexivity.
  - reflexivity.
  - vm_compute. discriminate.
Defined.

(** A header frame that names no recipient. *)
Definition lonely_header : obj :=
  ODict [(OStr "version", OInt 1); (OStr "sender", OBytes [xaa; xaa]);
         (OStr "recipients", ODict [])].

Lemma C4_witness :
  run Model.Rng (model_decode (frame Model.packb lonely_header) max_private) 0
  = (Raise (KeyError (OBytes max_public)), mkWorld Model.Rng 0 [] [] []).
Proof.
  refine (proj1 (C4_unknown_recipient Model.Rng Model.crypto_scalarmult_base
                   Model.crypto_box_open Model.crypto_secretbox_open Model.hmac_sha512
                   Model.unpack Model.b64encode Model.json_dumps
                   (frame Model.packb lonely_header) max_private 0 lonely_header
                   (OBytes [xaa; xaa]) [] (mkWorld Model.Rng 0 [] [] []) _ _ _ _)).
  - vm_compute. reflexivity.
  - reflexivity.
  - reflexivity.
  - reflexivity.
Defined.


Lemma valid_bytes_250 : valid_bytes (repeat x41 250).
Proof. unfold valid_bytes. vm_compute. discriminate. Qed.


(** What [encode] returns for [hello] to Max alone. *)
Definition hello_stream : bytes :=
  encoded (run Model.Rng (model_encode jack_private [[max_public]] hello) 0).


(** The objects of [hello_stream]: its header and its two chunks. *)
Definition hello_session_key : bytes := fst (Model.urandom 0 32).

Definition hello_box_nonce : bytes := fst (Model.urandom 1 24).

Definition hello_header : obj :=
  ODict (header_map (Model.crypto_scalarmult_base jack_private)
           [(OBytes max_public,
             OBytes (hello_box_nonce
                     ++ Model.crypto_box
                          (Model.packb
                             (ODict (per_recipient_map false hello_session_key 0 [])))
                          hello_box_nonce jack_private max_public))]).

Definition hello_chunk (i : N) (chunk : bytes) : bytes :=
  Model.crypto_secretbox chunk (rev (to_bytes_le 24 i)) hello_session_key.

Definition hello_chunks : list obj :=
  [ODict [(OStr "chunk", OBytes (hello_chunk 0 hello))];
   ODict [(OStr "chunk", OBytes (hello_chunk 1 []))]].

(** The same chunks with tags nobody asked for. *)
Definition hello_chunks_tagged : list obj :=
  [ODict [(OStr "chunk", OBytes (hello_chunk 0 hello)); (OStr "macs", OList [OBytes [x01]])];
   ODict [(OStr "chunk", OBytes (hello_chunk 1 [])); (OStr "macs", OList [OBytes [x02]])]].

Example hello_stream_frames :
  hello_stream
  = frame Model.packb hello_header ++ concat (map (frame Model.packb) hello_chunks) ++ [].
Proof. vm_compute. reflexivity. Qed.

Example model_decode_other_prefixes :
  fst (run Model.Rng
         (model_decode
            (framed Model.packb (combine (map OInt [7; 8; 9]%Z) (hello_header :: hello_chunks))
             ++ []) max_private) 1)
  = Ok hello.
Proof. vm_compute. reflexivity. Qed.

Example model_decode_tagged :
  fst (run Model.Rng
         (model_decode
            (frame Model.packb hello_header
             ++ concat (map (frame Model.packb) hello_chunks_tagged) ++ []) max_private) 1)
  = Ok hello.
Proof. vm_compute. reflexivity. Qed.

Lemma C8_witness :
  fst (run Model.Rng
         (model_decode
            (framed Model.packb (combine (map OInt [0; 0; 0]%Z) (hello_header :: hello_chunks))
             ++ []) max_private) 1)
  = fst (run Model.Rng
           (model_decode
              (framed Model.packb
                 (combine (map OInt [7; 8; 9]%Z) (hello_header :: hello_chunks)) ++ [])
              max_private) 1).
Proof.
  refine (proj1 (C8_length_prefix_unused Model.Rng Model.crypto_scalarmult_base
                   Model.crypto_box_open Model.crypto_secretbox_open Model.hmac_sha512
                   Model.packb Model.unpack Model.b64encode Model.json_dumps
                   model_unpack_packb model_unpack_prefix
                   (hello_header :: hello_chunks) [0; 0; 0]%Z [7; 8; 9]%Z [] max_private 1
                   _ _ _)).
  - repeat constructor.
  - reflexivity.
  - reflexivity.
Defined.

Lemma C10_witness :
  exists out w session_key mac_key w1,
    run Model.Rng
      (model_encode jack_private [[max_public]; [chris_public; max_public]] hello) 0
    = (Ok out, w)
    /\ decode_header Model.Rng Model.crypto_scalarmult_base Model.crypto_box_open
         Model.unpack Model.b64encode Model.json_dumps max_private
         (mkWorld Model.Rng 1 out [] [])
       = (Ok (OBytes session_key, OBytes mac_key, OInt 1), w1)
    /\ fst (run Model.Rng (model_decode out max_private) 1) = Ok hello.
Proof.
  destruct (C10_recipient_in_several_groups Model.Rng Model.urandom
              Model.crypto_scalarmult_base Model.crypto_box Model.crypto_box_open
              Model.crypto_secretbox Model.crypto_secretbox_open Model.hmac_sha512
              Model.packb Model.unpack Model.b64encode Model.json_dumps
              model_urandom_length model_crypto_box_open_box
              model_crypto_secretbox_open_secretbox model_unpack_packb
              jack_private max_public [[max_public]; [chris_public; max_public]] hello 0 1
              0 1 [max_public] [chris_public; max_public] valid_bytes_hello)
    as (out & w & session_key & mac_keys & rm & chunk_bytes & mac_key & Hrun & _ & _ & _ & _
        & _ & Hdec).
  - lia.
  - reflexivity.
  - left. reflexivity.
  - reflexivity.
  - right. left. reflexivity.
  - intros [|[|j']] group' Hlt Hnth; try lia. destruct j'; discriminate.
  - destruct (Hdec max_private eq_refl) as [[w1 Hhdr] Hok].
    exists out, w, session_key, mac_key, w1. auto.
Defined.

(** * The further properties on the model *)

(** What [encode] returns for [hello] to two groups, Max's and Chris's. *)
Definition tagged_stream : bytes :=
  encoded (run Model.Rng (model_encode jack_private [[max_public]; [chris_public]] hello) 0).

Lemma X1_witness :
  exists out w,
    run Model.Rng (model_encode jack_private [[max_public]; [chris_public]] hello) 0
    = (Ok out, w)
    /\ fst (run Model.Rng (model_decode out chris_private) 1) = Ok hello.
Proof.
  unfold model_encode, model_decode, chris_public.
  apply X1_roundtrip_every_group.
  - exact model_urandom_length.
  - exact model_crypto_box_open_box.
  - exact model_crypto_secretbox_open_secretbox.
  - exact model_unpack_packb.
  - exact valid_bytes_hello.
  - exists [Model.crypto_scalarmult_base chris_private].
    split; [right; left; reflexivity | left; reflexivity].
Defined.

Lemma X2_witness :
  exists out w,
    run Model.Rng (model_encode jack_private [[max_public]] hello) 0 = (Ok out, w)
    /\ fst (run Model.Rng (model_decode out chris_private) 1)
       = Raise (KeyError (OBytes chris_public))
    /\ calls Model.Rng (snd (run Model.Rng (model_decode out chris_private) 1)) = [].
Proof.
  unfold model_encode, model_decode, chris_public.
  apply X2_decode_by_a_stranger.
  - exact model_urandom_length.
  - exact model_unpack_packb.
  - exact valid_bytes_hello.
  - intros group [<-|[]] [E|[]]. vm_compute in E. discriminate.
Defined.

(** A header whose entry for Max, 24 bytes for the nonce and one more, is not
    a box that opens. *)
Definition shut_entry : bytes := repeat x00 24 ++ [x01].

Definition shut_header : obj :=
  ODict [(OStr "version", OInt 1); (OStr "sender", OBytes [xaa; xaa]);
         (OStr "recipients", ODict [(OBytes max_public, OBytes shut_entry)])].

Lemma X3_witness :
  run Model.Rng (model_decode (frame Model.packb shut_header) max_private) 0
  = (Raise CryptoError,
     mkWorld Model.Rng 0 [] [] [BoxOpen [x01] (repeat x00 24) max_private [xaa; xaa]]).
Proof.
  refine (X3_box_does_not_open Model.Rng Model.crypto_scalarmult_base
            Model.crypto_box_open Model.crypto_secretbox_open Model.hmac_sha512
            Model.unpack Model.b64encode Model.json_dumps
            (frame Model.packb shut_header) max_private 0 shut_header
            [xaa; xaa] shut_entry [(OBytes max_public, OBytes shut_entry)]
            (mkWorld Model.Rng 0 [] [] []) _ _ _ _ _).
  - vm_compute. reflexivity.
  - reflexivity.
  - reflexivity.
  - reflexivity.
  - reflexivity.
Defined.

(** The header of [tagged_stream], which gives Max a MAC key, followed by a
    chunk without tags. *)
Definition tagged_header : obj :=
  match model_read_framed_msgpack (mkWorld Model.Rng 0 tagged_stream [] []) with
  | (Ok header, _) => header
  | (Raise _, _) => ONone
  end.

Definition stripped_stream : bytes :=
  frame Model.packb tagged_header
  ++ frame Model.packb (ODict [(OStr "chunk", OBytes [x61])]).

Lemma X4_witness :
  fst (run Model.Rng (model_decode stripped_stream max_private) 0)
  = Raise (KeyError (OStr "macs")).
Proof.
  refine (f_equal fst
            (proj1 (X4_stripped_macs Model.Rng Model.crypto_scalarmult_base
                      Model.crypto_box_open Model.crypto_secretbox_open Model.hmac_sha512
                      Model.unpack Model.b64encode Model.json_dumps
                      stripped_stream max_private 0
                      (OBytes (fst (Model.urandom 0 32))) (OInt 0) (fst (Model.urandom 1 32))
                      (snd (decode_header Model.Rng Model.crypto_scalarmult_base
                              Model.crypto_box_open Model.unpack Model.b64encode
                              Model.json_dumps max_private
                              (mkWorld Model.Rng 0 stripped_stream [] [])))
                      _ [(OStr "chunk", OBytes [x61])] (OBytes [x61]) _ _ _ _))).
  - vm_compute. reflexivity.
  - vm_compute. reflexivity.
  - reflexivity.
  - reflexivity.
Defined.


Lemma X7_witness :
  fst (model_read_framed_msgpack (mkWorld Model.Rng 0 (Model.packb (OInt 1)) [] []))
  = Raise UnpackException.
Proof.
  refine (X7_truncated_frame Model.Rng Model.packb Model.unpack Model.b64encode
            Model.json_dumps model_unpack_packb model_unpack_prefix
            (OInt 1) ONone (Model.packb (OInt 1)) [x00]
            (mkWorld Model.Rng 0 (Model.packb (OInt 1)) [] []) _ _ _ _ _).
  - reflexivity.
  - reflexivity.
  - reflexivity.
  - discriminate.
  - reflexivity.
Defined.

Lemma X8_witness :
  exists out w,
    run Model.Rng (model_encode jack_private [[max_public]] hello) 0 = (Ok out, w)
    /\ forall s t,
         out = s ++ t -> t <> [] ->
         fst (run Model.Rng (model_decode s max_private) 1) = Raise UnpackException.
Proof.
  unfold model_encode, model_decode, max_public.
  apply X8_truncated_stream.
  - exact model_urandom_length.
  - exact model_crypto_box_open_box.
  - exact model_crypto_secretbox_open_secretbox.
  - exact model_unpack_packb.
  - exact model_unpack_prefix.
  - exact valid_bytes_hello.
  - exists [Model.crypto_scalarmult_base max_private]. split; left; reflexivity.
Defined.

Lemma X9_witness :
  exists out w session_key,
    run Model.Rng (model_encode jack_private [[max_public]] (repeat x41 250)) 0 = (Ok out, w)
    /\ hd_error (urandom_outputs 32 (calls Model.Rng w)) = Some session_key
    /\ NoDup (secretbox_nonces (calls Model.Rng w))
    /\ forall chunk nonce key,
         In (Secretbox chunk nonce key) (calls Model.Rng w) -> key = session_key.
Proof.
  unfold model_encode.
  apply X9_chunk_nonces_differ.
  - exact model_urandom_length.
  - exact valid_bytes_250.
Defined.

Lemma X10_witness :
  exists out w recipients_map chunk_bytes,
    run Model.Rng
      (model_encode jack_private [[max_public]; [chris_public; max_public]] hello) 0
    = (Ok out, w)
    /\ out = frame Model.packb
               (ODict (header_map (Model.crypto_scalarmult_base jack_private) recipients_map))
             ++ chunk_bytes
    /\ NoDup (map fst recipients_map).
Proof.
  destruct (X10_recipients_of_the_header Model.Rng Model.urandom
              Model.crypto_scalarmult_base Model.crypto_box Model.crypto_secretbox
              Model.hmac_sha512 Model.packb model_urandom_length
              jack_private [[max_public]; [chris_public; max_public]] hello 0
              valid_bytes_hello)
    as (out & w & rm & chunk_bytes & Hrun & Hout & Hnd & _).
  exists out, w, rm, chunk_bytes. auto.
Defined.

Lemma X11_witness :
  exists chunks,
    secretbox_open_results Model.crypto_secretbox_open
      (calls Model.Rng (snd (run Model.Rng (model_decode hello_stream max_private) 1)))
    = map Some (chunks ++ [[]])
    /\ Forall (fun c => c <> []) chunks
    /\ hello = concat chunks.
Proof.
  apply (X11_decode_returns_what_it_opened Model.Rng Model.crypto_scalarmult_base
           Model.crypto_box_open Model.crypto_secretbox_open Model.hmac_sha512
           Model.unpack Model.b64encode Model.json_dumps hello_stream max_private hello 1).
  vm_compute. reflexivity.
Defined.

Lemma X12_witness :
  fst (run Model.Rng (model_decode hello_stream max_private) 1) <> Raise FuelExhausted
  /\ length (filter is_secretbox_open
               (calls Model.Rng
                  (snd (run Model.Rng (model_decode hello_stream max_private) 1))))
     <= length hello_stream.
Proof.
  exact (X12_decode_ends Model.Rng Model.crypto_scalarmult_base Model.crypto_box_open
           Model.crypto_secretbox_open Model.hmac_sha512 Model.unpack Model.b64encode
           Model.json_dumps model_unpack_prefix hello_stream max_private 1).
Defined.

Lemma X13_witness :
  entropy Model.Rng (snd (run Model.Rng (model_decode hello_stream max_private) 1)) = 1.
Proof.
  exact (proj1 (X13_decode_calls Model.Rng Model.crypto_scalarmult_base
                  Model.crypto_box_open Model.crypto_secretbox_open Model.hmac_sha512
                  Model.unpack Model.b64encode Model.json_dumps model_unpack_prefix
                  hello_stream max_private 1)).
Defined.

Lemma X14_witness :
  no_bytes (ODict [(OStr (Model.b64encode hello), OList [OStr (Model.b64encode hello)])])
  = true.
Proof.
  apply (X14_recurse_repr_leaves_no_bytes Model.b64encode
           (ODict [(OBytes hello, OList [OBytes hello])])).
  reflexivity.
Defined.


(** The header of [hello_stream] without its [version]. *)
Definition hello_header_unversioned : obj :=
  match hello_header with
  | ODict d => ODict (without_version d)
  | o => o
  end.

Lemma hello_header_version_edit : version_edit hello_header hello_header_unversioned.
Proof.
  do 2 eexists. split; [reflexivity|]. split; [reflexivity|].
  split; [reflexivity|]. split.
  - intros v [H|[H|[H|[]]]]; try discriminate. inversion H. exists 1%Z. reflexivity.
  - intros v [H|[H|[]]]; discriminate.
Qed.

Lemma X16_witness :
  fst (run Model.Rng
         (model_decode
            (frame Model.packb hello_header
             ++ concat (map (frame Model.packb) hello_chunks)) max_private) 1)
  = fst (run Model.Rng
           (model_decode
              (frame Model.packb hello_header_unversioned
               ++ concat (map (frame Model.packb) hello_chunks)) max_private) 1).
Proof.
  refine (proj1 (X16_version_unread Model.Rng Model.crypto_scalarmult_base
                   Model.crypto_box_open Model.crypto_secretbox_open Model.hmac_sha512
                   Model.packb Model.unpack Model.b64encode Model.json_dumps
                   model_unpack_packb model_unpack_prefix
                   hello_header hello_header_unversioned
                   (concat (map (frame Model.packb) hello_chunks)) max_private 1
                   _ _ hello_header_version_edit)).
  - reflexivity.
  - reflexivity.
Defined.

(** The chunk dictionaries of [tagged_stream], and the same with the tag of
    group 1 replaced and a third tag added. *)
Definition tagged_chunks : list obj :=
  chunk_objs Model.crypto_secretbox Model.hmac_sha512 true
    [fst (Model.urandom 1 32); fst (Model.urandom 3 32)] (fst (Model.urandom 0 32)) 0
    [hello; []].

Definition tags_of (o : obj) : list bytes :=
  match o with
  | ODict [_; (_, OList l)] =>
      map (fun t => match t with OBytes b => b | _ => [] end) l
  | _ => []
  end.

Definition retag (o : obj) : obj :=
  match o with
  | ODict [c; (m, OList (t0 :: _))] => ODict [c; (m, OList [t0; OBytes [x00]; OBytes [x01]])]
  | _ => o
  end.

Example tagged_stream_frames :
  tagged_stream
  = frame Model.packb tagged_header ++ concat (map (frame Model.packb) tagged_chunks) ++ [].
Proof. vm_compute. reflexivity. Qed.

Lemma tagged_chunks_other_tags :
  Forall2 (other_tags_edit 0) tagged_chunks (map retag tagged_chunks).
Proof.
  repeat constructor.
  - eexists. eexists. exists (tags_of (nth 0 tagged_chunks ONone)).
    exists (tags_of (retag (nth 0 tagged_chunks ONone))).
    repeat split; reflexivity.
  - eexists. eexists. exists (tags_of (nth 1 tagged_chunks ONone)).
    exists (tags_of (retag (nth 1 tagged_chunks ONone))).
    repeat split; reflexivity.
Qed.

Lemma X17_witness :
  fst (run Model.Rng
         (model_decode
            (frame Model.packb tagged_header
             ++ concat (map (frame Model.packb) tagged_chunks) ++ []) max_private) 1)
  = fst (run Model.Rng
           (model_decode
              (frame Model.packb tagged_header
               ++ concat (map (frame Model.packb) (map retag tagged_chunks)) ++ [])
              max_private) 1).
Proof.
  refine (proj1 (X17_other_groups_tags_unread Model.Rng Model.crypto_scalarmult_base
                   Model.crypto_box_open Model.crypto_secretbox_open Model.hmac_sha512
                   Model.packb Model.unpack Model.b64encode Model.json_dumps
                   model_unpack_packb model_unpack_prefix
                   tagged_header tagged_chunks (map retag tagged_chunks) 0 [] max_private 1
                   _ _ _ tagged_chunks_other_tags _)).
  - vm_compute. reflexivity.
  - repeat constructor.
  - repeat constructor.
  - intros keys w H. vm_compute in H. inversion H. reflexivity.
Defined.

Lemma X18_witness :
  exists out w,
    run Model.Rng
      (model_encode Hardcoded.jack_private
         [[Model.crypto_scalarmult_base Hardcoded.max_private]] Hardcoded.message) 0
    = (Ok out, w)
    /\ fst (run Model.Rng
              (main Model.Rng Model.urandom Model.crypto_scalarmult_base Model.crypto_box
                 Model.crypto_box_open Model.crypto_secretbox Model.crypto_secretbox_open
                 Model.hmac_sha512 Model.packb Model.unpack Model.b64encode
                 Model.json_dumps) 0)
       = Ok (Model.b64encode out, Hardcoded.message).
Proof.
  unfold model_encode.
  apply X18_main_prints_the_message.
  - exact model_urandom_length.
  - exact model_crypto_box_open_box.
  - exact model_crypto_secretbox_open_secretbox.
  - exact model_unpack_packb.
Defined.

Lemma X19_witness :
  exists out w,
    run Model.Rng (model_encode jack_private [[max_public]] hello) 0 = (Ok out, w)
    /\ forall extra,
         fst (run Model.Rng (model_decode (out ++ extra) max_private) 1) = Ok hello.
Proof.
  unfold model_encode, model_decode, max_public.
  apply X19_bytes_after_the_message.
  - exact model_urandom_length.
  - exact model_crypto_box_open_box.
  - exact model_crypto_secretbox_open_secretbox.
  - exact model_unpack_packb.
  - exact valid_bytes_hello.
  - exists [Model.crypto_scalarmult_base max_private]. split; left; reflexivity.
Defined.

Lemma X20_witness :
  exists out w header chunk_dicts,
    run Model.Rng (model_encode jack_private [[max_public]; [chris_public]] hello) 0
    = (Ok out, w)
    /\ out = frame Model.packb header ++ concat (map (frame Model.packb) chunk_dicts).
Proof.
  destruct (X20_forged_tag_in_the_stream Model.Rng Model.urandom
              Model.crypto_scalarmult_base Model.crypto_box Model.crypto_box_open
              Model.crypto_secretbox Model.crypto_secretbox_open Model.hmac_sha512
              Model.packb Model.unpack Model.b64encode Model.json_dumps
              model_urandom_length model_crypto_box_open_box
              model_crypto_secretbox_open_secretbox model_unpack_packb model_unpack_prefix
              jack_private max_private [[max_public]; [chris_public]] hello 0 1
              0 [max_public] valid_bytes_hello)
    as (out & w & header & chunk_dicts & Hrun & Hout & _).
  - simpl. lia.
  - reflexivity.
  - left. reflexivity.
  - intros [|[|j']] group' Hlt Hnth; try lia.
    + inversion Hnth. intros [E|[]]. vm_compute in E. discriminate.
    + destruct j'; discriminate.
  - exists out, w, header, chunk_dicts. auto.
Defined.

Lemma X21_witness :
  exists out w,
    run Model.Rng
      (model_encode jack_private [[max_public]; [chris_public; max_public]] hello) 0
    = (Ok out, w)
    /\ box_nonces (calls Model.Rng w) = urandom_outputs 24 (calls Model.Rng w)
    /\ length (box_nonces (calls Model.Rng w))
       = length (flat_recipients 0 [[max_public]; [chris_public; max_public]])
    /\ Forall (fun nonce => length nonce = 24) (box_nonces (calls Model.Rng w)).
Proof.
  unfold model_encode.
  apply X21_box_nonces_are_drawn.
  - exact model_urandom_length.
  - exact valid_bytes_hello.
Defined.

Lemma C2_witness :
  exists out w session_key mac_keys chunk_dicts nonce tags,
    run Model.Rng (model_encode jack_private [[max_public]; [chris_public]] hello) 0
    = (Ok out, w)
    /\ urandom_outputs 32 (calls Model.Rng w) = session_key :: mac_keys
    /\ length mac_keys = 2
    /\ length chunk_dicts = 2
    /\ to_bytes 0 24 = Ok nonce
    /\ nth_error chunk_dicts 0
       = Some (ODict [(OStr "chunk",
                       OBytes (Model.crypto_secretbox hello nonce session_key));
                      (OStr "macs", OList (map OBytes tags))])
    /\ length tags = 2.
Proof.
  destruct (C2_macs_only_with_several_groups Model.Rng Model.urandom
              Model.crypto_scalarmult_base Model.crypto_box Model.crypto_secretbox
              Model.hmac_sha512 Model.packb model_urandom_length model_hmac_sha512_length
              jack_private [[max_public]; [chris_public]] hello 0 valid_bytes_hello)
    as (out & w & session_key & mac_keys & rm & chunks & chunk_dicts & Hrun & Hur
        & Hchunks & _ & _ & Hlen & _ & _ & Hgt).
  destruct (Hgt ltac:(simpl; lia)) as (Hmk & _ & _ & _ & Hframes).
  vm_compute in Hchunks. inversion Hchunks. subst chunks.
  destruct (Hframes 0 hello eq_refl) as (nonce & tags & Hn & Hd & _ & Ht & _).
  exists out, w, session_key, mac_keys, chunk_dicts, nonce, tags.
  repeat split; assumption.
Defined.

Lemma C5_witness :
  (exists out w w' session_key nonce,
      run Model.Rng (model_encode jack_private [[max_public]] hello) 0 = (Ok out, w)
      /\ run Model.Rng (model_decode out max_private) 1 = (Ok hello, w')
      /\ to_bytes 0 24 = Ok nonce
      /\ nth_error (filter is_secretbox (calls Model.Rng w)) 0
         = Some (Secretbox hello nonce session_key)
      /\ length (filter is_secretbox_open (calls Model.Rng w')) = 2
      /\ nth_error (filter is_secretbox_open (calls Model.Rng w')) 0
         = Some (SecretboxOpen (Model.crypto_secretbox hello nonce session_key)
                   nonce session_key))
  /\ (exists frames rest,
        read_n_frames Model.unpack (length frames) hello_stream = Some (frames, rest)
        /\ forall i c,
             nth_error (filter is_secretbox_open
                          (calls Model.Rng
                             (snd (run Model.Rng (model_decode hello_stream max_private) 1))))
               i
             = Some c ->
             exists chunk_map ciphertext nonce key,
               nth_error frames (S i) = Some chunk_map
               /\ getitem chunk_map (OStr "chunk") = Ok (OBytes ciphertext)
               /\ to_bytes (N.of_nat i) 24 = Ok nonce
               /\ c = SecretboxOpen ciphertext nonce key).
Proof.
  destruct (C5_chunk_nonce Model.Rng Model.urandom Model.crypto_scalarmult_base
              Model.crypto_box Model.crypto_box_open Model.crypto_secretbox
              Model.crypto_secretbox_open Model.hmac_sha512 Model.packb Model.unpack
              Model.b64encode Model.json_dumps model_urandom_length
              model_crypto_box_open_box model_crypto_secretbox_open_secretbox
              model_unpack_packb model_unpack_prefix
              jack_private max_private [[max_public]] hello hello_stream 0 1
              valid_bytes_hello)
    as (_ & _ & (out & w & session_key & chunks & Hrun & Hchunks & _ & Henc & Hdec) & Hany).
  split; [|exact Hany].
  destruct Hdec as (w' & Hrun' & Hlen & Hopen).
  { exists [max_public]. split; left; reflexivity. }
  vm_compute in Hchunks. inversion Hchunks. subst chunks.
  destruct (Henc 0 hello eq_refl) as (nonce & Hn & Hcall).
  destruct (Hopen 0 hello eq_refl) as (nonce' & Hn' & Hcall').
  assert (nonce' = nonce) by congruence. subst nonce'.
  exists out, w, w', session_key, nonce.
  repeat split; assumption.
Defined.

Lemma C6_witness :
  exists out w session_key recipients_map chunk_dicts segments,
    run Model.Rng (model_encode jack_private [[max_public]] (repeat x41 250)) 0 = (Ok out, w)
    /\ chunks_with_empty (repeat x41 250) = Some (segments ++ [[]])
    /\ out = frame Model.packb
               (ODict (header_map (Model.crypto_scalarmult_base jack_private)
                         recipients_map))
             ++ concat (map (frame Model.packb) chunk_dicts)
    /\ length chunk_dicts = 4
    /\ map (@length byte) (segments ++ [[]]) = [100; 100; 50; 0]
    /\ nth_error (filter is_secretbox (calls Model.Rng w)) 3
       = Some (Secretbox [] (rev (to_bytes_le 24 3)) session_key).
Proof.
  destruct (C6_chunking Model.Rng Model.urandom Model.crypto_scalarmult_base
              Model.crypto_box Model.crypto_secretbox Model.crypto_secretbox_open
              Model.hmac_sha512 Model.packb model_urandom_length
              model_crypto_secretbox_open_secretbox
              jack_private [[max_public]] (repeat x41 250) 0 valid_bytes_250)
    as (out & w & session_key & rm & segments & chunk_dicts & Hrun & Hc & _ & _ & _ & _
        & Hout & _ & Hnth & H250).
  destruct (H250 (repeat_length x41 250)) as [H4 Hlens].
  exists out, w, session_key, rm, chunk_dicts, segments.
  split; [exact Hrun|]. split; [exact Hc|]. split; [exact Hout|].
  split; [exact H4|]. split; [exact Hlens|].
  destruct (Hnth 3 []) as (nonce & cm & Hn & Hcall & _).
  - assert (Hl : length segments = 3).
    { apply (f_equal (@length nat)) in Hlens.
      rewrite length_map, length_app in Hlens. simpl in Hlens. lia. }
    rewrite nth_error_app2 by lia. rewrite Hl. reflexivity.
  - vm_compute in Hn. inversion Hn. subst nonce. exact Hcall.
Defined.

Lemma C7_witness :
  exists consumed frames chunks,
    hello_stream = consumed ++ []
    /\ length frames = length chunks + 2
    /\ read_n_frames Model.unpack (length frames) (consumed ++ [x07])
       = Some (frames, [x07])
    /\ hello = concat chunks
    /\ forall extra,
         fst (run Model.Rng (model_decode (consumed ++ extra) max_private) 1) = Ok hello.
Proof.
  destruct (C7_stops_at_first_empty_chunk Model.Rng Model.crypto_scalarmult_base
              Model.crypto_box_open Model.crypto_secretbox_open Model.hmac_sha512
              Model.unpack Model.b64encode Model.json_dumps model_unpack_prefix
              hello_stream max_private hello 1
              (snd (run Model.Rng (model_decode hello_stream max_private) 1)))
    as (consumed & frames & chunks & key & Hin & Hlen & Hfr & _ & _ & _ & Hcat & Hextra).
  - vm_compute. reflexivity.
  - exists consumed, frames, chunks.
    split; [rewrite Hin at 1; f_equal|].
    split; [exact Hlen|]. split; [apply Hfr|]. split; [exact Hcat|].
    intros extra. unfold model_decode. rewrite Hextra. reflexivity.
Defined.







Lemma X6_witness :
  model_read_framed_msgpack
    (with_stream Model.Rng (mkWorld Model.Rng 3 [] [x01] [])
       (output Model.Rng
          (snd (write_framed_msgpack Model.Rng Model.packb (OBytes hello)
                  (mkWorld Model.Rng 0 [] [] [])))
        ++ [x07]))
  = (Ok (OBytes hello), mkWorld Model.Rng 3 [x07] [x01] []).
Proof.
  unfold model_read_framed_msgpack.
  rewrite (X6_frame_read_back Model.Rng Model.packb Model.unpack Model.b64encode
             Model.json_dumps model_unpack_packb (OBytes hello)
             (mkWorld Model.Rng 0 [] [] []) (mkWorld Model.Rng 3 [] [x01] []) [x07]
             eq_refl eq_refl).
  reflexivity.
Defined.

Lemma X15_witness :
  json_repr Model.b64encode Model.json_dumps (ODict [(OList [], ONone)]) = Raise TypeError
  /\ model_read_framed_msgpack
       (mkWorld Model.Rng 0
          (Model.packb (OInt 0) ++ Model.packb (ODict [(OList [], ONone)]) ++ [x07])
          [x01] [])
     = (Raise TypeError, mkWorld Model.Rng 0 [x07] [x01] []).
Proof.
  destruct (X15_json_repr_raises_on_array_keys Model.Rng Model.unpack Model.b64encode
              Model.json_dumps (ODict [(OList [], ONone)]) eq_refl)
    as (_ & Hjson & Hread).
  split; [apply Hjson; reflexivity|].
  unfold model_read_framed_msgpack.
  apply (Hread (OInt 0) (Model.packb (ODict [(OList [], ONone)]) ++ [x07]) [x07]
           (mkWorld Model.Rng 0
              (Model.packb (OInt 0) ++ Model.packb (ODict [(OList [], ONone)]) ++ [x07])
              [x01] [])).
  - vm_compute. reflexivity.
  - vm_compute. reflexivity.
  - reflexivity.
Defined.
